(** * Credit-risk engine: shallow embedding and checked properties

    Embedding of [src/modeling/core.py], [src/modeling/portfolio.py] and
    [src/stress/scenarios.py].

    Number model.  Python floats are idealised as real numbers ([R]):
    rounding is not modelled.  Where the source can produce the IEEE
    special values (the z-score division of the Credit Availability
    Index) cells are taken in [xreal], reals extended with NaN and the two
    infinities, with the IEEE rules for them; the two statistics of that
    division, whose binary64 values depend on rounding, are a parameter
    of the index.  The cells of an input table are real numbers: tables
    with missing cells (NaN) are outside the model, and a statement about
    a table is a statement about a table without missing cells.

    [scipy.stats.norm.cdf] and [norm.ppf] are the standard normal
    distribution function and its inverse; they are defined below from
    the integral of the Gaussian density. *)

From Stdlib Require Import Reals Lra Lia List String ZArith Bool SpecFloat.
From Stdlib Require Import ClassicalEpsilon.
Import ListNotations.
Local Open Scope R_scope.

(* Numerals stay folded under [simpl], so that [lra] reads them. *)
Arguments IZR _ : simpl never.
Arguments Q2R _ : simpl never.

(** ** The standard normal distribution *)

Module Normal.

(** Unnormalised density [exp (- t^2 / 2)]. *)
Definition gauss (t : R) : R := exp (- (t * t) / 2).

Lemma gauss_pos (t : R) : 0 < gauss t.
Proof. apply exp_pos. Qed.

Lemma gauss_even (t : R) : gauss (- t) = gauss t.
Proof. unfold gauss. f_equal. lra. Qed.

Lemma gauss_derivable : derivable gauss.
Proof. unfold gauss. reg. Qed.

Lemma gauss_continuity : continuity gauss.
Proof. apply derivable_continuous, gauss_derivable. Qed.

Lemma gauss_integrable (a b : R) : Riemann_integrable gauss a b.
Proof.
  destruct (Rle_dec a b) as [Hab | Hab].
  - apply continuity_implies_RiemannInt; [exact Hab |].
    intros; apply gauss_continuity.
  - apply RiemannInt_P1, continuity_implies_RiemannInt; [lra |].
    intros; apply gauss_continuity.
Qed.

(** [gauss_int x] is the integral of [gauss] from 0 to [x]. *)
Definition gauss_int (x : R) : R := RiemannInt (gauss_integrable 0 x).

Lemma gauss_int_0 : gauss_int 0 = 0.
Proof. unfold gauss_int. apply RiemannInt_P9. Qed.

Lemma gauss_int_chasles (a x : R) :
  RiemannInt (gauss_integrable a x) = gauss_int x - gauss_int a.
Proof.
  unfold gauss_int.
  rewrite <- (RiemannInt_P26 (gauss_integrable 0 a) (gauss_integrable a x)
                (gauss_integrable 0 x)).
  ring.
Qed.

Lemma gauss_int_derivable_pt_lim (x : R) :
  derivable_pt_lim gauss_int x (gauss x).
Proof.
  assert (h : x - 1 <= x + 1) by lra.
  assert (C0 : forall y, x - 1 <= y <= x + 1 -> continuity_pt gauss y)
    by (intros; apply gauss_continuity).
  assert (Hx : x - 1 <= x <= x + 1) by lra.
  pose proof (RiemannInt_P28 h C0 Hx) as HP.
  assert (Heq : forall y, x - 1 <= y <= x + 1 ->
            primitive h (FTC_P1 h C0) y = gauss_int y - gauss_int (x - 1)).
  { intros y [Hy1 Hy2]. unfold primitive.
    destruct (Rle_dec (x - 1) y) as [r | n]; [| contradiction].
    destruct (Rle_dec y (x + 1)) as [r0 | n0]; [| contradiction].
    rewrite <- gauss_int_chasles. apply RiemannInt_P5. }
  intros eps Heps. destruct (HP eps Heps) as [delta Hdelta].
  assert (Hd : 0 < Rmin delta 1).
  { apply Rmin_pos; [apply cond_pos | lra]. }
  exists (mkposreal _ Hd). simpl. intros h0 Hh0 Hlt.
  assert (Hlt1 : Rabs h0 < 1).
  { eapply Rlt_le_trans; [exact Hlt | apply Rmin_r]. }
  assert (Hlt2 : Rabs h0 < delta).
  { eapply Rlt_le_trans; [exact Hlt | apply Rmin_l]. }
  apply Rabs_def2 in Hlt1.
  specialize (Hdelta h0 Hh0 Hlt2).
  rewrite (Heq (x + h0)), (Heq x) in Hdelta by lra.
  replace (gauss_int (x + h0) - gauss_int x)
    with (gauss_int (x + h0) - gauss_int (x - 1) - (gauss_int x - gauss_int (x - 1)))
    by ring.
  exact Hdelta.
Qed.

(** Consequences of the mean value theorem used below. *)
Section MeanValue.
Variables f f' : R -> R.
Hypothesis Hder : forall x, derivable_pt_lim f x (f' x).

Lemma mvt_increment (a b : R) :
  a < b -> exists c, a < c < b /\ f b - f a = f' c * (b - a).
Proof.
  intros Hab.
  destruct (MVT_cor2 f f' a b Hab) as [c [Hc1 Hc2]].
  - intros; apply Hder.
  - exists c; split; assumption.
Qed.

Lemma deriv_pos_increasing :
  (forall x, 0 < f' x) -> forall a b, a < b -> f a < f b.
Proof.
  intros Hpos a b Hab.
  destruct (mvt_increment a b Hab) as [c [_ Hc]].
  assert (0 < f' c * (b - a)) by (apply Rmult_lt_0_compat; [apply Hpos | lra]).
  lra.
Qed.

Lemma deriv_nonneg_from (m : R) :
  (forall x, m <= x -> 0 <= f' x) -> forall a b, m <= a -> a <= b -> f a <= f b.
Proof.
  intros Hpos a b Hma [Hab | ->]; [| lra].
  destruct (mvt_increment a b Hab) as [c [Hc1 Hc]].
  assert (0 <= f' c * (b - a)).
  { apply Rmult_le_pos; [apply Hpos |]; lra. }
  lra.
Qed.

Lemma deriv_zero_constant :
  (forall x, f' x = 0) -> forall a b, f a = f b.
Proof.
  intros Hz.
  assert (Hlt : forall a b, a < b -> f a = f b).
  { intros a b Hab. destruct (mvt_increment a b Hab) as [c [_ Hc]].
    rewrite Hz in Hc. lra. }
  intros a b. destruct (Rtotal_order a b) as [H | [-> | H]].
  - apply Hlt, H.
  - reflexivity.
  - symmetry; apply Hlt, H.
Qed.
End MeanValue.

Lemma gauss_int_increasing (a b : R) : a < b -> gauss_int a < gauss_int b.
Proof.
  apply (deriv_pos_increasing gauss_int gauss gauss_int_derivable_pt_lim).
  exact gauss_pos.
Qed.

Lemma gauss_int_odd (x : R) : gauss_int (- x) = - gauss_int x.
Proof.
  pose (h := fun y => gauss_int y + gauss_int (- y)).
  assert (Hh : forall y, derivable_pt_lim h y ((fun _ => 0) y)).
  { intros y. unfold h.
    replace 0 with (gauss y + gauss (- y) * (-1)) by (rewrite gauss_even; ring).
    apply (derivable_pt_lim_plus gauss_int (fun z => gauss_int (- z))).
    - apply gauss_int_derivable_pt_lim.
    - apply (derivable_pt_lim_comp (fun z => - z) gauss_int).
      + replace (-1) with (- 1) by ring.
        apply (derivable_pt_lim_opp id y 1), derivable_pt_lim_id.
      + apply gauss_int_derivable_pt_lim. }
  pose proof (deriv_zero_constant h _ Hh (fun _ => eq_refl) x 0) as Hc.
  unfold h in Hc. rewrite Ropp_0, gauss_int_0 in Hc. lra.
Qed.

(** The density is dominated by [exp (1/2 - t)], whose integral over the
    half line is [exp (1/2)]. *)
Lemma gauss_le_exp (t : R) : gauss t <= exp (/ 2 - t).
Proof.
  unfold gauss.
  destruct (Req_dec (- (t * t) / 2) (/ 2 - t)) as [-> | Hne]; [lra |].
  left. apply exp_increasing.
  assert (0 <= (t - 1) * (t - 1)) by (apply Rle_0_sqr || nra).
  nra.
Qed.

Lemma gauss_int_bounded (x : R) : gauss_int x <= exp (/ 2).
Proof.
  destruct (Rle_dec 0 x) as [Hx | Hx].
  - pose (k := fun y => exp (/ 2) - exp (/ 2 - y) - gauss_int y).
    assert (Hk : forall y, derivable_pt_lim k y
                   ((fun y => exp (/ 2 - y) - gauss y) y)).
    { intros y. unfold k.
      apply (derivable_pt_lim_minus (fun z => exp (/ 2) - exp (/ 2 - z)) gauss_int).
      - replace (exp (/ 2 - y)) with (0 - exp (/ 2 - y) * (0 - 1)) by ring.
        apply (derivable_pt_lim_minus (fun _ => exp (/ 2)) (fun z => exp (/ 2 - z))).
        + apply derivable_pt_lim_const.
        + apply (derivable_pt_lim_comp (fun z => / 2 - z) exp).
          * apply (derivable_pt_lim_minus (fun _ => / 2) id).
            -- apply derivable_pt_lim_const.
            -- apply derivable_pt_lim_id.
          * apply derivable_pt_lim_exp.
      - apply gauss_int_derivable_pt_lim. }
    assert (Hmono : k 0 <= k x).
    { apply (deriv_nonneg_from k _ Hk 0); [| lra | exact Hx].
      intros y _. pose proof (gauss_le_exp y). simpl. lra. }
    unfold k in Hmono. rewrite gauss_int_0 in Hmono.
    replace (/ 2 - 0) with (/ 2) in Hmono by lra.
    pose proof (exp_pos (/ 2 - x)). lra.
  - assert (gauss_int x < gauss_int 0) by (apply gauss_int_increasing; lra).
    rewrite gauss_int_0 in H. pose proof (exp_pos (/ 2)). lra.
Qed.

(** Half of the total mass of the density: the least upper bound of
    [gauss_int], i.e. the integral of [gauss] over the half line
    (its value is [sqrt (PI / 2)]). *)
Definition gauss_int_range (y : R) : Prop := exists x, y = gauss_int x.

Lemma gauss_int_range_bound : bound gauss_int_range.
Proof.
  exists (exp (/ 2)). intros y [x ->]. apply gauss_int_bounded.
Qed.

Lemma gauss_int_range_inhabited : exists y, gauss_int_range y.
Proof. exists (gauss_int 0), 0. reflexivity. Qed.

Definition half_mass : R :=
  proj1_sig (completeness gauss_int_range gauss_int_range_bound
               gauss_int_range_inhabited).

Lemma half_mass_lub : is_lub gauss_int_range half_mass.
Proof.
  unfold half_mass.
  destruct (completeness _ _ _) as [m Hm]. exact Hm.
Qed.

Lemma gauss_int_lt_half_mass (x : R) : gauss_int x < half_mass.
Proof.
  apply Rlt_le_trans with (gauss_int (x + 1)).
  - apply gauss_int_increasing; lra.
  - apply (proj1 half_mass_lub). exists (x + 1). reflexivity.
Qed.

Lemma half_mass_pos : 0 < half_mass.
Proof. rewrite <- gauss_int_0. apply gauss_int_lt_half_mass. Qed.

Lemma gauss_int_reaches (c : R) : c < half_mass -> exists x, c < gauss_int x.
Proof.
  intros Hc.
  destruct (classic (exists x, c < gauss_int x)) as [H | H]; [exact H |].
  exfalso.
  assert (Hub : is_upper_bound gauss_int_range c).
  { intros y [x ->]. apply Rnot_lt_le. intros Hlt. apply H. exists x. exact Hlt. }
  pose proof (proj2 half_mass_lub c Hub). lra.
Qed.

(** [norm.cdf]: the standard normal distribution function. *)
Definition cdf (x : R) : R := / 2 + gauss_int x / (2 * half_mass).

(** [norm.ppf]: the quantile function, the inverse of [cdf] on the open
    unit interval.  (Outside of it scipy returns an infinity or NaN; the
    callers modelled here clip their argument into the interval first.) *)
Definition ppf (p : R) : R := epsilon (inhabits 0) (fun x => cdf x = p).

Lemma cdf_0 : cdf 0 = / 2.
Proof. unfold cdf. rewrite gauss_int_0. unfold Rdiv. ring. Qed.

Lemma cdf_increasing (a b : R) : a < b -> cdf a < cdf b.
Proof.
  intros Hab. unfold cdf.
  apply Rplus_lt_compat_l, Rmult_lt_compat_r.
  - apply Rinv_0_lt_compat. pose proof half_mass_pos. lra.
  - apply gauss_int_increasing, Hab.
Qed.

Lemma cdf_injective (a b : R) : cdf a = cdf b -> a = b.
Proof.
  intros H. destruct (Rtotal_order a b) as [Hlt | [Heq | Hgt]].
  - apply cdf_increasing in Hlt. lra.
  - exact Heq.
  - apply cdf_increasing in Hgt. lra.
Qed.

Lemma cdf_le_inv (a b : R) : cdf a <= cdf b -> a <= b.
Proof.
  intros H. apply Rnot_lt_le. intros Hlt.
  apply cdf_increasing in Hlt. lra.
Qed.

Lemma cdf_symmetric (x : R) : cdf (- x) = 1 - cdf x.
Proof. unfold cdf. rewrite gauss_int_odd. unfold Rdiv. lra. Qed.

Lemma cdf_lt_1 (x : R) : cdf x < 1.
Proof.
  unfold cdf. pose proof half_mass_pos as HL.
  pose proof (gauss_int_lt_half_mass x) as Hx.
  assert (gauss_int x / (2 * half_mass) < / 2).
  { apply Rmult_lt_reg_r with (2 * half_mass); [lra |].
    unfold Rdiv. rewrite Rmult_assoc, Rinv_l by lra. lra. }
  lra.
Qed.

Lemma cdf_pos (x : R) : 0 < cdf x.
Proof.
  pose proof (cdf_lt_1 (- x)) as H. rewrite cdf_symmetric in H. lra.
Qed.

Lemma cdf_continuity : continuity cdf.
Proof.
  unfold cdf. intros x.
  apply (continuity_pt_plus (fun _ => / 2) (fun y => gauss_int y / (2 * half_mass))).
  - apply continuity_pt_const. intros a b. reflexivity.
  - apply (continuity_pt_mult gauss_int (fun _ => / (2 * half_mass))).
    + apply derivable_continuous_pt.
      exists (gauss x). apply gauss_int_derivable_pt_lim.
    + apply continuity_pt_const. intros a b. reflexivity.
Qed.

Lemma cdf_exceeds (p : R) : p < 1 -> exists x, p < cdf x.
Proof.
  intros Hp. pose proof half_mass_pos as HL.
  destruct (gauss_int_reaches ((p - / 2) * (2 * half_mass))) as [x Hx]; [nra |].
  exists x. unfold cdf.
  assert (p - / 2 < gauss_int x / (2 * half_mass)).
  { apply Rmult_lt_reg_r with (2 * half_mass); [lra |].
    unfold Rdiv. rewrite (Rmult_assoc (gauss_int x)), Rinv_l by lra. lra. }
  lra.
Qed.

Lemma cdf_surjective (p : R) : 0 < p < 1 -> exists x, cdf x = p.
Proof.
  intros [Hp0 Hp1].
  destruct (cdf_exceeds p Hp1) as [hi Hhi].
  destruct (cdf_exceeds (1 - p)) as [lo' Hlo]; [lra |].
  assert (Hlo' : cdf (- lo') < p) by (rewrite cdf_symmetric; lra).
  assert (Hlt : - lo' < hi).
  { apply Rnot_le_lt. intros Hle.
    destruct Hle as [Hle | Heq].
    - apply cdf_increasing in Hle. lra.
    - rewrite Heq in Hhi. lra. }
  destruct (IVT (fun x => cdf x - p) (- lo') hi) as [z [_ Hz]].
  - apply (continuity_minus cdf (fun _ => p)).
    + apply cdf_continuity.
    + apply continuity_const. intros a b. reflexivity.
  - exact Hlt.
  - lra.
  - lra.
  - exists z. lra.
Qed.

Lemma cdf_ppf (p : R) : 0 < p < 1 -> cdf (ppf p) = p.
Proof.
  intros Hp. unfold ppf.
  apply (epsilon_spec (inhabits 0) (fun x => cdf x = p)).
  apply cdf_surjective, Hp.
Qed.

Lemma ppf_cdf (x : R) : ppf (cdf x) = x.
Proof.
  apply cdf_injective, cdf_ppf. split; [apply cdf_pos | apply cdf_lt_1].
Qed.

Lemma ppf_half : ppf (/ 2) = 0.
Proof. rewrite <- cdf_0. apply ppf_cdf. Qed.

Lemma ppf_increasing (p q : R) : 0 < p -> p < q -> q < 1 -> ppf p < ppf q.
Proof.
  intros Hp Hpq Hq. apply Rnot_le_lt. intros Hle.
  assert (cdf (ppf q) <= cdf (ppf p)).
  { destruct Hle as [Hlt | Heq].
    - left. apply cdf_increasing, Hlt.
    - rewrite Heq. lra. }
  rewrite !cdf_ppf in H by lra. lra.
Qed.

Lemma ppf_symmetric (p : R) : 0 < p < 1 -> ppf (1 - p) = - ppf p.
Proof.
  intros Hp. apply cdf_injective.
  rewrite cdf_symmetric, !cdf_ppf by lra. reflexivity.
Qed.

Lemma ppf_pos (p : R) : / 2 < p < 1 -> 0 < ppf p.
Proof.
  intros Hp. rewrite <- ppf_half. apply ppf_increasing; lra.
Qed.

End Normal.

(** ** Python outcomes *)

(** The exceptions that matter to the modelled code.  [KeyError] and
    [IndexError] are the lookup failures raised by pandas, [ValueError]
    is its failure on arrays of different lengths, [ZeroDivisionError] is
    the division of a Python float by zero; [DomainError] and
    [MissingFieldError] are the two error classes named by the
    specification (no code path of the repository constructs them). *)
Inductive exn : Type :=
| KeyError (key : string)
| IndexError
| ValueError
| ZeroDivisionError
| DomainError
| MissingFieldError.

(** A call either returns a value or raises. *)
Inductive outcome (A : Type) : Type :=
| Returns (a : A)
| Raises (e : exn).
Arguments Returns {A} a.
Arguments Raises {A} e.

Definition bind {A B : Type} (m : outcome A) (k : A -> outcome B) : outcome B :=
  match m with
  | Returns a => k a
  | Raises e => Raises e
  end.

Notation "x <- m ;; k" := (bind m (fun x => k))
  (at level 61, m at next level, right associativity).

(** ** Floating-point cells with the IEEE special values *)

Inductive xreal : Type :=
| Fin (r : R)
| PInf
| NInf
| NaN.

Module XReal.

Definition opp (x : xreal) : xreal :=
  match x with
  | Fin r => Fin (- r)
  | PInf => NInf
  | NInf => PInf
  | NaN => NaN
  end.

Definition add (x y : xreal) : xreal :=
  match x, y with
  | NaN, _ | _, NaN => NaN
  | Fin a, Fin b => Fin (a + b)
  | PInf, NInf | NInf, PInf => NaN
  | PInf, _ | _, PInf => PInf
  | NInf, _ | _, NInf => NInf
  end.

Definition sub (x y : xreal) : xreal := add x (opp y).

(** An infinity with the sign of [r]; [NaN] when [r] is zero. *)
Definition signed_inf (positive : bool) (r : R) : xreal :=
  match total_order_T r 0 with
  | inleft (left _) => if positive then NInf else PInf
  | inleft (right _) => NaN
  | inright _ => if positive then PInf else NInf
  end.

Definition mul (x y : xreal) : xreal :=
  match x, y with
  | NaN, _ | _, NaN => NaN
  | Fin a, Fin b => Fin (a * b)
  | PInf, Fin b | Fin b, PInf => signed_inf true b
  | NInf, Fin b | Fin b, NInf => signed_inf false b
  | PInf, PInf | NInf, NInf => PInf
  | PInf, NInf | NInf, PInf => NInf
  end.

(** Division.  A zero divisor is the positive zero (the only zero the
    callers below can produce: a standard deviation); signed zeros are
    not modelled. *)
Definition div (x y : xreal) : xreal :=
  match x, y with
  | NaN, _ | _, NaN => NaN
  | Fin a, Fin b =>
      if Req_dec_T b 0 then signed_inf true a else Fin (a / b)
  | Fin _, PInf | Fin _, NInf => Fin 0
  | PInf, Fin b => if Rlt_dec b 0 then NInf else PInf
  | NInf, Fin b => if Rlt_dec b 0 then PInf else NInf
  | _, _ => NaN
  end.

(** [Series.clip lower upper]: missing values stay missing. *)
Definition clip (lower upper : R) (x : xreal) : xreal :=
  match x with
  | Fin r => Fin (Rmin (Rmax r lower) upper)
  | PInf => Fin upper
  | NInf => Fin lower
  | NaN => NaN
  end.

Definition is_finite (x : xreal) : Prop :=
  match x with Fin _ => True | _ => False end.

Lemma add_NaN_l (x : xreal) : add NaN x = NaN.
Proof. reflexivity. Qed.

Lemma add_NaN_r (x : xreal) : add x NaN = NaN.
Proof. destruct x; reflexivity. Qed.

Lemma mul_NaN_r (x : xreal) : mul x NaN = NaN.
Proof. destruct x; reflexivity. Qed.

Lemma div_NaN_r (x : xreal) : div x NaN = NaN.
Proof. destruct x; reflexivity. Qed.

Lemma div_zero_zero : div (Fin 0) (Fin 0) = NaN.
Proof.
  unfold div. destruct (Req_dec_T 0 0) as [_ | H]; [| contradiction].
  unfold signed_inf. destruct (total_order_T 0 0) as [[H | H] | H]; try lra.
  reflexivity.
Qed.

End XReal.

(** ** IEEE binary64, for the figures that the specification pins *)

Module Binary64.

Definition prec : Z := 53.
Definition emax : Z := 1024.

(** The double that holds a positive integer. *)
Definition of_pos (n : positive) : spec_float := binary_round prec emax false n 0.

(** The double written as the decimal literal [n / d]: the correctly
    rounded quotient. *)
Definition literal (n d : positive) : spec_float :=
  SFdiv prec emax (of_pos n) (of_pos d).

Definition mul (x y : spec_float) : spec_float := SFmul prec emax x y.

Definition add (x y : spec_float) : spec_float := SFadd prec emax x y.

Definition div (x y : spec_float) : spec_float := SFdiv prec emax x y.

(** The mean of a column of three cells: the cells added in order, the
    sum divided by the count. *)
Definition mean3 (a b c : spec_float) : spec_float :=
  div (add (add a b) c) (of_pos 3).

(** [avg_pd * avg_lgd * total_ead] of [Portfolio.calculate_ecl], the
    integer [total_ead = n_loans * avg_exposure] being converted to a
    double. *)
Definition ecl_12m (avg_pd avg_lgd : spec_float) (n_loans avg_exposure : positive)
  : spec_float :=
  mul (mul avg_pd avg_lgd) (of_pos (n_loans * avg_exposure)).

End Binary64.

(** ** Tables *)

(** A pandas [DataFrame] of floats: a row count (the length of the
    index) and the columns in order, each a list of cells.  Every cell is
    filled: a table with missing cells (NaN) is not a value of this
    type. *)
Record DataFrame : Type := mkDataFrame {
  nrows : nat;
  columns : list (string * list R)
}.

Fixpoint lookup {A : Type} (k : string) (l : list (string * A)) : option A :=
  match l with
  | [] => None
  | (k', v) :: t => if String.eqb k k' then Some v else lookup k t
  end.

(** Assignment to a key of an ordered mapping: an existing key keeps its
    position, a new one goes last. *)
Fixpoint assoc_set {A : Type} (k : string) (v : A) (l : list (string * A))
  : list (string * A) :=
  match l with
  | [] => [(k, v)]
  | (k', v') :: t =>
      if String.eqb k k' then (k, v) :: t else (k', v') :: assoc_set k v t
  end.

(** [c in df.columns] *)
Definition has_col (df : DataFrame) (c : string) : bool :=
  match lookup c (columns df) with Some _ => true | None => false end.

(** [df[c]] *)
Definition getitem (df : DataFrame) (c : string) : outcome (list R) :=
  match lookup c (columns df) with
  | Some v => Returns v
  | None => Raises (KeyError c)
  end.

(** [df[c] = v] *)
Definition setitem (df : DataFrame) (c : string) (v : list R) : DataFrame :=
  mkDataFrame (nrows df) (assoc_set c v (columns df)).

(** Every column has one cell per row. *)
Definition well_formed (df : DataFrame) : Prop :=
  forall c v, lookup c (columns df) = Some v -> List.length v = nrows df.

Fixpoint map2 {A B C : Type} (f : A -> B -> C) (xs : list A) (ys : list B)
  : list C :=
  match xs, ys with
  | x :: xs', y :: ys' => f x y :: map2 f xs' ys'
  | _, _ => []
  end.

Lemma lookup_assoc_set_same {A : Type} (k : string) (v : A) l :
  lookup k (assoc_set k v l) = Some v.
Proof.
  induction l as [| [k' v'] t IH]; simpl.
  - rewrite String.eqb_refl. reflexivity.
  - destruct (String.eqb k k') eqn:E; simpl; rewrite ?String.eqb_refl, ?E; auto.
Qed.

Lemma lookup_assoc_set_other {A : Type} (k k0 : string) (v : A) l :
  k0 <> k -> lookup k0 (assoc_set k v l) = lookup k0 l.
Proof.
  intros Hne. induction l as [| [k' v'] t IH]; simpl.
  - apply String.eqb_neq in Hne. rewrite Hne. reflexivity.
  - destruct (String.eqb k k') eqn:E; simpl.
    + apply String.eqb_eq in E. subst k'.
      apply String.eqb_neq in Hne. rewrite Hne. reflexivity.
    + rewrite IH. reflexivity.
Qed.

Lemma nrows_setitem df c v : nrows (setitem df c v) = nrows df.
Proof. reflexivity. Qed.

Lemma getitem_setitem_same df c v : getitem (setitem df c v) c = Returns v.
Proof. unfold getitem, setitem; simpl. rewrite lookup_assoc_set_same. reflexivity. Qed.

(** ** [modeling/core.py] *)

Module Core.

(** *** CreditAvailabilityIndex *)

Record CreditAvailabilityIndex : Type := { weights : list (string * R) }.

(** [CreditAvailabilityIndex()] with [weights=None]. *)
Definition default_cai : CreditAvailabilityIndex :=
  {| weights := [("rate"%string, -0.3); ("credit_growth"%string, 0.4);
                 ("unemployment"%string, -0.2); ("gdp_growth"%string, 0.1)] |}.

(** [self.weights[k]] *)
Definition weight (self : CreditAvailabilityIndex) (k : string) : outcome R :=
  match lookup k (weights self) with
  | Some w => Returns w
  | None => Raises (KeyError k)
  end.

Definition series_sum (xs : list R) : R := fold_right Rplus 0 xs.

(** [Series.mean()]: missing on an empty series. *)
Definition series_mean (xs : list R) : xreal :=
  match xs with
  | [] => NaN
  | _ => Fin (series_sum xs / INR (List.length xs))
  end.

(** [Series.std()]: the sample standard deviation (one delta degree of
    freedom), missing when there are fewer than two observations. *)
Definition series_std (xs : list R) : xreal :=
  match xs with
  | [] | [_] => NaN
  | _ =>
      let m := series_sum xs / INR (List.length xs) in
      Fin (sqrt (series_sum (map (fun x => (x - m) * (x - m)) xs)
                 / (INR (List.length xs) - 1)))
  end.

(** The two statistics that [calculate] asks of pandas.  In binary64
    their values depend on the rounding of the sums ([Series.mean()] of
    [0.1, 0.1, 0.1] is not 0.1), so the index is defined for any pair of
    statistics; [exact_stats] are the unrounded ones. *)
Record SeriesStats : Type := {
  stat_mean : list R -> xreal;
  stat_std : list R -> xreal
}.

Definition exact_stats : SeriesStats :=
  {| stat_mean := series_mean; stat_std := series_std |}.

(** [(s - s.mean()) / s.std()] *)
Definition zscore_with (stats : SeriesStats) (xs : list R) : list xreal :=
  map (fun x => XReal.div (XReal.sub (Fin x) (stat_mean stats xs))
                          (stat_std stats xs)) xs.

Definition zscore (xs : list R) : list xreal := zscore_with exact_stats xs.

Definition scale (w : R) (zs : list xreal) : list xreal :=
  map (XReal.mul (Fin w)) zs.

(** [CreditAvailabilityIndex.calculate], with the statistics of pandas as
    [stats]. *)
Definition calculate_with (stats : SeriesStats) (self : CreditAvailabilityIndex)
    (df : DataFrame) (rate_col credit_col unemp_col gdp_col : string)
  : outcome (list xreal) :=
  rate <- getitem df rate_col ;;
  let rate_z := zscore_with stats rate in
  credit <- getitem df credit_col ;;
  let credit_z := zscore_with stats credit in
  unemp <- getitem df unemp_col ;;
  let unemp_z := zscore_with stats unemp in
  gdp <- getitem df gdp_col ;;
  let gdp_z := zscore_with stats gdp in
  w_rate <- weight self "rate" ;;
  w_credit <- weight self "credit_growth" ;;
  w_unemp <- weight self "unemployment" ;;
  w_gdp <- weight self "gdp_growth" ;;
  let cai_raw :=
    map2 XReal.add
      (map2 XReal.add
         (map2 XReal.add (scale w_rate rate_z) (scale w_credit credit_z))
         (scale w_unemp unemp_z))
      (scale w_gdp gdp_z) in
  let cai := map (fun raw => XReal.add (Fin 50) (XReal.mul (Fin 10) raw)) cai_raw in
  Returns (map (XReal.clip 0 100) cai).

(** [calculate] in exact arithmetic. *)
Definition calculate (self : CreditAvailabilityIndex) (df : DataFrame)
    (rate_col credit_col unemp_col gdp_col : string) : outcome (list xreal) :=
  calculate_with exact_stats self df rate_col credit_col unemp_col gdp_col.

(** *** EADModel *)

Record EADModel : Type := { ccf : R }.

(** [EADModel()] with the default conversion factor. *)
Definition default_ead_model : EADModel := {| ccf := 0.75 |}.

(** [EADModel.calculate].  The body has no [raise]; it is written in the
    outcome type so that statements about exceptions can be made of it. *)
Definition EADModel_calculate (self : EADModel) (drawn_amount commitment : R)
    (usage_rate : option R) : outcome R :=
  let undrawn := commitment - drawn_amount in
  match usage_rate with
  | Some u => Returns (drawn_amount + u * undrawn)
  | None => Returns (drawn_amount + ccf self * undrawn)
  end.


(** *** ECLCalculator.calculate_12m_ecl *)
Definition calculate_12m_ecl (pd_12m lgd ead : R) : R := pd_12m * lgd * ead.

(** *** calculate_rwa_simple *)

(** [np.clip a a_min a_max] *)
Definition np_clip (a a_min a_max : R) : R := Rmin (Rmax a a_min) a_max.

Definition calculate_rwa_simple (ead pd lgd correlation : R) : R :=
  let pd := np_clip pd 0.0001 0.9999 in
  let phi_inv_pd := Normal.ppf pd in
  let phi_inv_999 := Normal.ppf 0.999 in
  let sqrt_r := sqrt correlation in
  let sqrt_1_r := sqrt (1 - correlation) in
  let k := lgd * Normal.cdf (sqrt_1_r * phi_inv_pd + sqrt_r * phi_inv_999)
           - pd * lgd in
  let b := (0.11852 - 0.05478 * ln pd) ^ 2 in
  let maturity_adj := (1 + (2.5 - 2.5) * b) / (1 - 1.5 * b) in
  let k_adj := k * maturity_adj in
  let rwa := ead * k_adj * 12.5 in
  rwa.

(** [calculate_capital_requirement] *)
Definition calculate_capital_requirement (rwa cet1_ratio : R) : R :=
  rwa * cet1_ratio.

End Core.

(** ** [modeling/portfolio.py] *)

Module Portfolio.

(** A row of [Portfolio.exposures].  The three derived cells are missing
    ([None]) until the column is computed; rows appended afterwards get
    missing cells from [pd.concat]. *)
Record Segment : Type := mkSegment {
  segment : string;
  segment_type : string;
  n_loans : Z;
  avg_exposure : R;
  total_ead : R;
  avg_pd : R;
  avg_lgd : R;
  correlation : R;
  ecl_12m : option R;
  ecl_lifetime : option R;
  rwa : option R
}.

(** The portfolio object; [exposures = []] is the table without any
    column that [__init__] creates. *)
Record Portfolio : Type := mkPortfolio {
  name : string;
  exposures : list Segment
}.

(** [Portfolio(name)] *)
Definition init (name : string) : Portfolio := mkPortfolio name [].

Definition add_segment (self : Portfolio) (segment_name : string) (n_loans : Z)
    (avg_exposure avg_pd avg_lgd correlation : R) (segment_type : string)
  : Portfolio :=
  let total_ead := IZR n_loans * avg_exposure in
  let segment :=
    mkSegment segment_name segment_type n_loans avg_exposure total_ead
              avg_pd avg_lgd correlation None None None in
  mkPortfolio (name self) (exposures self ++ [segment]).

Definition set_ecl_12m (v : option R) (r : Segment) : Segment :=
  mkSegment (segment r) (segment_type r) (n_loans r) (avg_exposure r)
            (total_ead r) (avg_pd r) (avg_lgd r) (correlation r)
            v (ecl_lifetime r) (rwa r).

Definition set_ecl_lifetime (v : option R) (r : Segment) : Segment :=
  mkSegment (segment r) (segment_type r) (n_loans r) (avg_exposure r)
            (total_ead r) (avg_pd r) (avg_lgd r) (correlation r)
            (ecl_12m r) v (rwa r).

(** The view [exposures[['segment', 'ecl_12m', 'ecl_lifetime']]]. *)
Definition ecl_view (rows : list Segment) : list (string * option R * option R) :=
  map (fun r => (segment r, ecl_12m r, ecl_lifetime r)) rows.

(** [Portfolio.calculate_ecl]: updates the table held by [self] and
    returns the view.  On the table without columns the first column
    access fails. *)
Definition calculate_ecl (self : Portfolio)
  : outcome (Portfolio * list (string * option R * option R)) :=
  match exposures self with
  | [] => Raises (KeyError "avg_pd")
  | rows =>
      let rows1 :=
        map (fun r => set_ecl_12m (Some (avg_pd r * avg_lgd r * total_ead r)) r)
            rows in
      let rows2 :=
        map (fun r => set_ecl_lifetime (option_map (fun e => e * 5) (ecl_12m r)) r)
            rows1 in
      Returns (mkPortfolio (name self) rows2, ecl_view rows2)
  end.

(** A row of the table returned by [stress_portfolio]: the copied row
    and the five added columns. *)
Record StressedSegment : Type := mkStressed {
  base : Segment;
  avg_pd_stressed : R;
  avg_lgd_stressed : R;
  total_ead_stressed : R;
  ecl_stressed : R;
  rwa_stressed : R
}.

Definition stress_row (pd_shock lgd_shock ead_shock : R) (r : Segment)
  : StressedSegment :=
  let avg_pd_stressed := avg_pd r * pd_shock in
  let avg_lgd_stressed := Rmin (avg_lgd r * lgd_shock) 1 in
  let total_ead_stressed := total_ead r * ead_shock in
  let ecl_stressed := avg_pd_stressed * avg_lgd_stressed * total_ead_stressed in
  let rwa_stressed :=
    Core.calculate_rwa_simple total_ead_stressed avg_pd_stressed
                              avg_lgd_stressed (correlation r) in
  mkStressed r avg_pd_stressed avg_lgd_stressed total_ead_stressed
             ecl_stressed rwa_stressed.

(** [Portfolio.stress_portfolio]: works on a copy, [self] is unchanged. *)
Definition stress_portfolio (self : Portfolio) (pd_shock lgd_shock ead_shock : R)
  : outcome (list StressedSegment) :=
  match exposures self with
  | [] => Raises (KeyError "avg_pd")
  | rows => Returns (map (stress_row pd_shock lgd_shock ead_shock) rows)
  end.

(** [Series.sum()] of a column with possibly missing cells (skipped). *)
Definition sum_cells (cells : list (option R)) : R :=
  fold_right (fun c acc => match c with Some v => v + acc | None => acc end) 0 cells.

(** [exposures['ecl_12m'].sum()] *)
Definition total_ecl_12m (rows : list Segment) : R :=
  sum_cells (map ecl_12m rows).

(** [stressed['ecl_stressed'].sum()] *)
Definition total_ecl_stressed (rows : list StressedSegment) : R :=
  fold_right Rplus 0 (map ecl_stressed rows).

End Portfolio.

(** ** [stress/scenarios.py] *)

Module Scenarios.

(** [np.linspace start stop num] with the end point included. *)
Definition linspace (start stop : R) (num : nat) : list R :=
  match num with
  | O => []
  | S O => [start]
  | _ => map (fun i => start + INR i * ((stop - start) / INR (num - 1)))
             (seq 0 num)
  end.

(** The path [np.concatenate([np.linspace(0, target, min(periods, n)),
    np.full(n - len(path), target)])]. *)
Definition ramp_path (target : R) (periods n : nat) : list R :=
  let path := linspace 0 target (Nat.min periods n) in
  path ++ repeat target (n - List.length path).

(** [if c in df.columns: df[c] = f(df[c])] *)
Definition update_col (df : DataFrame) (c : string) (f : list R -> list R)
  : DataFrame :=
  match lookup c (columns df) with
  | Some v => setitem df c (f v)
  | None => df
  end.

Definition add_scalar (s : R) (col : list R) : list R := map (fun x => x + s) col.
Definition mul_scalar (s : R) (col : list R) : list R := map (fun x => x * s) col.
Definition add_path (path col : list R) : list R := map2 Rplus col path.

(** A value of the [shocks] dictionary of the base class: a dictionary
    (read at the keys [instant] and [growth]) or a number. *)
Inductive Shock : Type :=
| ShockDict (entries : list (string * R))
| ShockNumber (value : R).

Inductive Scenario : Type :=
| StressScenario (shocks : list (string * Shock))
| TighteningScenario (rate_shock unemployment_shock housing_shock : R)
| SoftLandingScenario (rate_shock unemployment_shock housing_shock : R)
| FundingShockScenario (spread_shock credit_shock : R)
| SevereRecessionScenario
| CustomScenario (custom_shocks : list (string * R)).

(** [StressScenario.apply] *)
Definition apply_shock (df_stressed : DataFrame) (var : string) (shock : Shock)
  : DataFrame :=
  if has_col df_stressed var then
    match shock with
    | ShockDict entries =>
        match lookup "instant" entries with
        | Some i => update_col df_stressed var (add_scalar i)
        | None =>
            match lookup "growth" entries with
            | Some g => update_col df_stressed var (mul_scalar (1 + g))
            | None => df_stressed
            end
        end
    | ShockNumber s => update_col df_stressed var (add_scalar s)
    end
  else df_stressed.

Definition base_apply (shocks : list (string * Shock)) (df_base : DataFrame)
  : DataFrame :=
  fold_left (fun df vs => apply_shock df (fst vs) (snd vs)) shocks df_base.

(** [TighteningScenario.apply] *)
Definition tightening_apply (rate_shock unemployment_shock housing_shock : R)
    (df_base : DataFrame) : DataFrame :=
  let df := df_base in
  let df := update_col df "cash_rate" (add_scalar rate_shock) in
  let df := update_col df "fed_funds_rate" (add_scalar rate_shock) in
  let n := nrows df in
  let unemployment_path := ramp_path unemployment_shock 12 n in
  let df := update_col df "unemployment_rate" (add_path unemployment_path) in
  let df :=
    if has_col df "housing_price_index" || has_col df "housing_price_growth" then
      let housing_path := ramp_path housing_shock 24 n in
      update_col df "housing_price_growth" (add_path housing_path)
    else df in
  let df := update_col df "credit_growth_housing" (mul_scalar 0.5) in
  let df := update_col df "credit_growth" (mul_scalar 0.5) in
  let df := update_col df "bbsw_spread" (add_scalar 0.5) in
  let df := update_col df "baa_spread" (add_scalar 0.5) in
  df.

(** [SoftLandingScenario.apply] *)
Definition soft_landing_apply (rate_shock unemployment_shock housing_shock : R)
    (df_base : DataFrame) : DataFrame :=
  let df := df_base in
  let df := update_col df "cash_rate" (add_scalar rate_shock) in
  let df := update_col df "fed_funds_rate" (add_scalar rate_shock) in
  let df := update_col df "unemployment_rate" (add_scalar unemployment_shock) in
  let df := update_col df "housing_price_growth" (add_scalar housing_shock) in
  let df := update_col df "credit_growth_housing" (mul_scalar 0.85) in
  let df := update_col df "credit_growth" (mul_scalar 0.85) in
  df.

(** [FundingShockScenario.apply]: the derived [bbsw_rate] column reads
    [cash_rate] without a guard. *)
Definition funding_shock_apply (spread_shock credit_shock : R)
    (df_base : DataFrame) : outcome DataFrame :=
  let df := df_base in
  df <- (if has_col df "bbsw_spread" then
           let df := update_col df "bbsw_spread" (add_scalar spread_shock) in
           cash <- getitem df "cash_rate" ;;
           spread <- getitem df "bbsw_spread" ;;
           Returns (setitem df "bbsw_rate" (map2 Rplus cash spread))
         else Returns df) ;;
  let df := update_col df "baa_spread" (add_scalar spread_shock) in
  let df := update_col df "funding_cost" (add_scalar spread_shock) in
  let df := update_col df "credit_growth_housing" (add_scalar credit_shock) in
  let df := update_col df "credit_growth_business"
                       (add_scalar (credit_shock * 1.5)) in
  let df := update_col df "credit_growth" (add_scalar credit_shock) in
  let df := update_col df "liquidity_ratio" (mul_scalar 0.9) in
  Returns df.

(** [SevereRecessionScenario.apply] *)
Definition severe_recession_apply (df_base : DataFrame) : DataFrame :=
  let df := df_base in
  let n := nrows df in
  let unemployment_path := ramp_path 5 12 n in
  let df := update_col df "unemployment_rate"
              (fun col => map (fun x => Rmin x 12) (add_path unemployment_path col)) in
  let housing_path := ramp_path (-25) 18 n in
  let df := update_col df "housing_price_growth" (fun _ => housing_path) in
  let df := update_col df "cash_rate" (map (fun x => Rmax (x - 3.0) 0.1)) in
  let df := update_col df "fed_funds_rate" (map (fun x => Rmax (x - 4.0) 0.1)) in
  let df := update_col df "credit_growth_housing" (map (fun x => x - 20)) in
  let df := update_col df "credit_growth" (map (fun x => x - 20)) in
  let df := update_col df "bbsw_spread" (add_scalar 2.0) in
  let df := update_col df "baa_spread" (add_scalar 3.0) in
  df.

(** [CustomScenario.apply] *)
Definition custom_apply (custom_shocks : list (string * R)) (df_base : DataFrame)
  : DataFrame :=
  fold_left
    (fun df_stressed vs =>
       if has_col df_stressed (fst vs)
       then update_col df_stressed (fst vs) (add_scalar (snd vs))
       else df_stressed)
    custom_shocks df_base.

(** [scenario.apply(df)], dispatched on the class of the scenario. *)
Definition apply (scenario : Scenario) (df_base : DataFrame) : outcome DataFrame :=
  match scenario with
  | StressScenario shocks => Returns (base_apply shocks df_base)
  | TighteningScenario r u h => Returns (tightening_apply r u h df_base)
  | SoftLandingScenario r u h => Returns (soft_landing_apply r u h df_base)
  | FundingShockScenario s c => funding_shock_apply s c df_base
  | SevereRecessionScenario => Returns (severe_recession_apply df_base)
  | CustomScenario shocks => Returns (custom_apply shocks df_base)
  end.

(** [df.iloc[-1]]: the last row, as a mapping from column to cell. *)
Definition iloc_last (df : DataFrame) : outcome (list (string * R)) :=
  match nrows df with
  | O => Raises IndexError
  | S _ => Returns (map (fun cv => (fst cv, last (snd cv) 0)) (columns df))
  end.

(** [row[c]] *)
Definition row_getitem (row : list (string * R)) (c : string) : outcome R :=
  match lookup c row with
  | Some v => Returns v
  | None => Raises (KeyError c)
  end.

(** [row.get(c, default)] *)
Definition row_get (row : list (string * R)) (c : string) (default : R) : R :=
  match lookup c row with
  | Some v => v
  | None => default
  end.

(** [apply_scenario_to_portfolio] *)
Definition apply_scenario_to_portfolio (portfolio : Portfolio.Portfolio)
    (scenario : Scenario) (df_macro : DataFrame)
  : outcome (list Portfolio.StressedSegment * DataFrame) :=
  df_stressed <- apply scenario df_macro ;;
  latest <- iloc_last df_stressed ;;
  pd_multiplier <-
    match lookup "unemployment_rate" latest with
    | Some latest_u =>
        base_row <- iloc_last df_macro ;;
        base_u <- row_getitem base_row "unemployment_rate" ;;
        let unemployment_impact := (latest_u - base_u) / 2.0 in
        Returns (1 + unemployment_impact * 0.3)
    | None => Returns 1.0
    end ;;
  lgd_multiplier <-
    match lookup "housing_price_growth" latest with
    | Some latest_h =>
        base_row <- iloc_last df_macro ;;
        let housing_impact :=
          (latest_h - row_get base_row "housing_price_growth" 0) / 10 in
        let lgd_multiplier := 1 - housing_impact * 0.1 in
        Returns (Core.np_clip lgd_multiplier 0.8 1.5)
    | None => Returns 1.0
    end ;;
  let ead_multiplier := 1.05 in
  stressed_results <-
    Portfolio.stress_portfolio portfolio pd_multiplier lgd_multiplier
                               ead_multiplier ;;
  Returns (stressed_results, df_stressed).

End Scenarios.

(** * Properties *)

(** ** Exposure at default *)

(** C2 (counterexample).  With commitment 1,000,000 and drawn 1,200,000
    the default model raises nothing: it returns 1,050,000, computed from
    the negative undrawn amount. *)
Lemma C2_ead_overdrawn_returns :
  Core.EADModel_calculate Core.default_ead_model 1200000 1000000 None
    = Returns 1050000
  /\ Core.EADModel_calculate Core.default_ead_model 1200000 1000000 None
    <> Raises DomainError.
Proof.
  split.
  - unfold Core.EADModel_calculate, Core.default_ead_model; simpl.
    f_equal. lra.
  - discriminate.
Qed.

(** C2 (amended).  [EADModel.calculate] never raises: for all amounts,
    also with drawn above the commitment, it returns
    drawn + factor * (commitment - drawn), the factor being the usage
    rate when one is given and the conversion factor of the model
    otherwise. *)
Theorem C2_ead_calculate_total (self : Core.EADModel)
    (drawn commitment : R) (usage_rate : option R) :
  Core.EADModel_calculate self drawn commitment usage_rate
    = Returns (drawn + match usage_rate with
                       | Some u => u
                       | None => Core.ccf self
                       end * (commitment - drawn)).
Proof. destruct usage_rate; reflexivity. Qed.

(** ** Portfolio expected credit loss *)




(** The rows computed by [calculate_ecl], whatever the table. *)
Definition ecl_rows (rows : list Portfolio.Segment) : list Portfolio.Segment :=
  map (fun r =>
         Portfolio.set_ecl_lifetime
           (Some (Portfolio.avg_pd r * Portfolio.avg_lgd r * Portfolio.total_ead r * 5))
           (Portfolio.set_ecl_12m
              (Some (Portfolio.avg_pd r * Portfolio.avg_lgd r * Portfolio.total_ead r))
              r))
      rows.

Lemma calculate_ecl_returns (p : Portfolio.Portfolio) :
  Portfolio.exposures p <> [] ->
  Portfolio.calculate_ecl p
    = Returns (Portfolio.mkPortfolio (Portfolio.name p)
                 (ecl_rows (Portfolio.exposures p)),
               Portfolio.ecl_view (ecl_rows (Portfolio.exposures p))).
Proof.
  intros Hne. unfold Portfolio.calculate_ecl.
  destruct (Portfolio.exposures p) as [| r rows] eqn:E; [contradiction |].
  unfold ecl_rows. rewrite !map_map. reflexivity.
Qed.







(** ** Stress ordering *)

Definition segment_in_domain (r : Portfolio.Segment) : Prop :=
  0 <= Portfolio.avg_pd r
  /\ 0 <= Portfolio.avg_lgd r <= 1
  /\ 0 <= Portfolio.total_ead r.

Lemma stressed_ecl_ge (pd lgd ead pd_shock lgd_shock ead_shock : R) :
  0 <= pd -> 0 <= lgd <= 1 -> 0 <= ead ->
  1 <= pd_shock -> 1 <= lgd_shock -> 1 <= ead_shock ->
  pd * lgd * ead
    <= pd * pd_shock * Rmin (lgd * lgd_shock) 1 * (ead * ead_shock).
Proof.
  intros Hpd [Hl0 Hl1] Head Hps Hls Hes.
  assert (H1 : pd <= pd * pd_shock) by nra.
  assert (H2 : lgd <= Rmin (lgd * lgd_shock) 1).
  { apply Rmin_glb; nra. }
  assert (H3 : ead <= ead * ead_shock) by nra.
  apply Rmult_le_compat; try assumption.
  - apply Rmult_le_pos; assumption.
  - apply Rmult_le_compat; assumption.
Qed.

Lemma stress_row_base ps ls es r :
  Portfolio.base (Portfolio.stress_row ps ls es r) = r.
Proof. reflexivity. Qed.

Lemma segment_in_domain_ecl_rows rows :
  Forall segment_in_domain rows -> Forall segment_in_domain (ecl_rows rows).
Proof.
  unfold ecl_rows. rewrite Forall_map. apply Forall_impl. intros r H. exact H.
Qed.

Lemma stress_rows_ordered ps ls es rows :
  1 <= ps -> 1 <= ls -> 1 <= es ->
  Forall segment_in_domain rows ->
  Forall2 (fun r s => Portfolio.base s = r
                      /\ exists e, Portfolio.ecl_12m r = Some e
                                   /\ e <= Portfolio.ecl_stressed s)
          (ecl_rows rows) (map (Portfolio.stress_row ps ls es) (ecl_rows rows))
  /\ Portfolio.total_ecl_12m (ecl_rows rows)
     <= Portfolio.total_ecl_stressed
          (map (Portfolio.stress_row ps ls es) (ecl_rows rows)).
Proof.
  intros Hps Hls Hes. induction 1 as [| r rows [Hpd [Hlgd Head]] Hrows [IH1 IH2]].
  - split; [apply Forall2_nil | unfold Portfolio.total_ecl_12m, Portfolio.total_ecl_stressed; simpl; lra].
  - assert (Hr : Portfolio.avg_pd r * Portfolio.avg_lgd r * Portfolio.total_ead r
                 <= Portfolio.avg_pd r * ps
                    * Rmin (Portfolio.avg_lgd r * ls) 1
                    * (Portfolio.total_ead r * es))
      by (apply stressed_ecl_ge; assumption).
    split.
    + simpl. constructor; [| exact IH1].
      split; [reflexivity |]. eexists. split; [reflexivity | exact Hr].
    + unfold Portfolio.total_ecl_12m, Portfolio.total_ecl_stressed in *.
      simpl. simpl in IH2. lra.
Qed.

(** C9.  For segments with avg_pd >= 0, avg_lgd in [0,1] and total_ead
    >= 0 and three shocks >= 1, the stressed ECL of every row of
    [stress_portfolio] is at least the baseline ecl_12m that
    [calculate_ecl] stored for it, and so are the totals. *)
Theorem C9_stressed_ecl_ge_baseline (p : Portfolio.Portfolio)
    (pd_shock lgd_shock ead_shock : R) :
  Portfolio.exposures p <> [] ->
  Forall segment_in_domain (Portfolio.exposures p) ->
  1 <= pd_shock -> 1 <= lgd_shock -> 1 <= ead_shock ->
  exists p' view stressed,
    Portfolio.calculate_ecl p = Returns (p', view)
    /\ Portfolio.stress_portfolio p' pd_shock lgd_shock ead_shock
       = Returns stressed
    /\ Forall2 (fun r s => Portfolio.base s = r
                           /\ exists e, Portfolio.ecl_12m r = Some e
                                        /\ e <= Portfolio.ecl_stressed s)
               (Portfolio.exposures p') stressed
    /\ Portfolio.total_ecl_12m (Portfolio.exposures p')
       <= Portfolio.total_ecl_stressed stressed.
Proof.
  intros Hne Hdom Hps Hls Hes.
  eexists _, _, (map (Portfolio.stress_row pd_shock lgd_shock ead_shock)
                     (ecl_rows (Portfolio.exposures p))).
  split; [apply calculate_ecl_returns, Hne |].
  split.
  - unfold Portfolio.stress_portfolio. simpl.
    destruct (Portfolio.exposures p) as [| r rows]; [contradiction |].
    reflexivity.
  - simpl. apply stress_rows_ordered; assumption.
Qed.

Lemma C9_stressed_ecl_ge_baseline_witness :
  exists p' view stressed,
    Portfolio.calculate_ecl
      (Portfolio.add_segment (Portfolio.init "AU") "Personal Loans" 20000 25000
         0.03 0.45 0.15 "retail")
      = Returns (p', view)
    /\ Portfolio.stress_portfolio p' 1.5 1.2 1.1 = Returns stressed
    /\ Forall2 (fun r s => Portfolio.base s = r
                           /\ exists e, Portfolio.ecl_12m r = Some e
                                        /\ e <= Portfolio.ecl_stressed s)
               (Portfolio.exposures p') stressed
    /\ Portfolio.total_ecl_12m (Portfolio.exposures p')
       <= Portfolio.total_ecl_stressed stressed.
Proof.
  apply (C9_stressed_ecl_ge_baseline
           (Portfolio.add_segment (Portfolio.init "AU") "Personal Loans" 20000
              25000 0.03 0.45 0.15 "retail") 1.5 1.2 1.1).
  - simpl. discriminate.
  - simpl. constructor; [| constructor].
    unfold segment_in_domain. simpl. lra.
  - lra.
  - lra.
  - lra.
Defined.

(** ** Scenario transforms *)

Lemma nrows_update_col df c f : nrows (Scenarios.update_col df c f) = nrows df.
Proof.
  unfold Scenarios.update_col. destruct (lookup c (columns df)); reflexivity.
Qed.

Lemma lookup_update_col_same df c f :
  lookup c (columns (Scenarios.update_col df c f))
    = option_map f (lookup c (columns df)).
Proof.
  unfold Scenarios.update_col.
  destruct (lookup c (columns df)) as [v |] eqn:E; simpl.
  - apply lookup_assoc_set_same.
  - exact E.
Qed.

Lemma lookup_update_col_other df c c0 f :
  c0 <> c ->
  lookup c0 (columns (Scenarios.update_col df c f)) = lookup c0 (columns df).
Proof.
  intros Hne. unfold Scenarios.update_col.
  destruct (lookup c (columns df)) as [v |]; simpl.
  - apply lookup_assoc_set_other, Hne.
  - reflexivity.
Qed.

Lemma has_col_update_col df c c0 f :
  has_col (Scenarios.update_col df c f) c0 = has_col df c0.
Proof.
  unfold has_col. destruct (string_dec c0 c) as [-> | Hne].
  - rewrite lookup_update_col_same. destruct (lookup c (columns df)); reflexivity.
  - rewrite lookup_update_col_other by exact Hne. reflexivity.
Qed.

Lemma update_col_absent df c f :
  has_col df c = false -> Scenarios.update_col df c f = df.
Proof.
  unfold has_col, Scenarios.update_col.
  destruct (lookup c (columns df)); [discriminate | reflexivity].
Qed.

Lemma custom_apply_absent (shocks : list (string * R)) (df : DataFrame) :
  (forall var, In var (map fst shocks) -> has_col df var = false) ->
  Scenarios.custom_apply shocks df = df.
Proof.
  unfold Scenarios.custom_apply.
  induction shocks as [| [var s] shocks IH]; intros Habs; simpl.
  - reflexivity.
  - rewrite (Habs var) by (left; reflexivity).
    apply IH. intros v Hv. apply Habs. right. exact Hv.
Qed.

Lemma base_apply_absent (shocks : list (string * Scenarios.Shock)) (df : DataFrame) :
  (forall var, In var (map fst shocks) -> has_col df var = false) ->
  Scenarios.base_apply shocks df = df.
Proof.
  unfold Scenarios.base_apply.
  induction shocks as [| [var s] shocks IH]; intros Habs; simpl.
  - reflexivity.
  - unfold Scenarios.apply_shock at 2. simpl.
    rewrite (Habs var) by (left; reflexivity).
    apply IH. intros v Hv. apply Habs. right. exact Hv.
Qed.

(** C7.  A [CustomScenario] whose shocks all name fields absent from the
    series (in particular one with no shock) returns, without raising, a
    series equal to its input; the same holds of the [apply] of the base
    class. *)
Theorem C7_absent_shocks_noop (df : DataFrame) :
  (forall custom_shocks,
     (forall var, In var (map fst custom_shocks) -> has_col df var = false) ->
     Scenarios.apply (Scenarios.CustomScenario custom_shocks) df = Returns df)
  /\ Scenarios.apply (Scenarios.CustomScenario []) df = Returns df
  /\ (forall shocks,
        (forall var, In var (map fst shocks) -> has_col df var = false) ->
        Scenarios.apply (Scenarios.StressScenario shocks) df = Returns df).
Proof.
  split; [| split].
  - intros shocks Habs. simpl. f_equal. apply custom_apply_absent, Habs.
  - reflexivity.
  - intros shocks Habs. simpl. f_equal. apply base_apply_absent, Habs.
Qed.

(** The macro table of the demonstration of [scenarios.py], two months. *)
Definition sample_macro : DataFrame :=
  mkDataFrame 2
    [("cash_rate"%string, [4.5; 4.5]);
     ("unemployment_rate"%string, [4.0; 4.0]);
     ("housing_price_growth"%string, [5.0; 5.0]);
     ("credit_growth_housing"%string, [8.0; 8.0]);
     ("bbsw_spread"%string, [0.5; 0.5])].

Lemma C7_absent_shocks_noop_witness :
  Scenarios.apply
    (Scenarios.CustomScenario [("gdp_growth"%string, -1.5);
                               ("fed_funds_rate"%string, 2)])
    sample_macro
  = Returns sample_macro.
Proof.
  apply (proj1 (C7_absent_shocks_noop sample_macro)).
  intros var [<- | [<- | []]]; reflexivity.
Defined.

(** *** The severe recession housing path *)

(** The path as the claim words it: linear from 0 to -25 over the first
    [min 18 n] periods, constant -25 afterwards. *)
Definition severe_housing_spec (n i : nat) : R :=
  let m := Nat.min 18 n in
  if (i <? m)%nat
  then if (m =? 1)%nat then 0 else -25 * (INR i / INR (m - 1))
  else -25.

Lemma length_linspace a b num : List.length (Scenarios.linspace a b num) = num.
Proof.
  unfold Scenarios.linspace. destruct num as [| [| k]]; try reflexivity.
  rewrite length_map, length_seq. reflexivity.
Qed.

Lemma nth_linspace a b num i :
  (i < num)%nat -> (2 <= num)%nat ->
  nth i (Scenarios.linspace a b num) 0 = a + INR i * ((b - a) / INR (num - 1)).
Proof.
  intros Hi Hnum. unfold Scenarios.linspace.
  destruct num as [| [| k]]; try lia.
  set (f := fun j => a + INR j * ((b - a) / INR (S (S k) - 1))).
  rewrite (nth_indep _ 0 (f O)) by (rewrite length_map, length_seq; exact Hi).
  rewrite map_nth, seq_nth by exact Hi. reflexivity.
Qed.

Lemma length_ramp_path target periods n :
  List.length (Scenarios.ramp_path target periods n) = n.
Proof.
  unfold Scenarios.ramp_path.
  rewrite length_app, repeat_length, length_linspace. lia.
Qed.

Lemma nth_ramp_path target periods n i :
  (i < n)%nat ->
  nth i (Scenarios.ramp_path target periods n) 0
    = let m := Nat.min periods n in
      if (i <? m)%nat
      then if (m =? 1)%nat then 0 else 0 + INR i * ((target - 0) / INR (m - 1))
      else target.
Proof.
  intros Hi. unfold Scenarios.ramp_path. cbv zeta.
  set (m := Nat.min periods n).
  destruct (Nat.ltb_spec i m) as [Hlt | Hge].
  - rewrite app_nth1 by (rewrite length_linspace; exact Hlt).
    destruct (Nat.eqb_spec m 1) as [H1 | H1].
    + rewrite H1 in *. assert (i = O) by lia. subst i. reflexivity.
    + apply nth_linspace; lia.
  - rewrite app_nth2 by (rewrite length_linspace; exact Hge).
    apply nth_repeat_lt. rewrite !length_linspace. lia.
Qed.

Lemma severe_housing_column (df : DataFrame) :
  has_col df "housing_price_growth" = true ->
  getitem (Scenarios.severe_recession_apply df) "housing_price_growth"
    = Returns (Scenarios.ramp_path (-25) 18 (nrows df)).
Proof.
  intros Hh. unfold getitem, Scenarios.severe_recession_apply.
  repeat (rewrite lookup_update_col_other by discriminate).
  rewrite lookup_update_col_same.
  rewrite lookup_update_col_other by discriminate.
  unfold has_col in Hh.
  destruct (lookup "housing_price_growth" (columns df)); [| discriminate].
  reflexivity.
Qed.

(** C10.  When the series has a housing_price_growth column,
    [SevereRecessionScenario.apply] replaces it by the fixed path (one
    cell per period: linear from 0 to -25 over the first min(18, n)
    periods, then -25), whatever the baseline cells: a second series with
    as many periods and the column yields the same stressed column. *)
Theorem C10_severe_housing_fixed_path (df : DataFrame) :
  has_col df "housing_price_growth" = true ->
  exists col,
    getitem (Scenarios.severe_recession_apply df) "housing_price_growth"
      = Returns col
    /\ List.length col = nrows df
    /\ (forall i, (i < nrows df)%nat ->
          nth i col 0 = severe_housing_spec (nrows df) i)
    /\ (forall df',
          nrows df' = nrows df ->
          has_col df' "housing_price_growth" = true ->
          getitem (Scenarios.severe_recession_apply df') "housing_price_growth"
            = Returns col).
Proof.
  intros Hh. exists (Scenarios.ramp_path (-25) 18 (nrows df)).
  split; [apply severe_housing_column, Hh |].
  split; [apply length_ramp_path |].
  split.
  - intros i Hi. rewrite nth_ramp_path by exact Hi.
    unfold severe_housing_spec. cbv zeta.
    destruct (i <? Nat.min 18 (nrows df))%nat; [| reflexivity].
    destruct (Nat.min 18 (nrows df) =? 1)%nat; [reflexivity |].
    unfold Rdiv. ring.
  - intros df' Hn Hh'. rewrite severe_housing_column by exact Hh'.
    rewrite Hn. reflexivity.
Qed.

Lemma C10_severe_housing_fixed_path_witness :
  exists col,
    getitem (Scenarios.severe_recession_apply sample_macro) "housing_price_growth"
      = Returns col
    /\ List.length col = 2%nat
    /\ (forall i, (i < 2)%nat -> nth i col 0 = severe_housing_spec 2 i)
    /\ (forall df',
          nrows df' = 2%nat ->
          has_col df' "housing_price_growth" = true ->
          getitem (Scenarios.severe_recession_apply df') "housing_price_growth"
            = Returns col).
Proof.
  apply (C10_severe_housing_fixed_path sample_macro). reflexivity.
Defined.

(** The stressed column of the two-month sample: 0 then -25, although
    the baseline cells are 5. *)
Example severe_housing_sample :
  getitem (Scenarios.severe_recession_apply sample_macro) "housing_price_growth"
    = Returns [0; -25].
Proof.
  rewrite severe_housing_column by reflexivity.
  unfold Scenarios.ramp_path, Scenarios.linspace. simpl.
  do 2 f_equal; [lra |]. f_equal. lra.
Qed.

(** By contrast the tightening and the soft landing add their shock to
    the baseline column. *)
Lemma tightening_housing_additive (rate_shock unemployment_shock housing_shock : R)
    (df : DataFrame) (col : list R) :
  lookup "housing_price_growth" (columns df) = Some col ->
  getitem (Scenarios.tightening_apply rate_shock unemployment_shock housing_shock df)
          "housing_price_growth"
    = Returns (map2 Rplus col (Scenarios.ramp_path housing_shock 24 (nrows df))).
Proof.
  intros Hcol. unfold getitem, Scenarios.tightening_apply. cbv zeta.
  repeat (rewrite lookup_update_col_other by discriminate).
  assert (Hh : forall d, has_col d "housing_price_growth" = true ->
                 (has_col d "housing_price_index" || has_col d "housing_price_growth")
                 = true).
  { intros d ->. apply orb_true_r. }
  rewrite Hh.
  - rewrite lookup_update_col_same.
    repeat (rewrite lookup_update_col_other by discriminate).
    rewrite !nrows_update_col, Hcol. reflexivity.
  - rewrite !has_col_update_col. unfold has_col. rewrite Hcol. reflexivity.
Qed.

Lemma soft_landing_housing_additive (rate_shock unemployment_shock housing_shock : R)
    (df : DataFrame) (col : list R) :
  lookup "housing_price_growth" (columns df) = Some col ->
  getitem (Scenarios.soft_landing_apply rate_shock unemployment_shock housing_shock df)
          "housing_price_growth"
    = Returns (map (fun x => x + housing_shock) col).
Proof.
  intros Hcol. unfold getitem, Scenarios.soft_landing_apply. cbv zeta.
  repeat (rewrite lookup_update_col_other by discriminate).
  rewrite lookup_update_col_same.
  repeat (rewrite lookup_update_col_other by discriminate).
  rewrite Hcol. reflexivity.
Qed.

(** ** Propagation of a scenario to the portfolio *)

(** The multipliers as the specification words them. *)
Definition pd_multiplier_spec (delta_unemployment : R) : R :=
  1 + (delta_unemployment / 2) * 0.3.

Definition lgd_multiplier_spec (delta_housing : R) : R :=
  Core.np_clip (1 - (delta_housing / 10) * 0.1) 0.8 1.5.

(** The cell of column [c] in the latest period of [df], when there is
    such a column. *)
Definition latest (df : DataFrame) (c : string) : option R :=
  option_map (fun v => last v 0) (lookup c (columns df)).

Lemma lookup_map_last c (cols : list (string * list R)) :
  lookup c (map (fun cv => (fst cv, last (snd cv) 0)) cols)
    = option_map (fun v => last v 0) (lookup c cols).
Proof.
  induction cols as [| [k v] t IH]; simpl; [reflexivity |].
  destruct (String.eqb c k); [reflexivity | exact IH].
Qed.

Lemma iloc_last_returns df :
  nrows df <> O ->
  Scenarios.iloc_last df
    = Returns (map (fun cv => (fst cv, last (snd cv) 0)) (columns df)).
Proof.
  unfold Scenarios.iloc_last. destruct (nrows df); [contradiction | reflexivity].
Qed.

Lemma has_col_setitem_other df c c0 v :
  c0 <> c -> has_col (setitem df c v) c0 = has_col df c0.
Proof.
  intros Hne. unfold has_col, setitem; simpl.
  rewrite lookup_assoc_set_other by exact Hne. reflexivity.
Qed.

(** What a scenario transform keeps: the number of periods and, apart
    from the derived bbsw_rate, the set of columns. *)
Definition same_shape (df dfs : DataFrame) : Prop :=
  nrows dfs = nrows df
  /\ forall c, c <> "bbsw_rate"%string -> has_col dfs c = has_col df c.

Lemma same_shape_refl df : same_shape df df.
Proof. split; reflexivity. Qed.

Lemma same_shape_update_col df dfs c f :
  same_shape df dfs -> same_shape df (Scenarios.update_col dfs c f).
Proof.
  intros [Hn Hc]. split.
  - rewrite nrows_update_col. exact Hn.
  - intros c0 Hne. rewrite has_col_update_col. apply Hc, Hne.
Qed.

Lemma same_shape_custom_apply shocks df dfs :
  same_shape df dfs -> same_shape df (Scenarios.custom_apply shocks dfs).
Proof.
  unfold Scenarios.custom_apply. revert dfs.
  induction shocks as [| [var s] shocks IH]; intros dfs H; simpl; [exact H |].
  apply IH. destruct (has_col dfs var); [apply same_shape_update_col |]; exact H.
Qed.

Lemma same_shape_base_apply shocks df dfs :
  same_shape df dfs -> same_shape df (Scenarios.base_apply shocks dfs).
Proof.
  unfold Scenarios.base_apply. revert dfs.
  induction shocks as [| [var s] shocks IH]; intros dfs H; simpl; [exact H |].
  apply IH. unfold Scenarios.apply_shock. simpl.
  destruct (has_col dfs var); [| exact H].
  destruct s as [entries | value].
  - destruct (lookup "instant" entries); [apply same_shape_update_col, H |].
    destruct (lookup "growth" entries); [apply same_shape_update_col, H | exact H].
  - apply same_shape_update_col, H.
Qed.

Lemma same_shape_apply scenario df dfs :
  Scenarios.apply scenario df = Returns dfs -> same_shape df dfs.
Proof.
  destruct scenario as [shocks | r u h | r u h | s c | | shocks]; simpl; intros H.
  - injection H as <-. apply same_shape_base_apply, same_shape_refl.
  - injection H as <-. unfold Scenarios.tightening_apply.
    repeat apply same_shape_update_col.
    match goal with |- context [if ?b then _ else _] => destruct b end;
      repeat apply same_shape_update_col; apply same_shape_refl.
  - injection H as <-. unfold Scenarios.soft_landing_apply.
    repeat apply same_shape_update_col. apply same_shape_refl.
  - unfold Scenarios.funding_shock_apply in H.
    destruct (has_col df "bbsw_spread").
    + simpl in H.
      destruct (getitem _ "cash_rate") as [cash | e]; [| discriminate].
      simpl in H.
      destruct (getitem _ "bbsw_spread") as [spread | e]; [| discriminate].
      simpl in H. injection H as <-.
      repeat apply same_shape_update_col.
      split.
      * simpl. apply nrows_update_col.
      * intros c0 Hne. rewrite has_col_setitem_other by exact Hne.
        apply has_col_update_col.
    + simpl in H. injection H as <-.
      repeat apply same_shape_update_col. apply same_shape_refl.
  - injection H as <-. unfold Scenarios.severe_recession_apply.
    repeat apply same_shape_update_col. apply same_shape_refl.
  - injection H as <-. apply same_shape_custom_apply, same_shape_refl.
Qed.

Lemma latest_none_iff df dfs c :
  same_shape df dfs -> c <> "bbsw_rate"%string ->
  (latest dfs c = None <-> latest df c = None).
Proof.
  intros [_ Hc] Hne. specialize (Hc c Hne). unfold has_col, latest in *.
  destruct (lookup c (columns dfs)), (lookup c (columns df)); simpl;
    try discriminate; split; intros; try discriminate; reflexivity.
Qed.

(** C8.  When the scenario transform returns [df_stressed] and the macro
    series has a latest period, [apply_scenario_to_portfolio] is the call
    of [stress_portfolio] with pd_multiplier = 1 + (delta unemployment /
    2) * 0.3, lgd_multiplier = clip(1 - (delta housing / 10) * 0.1, 0.8,
    1.5) and ead_multiplier = 1.05, the deltas being taken between the
    latest periods of the stressed and the baseline series; a multiplier
    whose field is absent is 1. *)
Theorem C8_scenario_multipliers (portfolio : Portfolio.Portfolio)
    (scenario : Scenarios.Scenario) (df_macro df_stressed : DataFrame) :
  Scenarios.apply scenario df_macro = Returns df_stressed ->
  nrows df_macro <> O ->
  Scenarios.apply_scenario_to_portfolio portfolio scenario df_macro
    = (stressed_results <-
         Portfolio.stress_portfolio portfolio
           (match latest df_stressed "unemployment_rate",
                  latest df_macro "unemployment_rate" with
            | Some stressed_u, Some base_u =>
                pd_multiplier_spec (stressed_u - base_u)
            | _, _ => 1
            end)
           (match latest df_stressed "housing_price_growth",
                  latest df_macro "housing_price_growth" with
            | Some stressed_h, Some base_h =>
                lgd_multiplier_spec (stressed_h - base_h)
            | _, _ => 1
            end)
           1.05 ;;
       Returns (stressed_results, df_stressed)).
Proof.
  intros Happly Hn.
  pose proof (same_shape_apply _ _ _ Happly) as Hshape.
  assert (Hn' : nrows df_stressed <> O) by (rewrite (proj1 Hshape); exact Hn).
  unfold Scenarios.apply_scenario_to_portfolio.
  rewrite Happly. cbn [bind].
  rewrite (iloc_last_returns _ Hn'). cbn [bind].
  rewrite !lookup_map_last, (iloc_last_returns _ Hn).
  change (option_map (fun v => last v 0)
            (lookup "unemployment_rate" (columns df_stressed)))
    with (latest df_stressed "unemployment_rate").
  change (option_map (fun v => last v 0)
            (lookup "housing_price_growth" (columns df_stressed)))
    with (latest df_stressed "housing_price_growth").
  pose proof (latest_none_iff _ _ "unemployment_rate" Hshape
                ltac:(discriminate)) as Hu.
  pose proof (latest_none_iff _ _ "housing_price_growth" Hshape
                ltac:(discriminate)) as Hh.
  assert (Hbu : latest df_macro "unemployment_rate"
                = option_map (fun v => last v 0)
                    (lookup "unemployment_rate" (columns df_macro)))
    by reflexivity.
  assert (Hbh : latest df_macro "housing_price_growth"
                = option_map (fun v => last v 0)
                    (lookup "housing_price_growth" (columns df_macro)))
    by reflexivity.
  destruct (latest df_stressed "unemployment_rate") as [su |];
    destruct (latest df_macro "unemployment_rate") as [bu |];
    try (exfalso; destruct Hu as [Hu1 Hu2];
         (discriminate (Hu1 eq_refl) || discriminate (Hu2 eq_refl)));
    destruct (latest df_stressed "housing_price_growth") as [sh |];
    destruct (latest df_macro "housing_price_growth") as [bh |];
    try (exfalso; destruct Hh as [Hh1 Hh2];
         (discriminate (Hh1 eq_refl) || discriminate (Hh2 eq_refl)));
    cbn [bind]; unfold Scenarios.row_getitem, Scenarios.row_get;
    rewrite ?lookup_map_last, <- ?Hbu, <- ?Hbh; cbn [bind];
    unfold pd_multiplier_spec, lgd_multiplier_spec;
    replace 2.0 with 2 by lra; replace 1.0 with 1 by lra; reflexivity.
Qed.

Lemma C8_scenario_multipliers_witness :
  Scenarios.apply_scenario_to_portfolio
    (Portfolio.add_segment (Portfolio.init "AU") "SME Lending" 5000 200000
       0.02 0.40 0.20 "corporate")
    (Scenarios.TighteningScenario 2.0 2.0 (-10.0))
    sample_macro
  = (stressed_results <-
       Portfolio.stress_portfolio
         (Portfolio.add_segment (Portfolio.init "AU") "SME Lending" 5000 200000
            0.02 0.40 0.20 "corporate")
         (match latest (Scenarios.tightening_apply 2.0 2.0 (-10.0) sample_macro)
                       "unemployment_rate",
                latest sample_macro "unemployment_rate" with
          | Some stressed_u, Some base_u => pd_multiplier_spec (stressed_u - base_u)
          | _, _ => 1
          end)
         (match latest (Scenarios.tightening_apply 2.0 2.0 (-10.0) sample_macro)
                       "housing_price_growth",
                latest sample_macro "housing_price_growth" with
          | Some stressed_h, Some base_h => lgd_multiplier_spec (stressed_h - base_h)
          | _, _ => 1
          end)
         1.05 ;;
     Returns (stressed_results,
              Scenarios.tightening_apply 2.0 2.0 (-10.0) sample_macro)).
Proof.
  apply (C8_scenario_multipliers _ (Scenarios.TighteningScenario 2.0 2.0 (-10.0))
           sample_macro).
  - reflexivity.
  - simpl. discriminate.
Defined.

(** ** Credit Availability Index *)

Definition required_columns (rate_col credit_col unemp_col gdp_col : string)
  : list string := [rate_col; credit_col; unemp_col; gdp_col].

Lemma getitem_absent df c : has_col df c = false -> getitem df c = Raises (KeyError c).
Proof.
  unfold has_col, getitem. destruct (lookup c (columns df)); [discriminate | reflexivity].
Qed.

Lemma getitem_present df c :
  has_col df c = true -> exists v, getitem df c = Returns v.
Proof.
  unfold has_col, getitem. destruct (lookup c (columns df)) as [v |];
    [exists v; reflexivity | discriminate].
Qed.

(** The first of the columns [cols], in their order, that the table
    lacks. *)
Definition first_absent (df : DataFrame) (cols : list string) : option string :=
  find (fun c => negb (has_col df c)) cols.

Lemma cai_first_absent (stats : Core.SeriesStats)
    (self : Core.CreditAvailabilityIndex) (df : DataFrame)
    (rate_col credit_col unemp_col gdp_col c : string) :
  first_absent df (required_columns rate_col credit_col unemp_col gdp_col) = Some c ->
  has_col df c = false
  /\ Core.calculate_with stats self df rate_col credit_col unemp_col gdp_col
     = Raises (KeyError c).
Proof.
  unfold first_absent, required_columns, Core.calculate_with. cbn [find].
  destruct (has_col df rate_col) eqn:E1; cbn [negb].
  2:{ intros H. injection H as <-. rewrite (getitem_absent _ _ E1). auto. }
  destruct (getitem_present _ _ E1) as [v1 ->]. cbn [bind].
  destruct (has_col df credit_col) eqn:E2; cbn [negb].
  2:{ intros H. injection H as <-. rewrite (getitem_absent _ _ E2). auto. }
  destruct (getitem_present _ _ E2) as [v2 ->]. cbn [bind].
  destruct (has_col df unemp_col) eqn:E3; cbn [negb].
  2:{ intros H. injection H as <-. rewrite (getitem_absent _ _ E3). auto. }
  destruct (getitem_present _ _ E3) as [v3 ->]. cbn [bind].
  destruct (has_col df gdp_col) eqn:E4; cbn [negb].
  2:{ intros H. injection H as <-. rewrite (getitem_absent _ _ E4). auto. }
  discriminate.
Qed.

(** A macro table without the GDP growth column. *)
Definition macro_without_gdp : DataFrame :=
  mkDataFrame 2
    [("cash_rate"%string, [4.5; 4.0]);
     ("credit_growth_housing"%string, [8.0; 6.0]);
     ("unemployment_rate"%string, [4.0; 5.0])].

(** C3 (counterexample).  On a table without gdp_growth the failure is
    the lookup failure of pandas, [KeyError], not [MissingFieldError]. *)
Lemma C3_missing_gdp_raises_keyerror :
  Core.calculate Core.default_cai macro_without_gdp
    "cash_rate" "credit_growth_housing" "unemployment_rate" "gdp_growth"
    = Raises (KeyError "gdp_growth")
  /\ Core.calculate Core.default_cai macro_without_gdp
       "cash_rate" "credit_growth_housing" "unemployment_rate" "gdp_growth"
     <> Raises MissingFieldError.
Proof.
  assert (H : Core.calculate Core.default_cai macro_without_gdp
                "cash_rate" "credit_growth_housing" "unemployment_rate" "gdp_growth"
              = Raises (KeyError "gdp_growth")) by reflexivity.
  split; [exact H | rewrite H; discriminate].
Qed.

(** C3 (amended).  When the table lacks one of the four columns that the
    call names, [CreditAvailabilityIndex.calculate] returns no value and
    defaults nothing: it raises the [KeyError] of the first of these
    columns, in the order rate, credit, unemployment, GDP, that is
    absent (whatever pandas computes for the statistics of the columns
    that are present). *)
Theorem C3_missing_column_raises (stats : Core.SeriesStats)
    (self : Core.CreditAvailabilityIndex)
    (df : DataFrame) (rate_col credit_col unemp_col gdp_col c : string) :
  first_absent df (required_columns rate_col credit_col unemp_col gdp_col) = Some c ->
  has_col df c = false
  /\ Core.calculate_with stats self df rate_col credit_col unemp_col gdp_col
     = Raises (KeyError c).
Proof. apply cai_first_absent. Qed.

(** A table that lacks two of the columns: the error names the credit
    column, which is read before the GDP column. *)
Definition macro_without_credit_and_gdp : DataFrame :=
  mkDataFrame 2
    [("cash_rate"%string, [4.5; 4.0]);
     ("unemployment_rate"%string, [4.0; 5.0])].

Lemma C3_missing_column_raises_witness :
  has_col macro_without_credit_and_gdp "credit_growth_housing" = false
  /\ Core.calculate_with Core.exact_stats Core.default_cai
       macro_without_credit_and_gdp
       "cash_rate" "credit_growth_housing" "unemployment_rate" "gdp_growth"
     = Raises (KeyError "credit_growth_housing").
Proof.
  apply (C3_missing_column_raises Core.exact_stats Core.default_cai
           macro_without_credit_and_gdp
           "cash_rate" "credit_growth_housing" "unemployment_rate" "gdp_growth"
           "credit_growth_housing").
  reflexivity.
Defined.

(** *** A column without variance *)

Definition is_constant (xs : list R) : Prop :=
  exists c, forall x, In x xs -> x = c.

Definition all_nan (zs : list xreal) : Prop := Forall (eq NaN) zs.

Lemma series_sum_constant xs c :
  (forall x, In x xs -> x = c) -> Core.series_sum xs = INR (List.length xs) * c.
Proof.
  induction xs as [| x xs IH]; intros H.
  - simpl. ring.
  - change (Core.series_sum (x :: xs)) with (x + Core.series_sum xs).
    rewrite IH by (intros y Hy; apply H; right; exact Hy).
    rewrite (H x) by (left; reflexivity).
    cbn [List.length]. rewrite S_INR. ring.
Qed.

Lemma series_sum_zero xs :
  (forall x, In x xs -> x = 0) -> Core.series_sum xs = 0.
Proof.
  intros H. rewrite (series_sum_constant xs 0 H). ring.
Qed.

(** The z-score of a column has no value: the standard deviation that
    pandas returns is missing (fewer than two periods), or it is zero and
    every cell equals the mean that pandas returns, so that each z-score
    is 0/0. *)
Definition zscore_undefined (stats : Core.SeriesStats) (xs : list R) : Prop :=
  Core.stat_std stats xs = NaN
  \/ (Core.stat_std stats xs = Fin 0
      /\ forall x, In x xs -> Core.stat_mean stats xs = Fin x).

Lemma zscore_with_undefined stats xs :
  zscore_undefined stats xs -> Core.zscore_with stats xs = map (fun _ => NaN) xs.
Proof.
  intros H. unfold Core.zscore_with. apply map_ext_in. intros x Hx.
  destruct H as [Hstd | [Hstd Hmean]].
  - rewrite Hstd. apply XReal.div_NaN_r.
  - rewrite Hstd, (Hmean x Hx). unfold XReal.sub; simpl.
    replace (x + - x) with 0 by ring. apply XReal.div_zero_zero.
Qed.

(** In exact arithmetic every constant column is such a column. *)
Lemma exact_stats_constant xs : is_constant xs -> zscore_undefined Core.exact_stats xs.
Proof.
  intros [c Hc]. unfold zscore_undefined. simpl.
  destruct xs as [| x1 [| x2 xs']]; [left; reflexivity | left; reflexivity |].
  right. set (xs := x1 :: x2 :: xs') in *.
  assert (Hlen : INR (List.length xs) <> 0).
  { apply not_0_INR. simpl. discriminate. }
  assert (Hm : Core.series_sum xs / INR (List.length xs) = c).
  { rewrite (series_sum_constant xs c Hc). field. exact Hlen. }
  split.
  - unfold Core.series_std, xs. fold xs. cbv zeta. rewrite Hm.
    rewrite series_sum_zero.
    + unfold Rdiv. rewrite Rmult_0_l, sqrt_0. reflexivity.
    + intros y Hy. apply in_map_iff in Hy. destruct Hy as [z [<- Hz]].
      rewrite (Hc z Hz). ring.
  - intros x Hx. unfold Core.series_mean, xs. fold xs. rewrite Hm, (Hc x Hx).
    reflexivity.
Qed.

Lemma all_nan_repeat {A : Type} (xs : list A) : all_nan (map (fun _ => NaN) xs).
Proof. apply Forall_map, Forall_forall. reflexivity. Qed.

Lemma all_nan_scale w zs : all_nan zs -> all_nan (Core.scale w zs).
Proof.
  unfold all_nan, Core.scale. rewrite Forall_map. apply Forall_impl.
  intros z <-. reflexivity.
Qed.

Lemma all_nan_map2_add_l zs1 zs2 : all_nan zs1 -> all_nan (map2 XReal.add zs1 zs2).
Proof.
  unfold all_nan. intros H. revert zs2.
  induction H as [| z zs1 Hz H IH]; intros [| z2 zs2]; simpl; constructor.
  - rewrite <- Hz. reflexivity.
  - apply IH.
Qed.

Lemma all_nan_map2_add_r zs1 zs2 : all_nan zs2 -> all_nan (map2 XReal.add zs1 zs2).
Proof.
  unfold all_nan. intros H. revert zs1.
  induction H as [| z zs2 Hz H IH]; intros [| z1 zs1]; simpl; constructor.
  - rewrite <- Hz. symmetry. apply XReal.add_NaN_r.
  - apply IH.
Qed.

Lemma length_map2 {A B C : Type} (f : A -> B -> C) xs ys :
  List.length (map2 f xs ys) = Nat.min (List.length xs) (List.length ys).
Proof.
  revert ys. induction xs as [| x xs IH]; intros [| y ys]; simpl; auto.
Qed.

Lemma length_zscore_with stats xs :
  List.length (Core.zscore_with stats xs) = List.length xs.
Proof. apply length_map. Qed.

(** The weights mapping answers at the four keys read by [calculate]. *)
Definition has_weights (self : Core.CreditAvailabilityIndex) : Prop :=
  forall k, In k ["rate"; "credit_growth"; "unemployment"; "gdp_growth"]%string ->
            lookup k (Core.weights self) <> None.

Lemma weight_returns self k :
  lookup k (Core.weights self) <> None -> exists w, Core.weight self k = Returns w.
Proof.
  unfold Core.weight. destruct (lookup k (Core.weights self)) as [w |].
  - exists w. reflexivity.
  - intros H. contradiction.
Qed.

Lemma cai_undefined_zscore (stats : Core.SeriesStats)
    (self : Core.CreditAvailabilityIndex) (df : DataFrame)
    (rate_col credit_col unemp_col gdp_col : string) (rate credit unemp gdp : list R) :
  well_formed df ->
  has_weights self ->
  lookup rate_col (columns df) = Some rate ->
  lookup credit_col (columns df) = Some credit ->
  lookup unemp_col (columns df) = Some unemp ->
  lookup gdp_col (columns df) = Some gdp ->
  zscore_undefined stats rate \/ zscore_undefined stats credit
  \/ zscore_undefined stats unemp \/ zscore_undefined stats gdp ->
  exists cai,
    Core.calculate_with stats self df rate_col credit_col unemp_col gdp_col
      = Returns cai
    /\ List.length cai = nrows df
    /\ all_nan cai.
Proof.
  intros Hwf Hw Hrate Hcredit Hunemp Hgdp Hconst.
  unfold Core.calculate_with, getitem.
  rewrite Hrate, Hcredit, Hunemp, Hgdp. cbn [bind].
  destruct (weight_returns self "rate") as [w1 ->]; [apply Hw; simpl; auto |].
  destruct (weight_returns self "credit_growth") as [w2 ->]; [apply Hw; simpl; auto |].
  destruct (weight_returns self "unemployment") as [w3 ->]; [apply Hw; simpl; auto |].
  destruct (weight_returns self "gdp_growth") as [w4 ->]; [apply Hw; simpl; auto 6 |].
  cbn [bind]. eexists. split; [reflexivity |]. split.
  - rewrite !length_map, !length_map2. unfold Core.scale.
    rewrite !length_map, !length_zscore_with.
    rewrite (Hwf _ _ Hrate), (Hwf _ _ Hcredit), (Hwf _ _ Hunemp), (Hwf _ _ Hgdp).
    rewrite !Nat.min_id. reflexivity.
  - unfold all_nan. rewrite !Forall_map.
    assert (Hraw : all_nan
              (map2 XReal.add
                 (map2 XReal.add
                    (map2 XReal.add (Core.scale w1 (Core.zscore_with stats rate))
                                    (Core.scale w2 (Core.zscore_with stats credit)))
                    (Core.scale w3 (Core.zscore_with stats unemp)))
                 (Core.scale w4 (Core.zscore_with stats gdp)))).
    { destruct Hconst as [H | [H | [H | H]]];
        apply zscore_with_undefined in H.
      - do 3 apply all_nan_map2_add_l. apply all_nan_scale.
        rewrite H. apply all_nan_repeat.
      - do 2 apply all_nan_map2_add_l. apply all_nan_map2_add_r, all_nan_scale.
        rewrite H. apply all_nan_repeat.
      - apply all_nan_map2_add_l, all_nan_map2_add_r, all_nan_scale.
        rewrite H. apply all_nan_repeat.
      - apply all_nan_map2_add_r, all_nan_scale.
        rewrite H. apply all_nan_repeat. }
    revert Hraw. apply Forall_impl. intros z <-. reflexivity.
Qed.

Lemma cai_constant_column (self : Core.CreditAvailabilityIndex) (df : DataFrame)
    (rate_col credit_col unemp_col gdp_col : string) (rate credit unemp gdp : list R) :
  well_formed df ->
  has_weights self ->
  lookup rate_col (columns df) = Some rate ->
  lookup credit_col (columns df) = Some credit ->
  lookup unemp_col (columns df) = Some unemp ->
  lookup gdp_col (columns df) = Some gdp ->
  is_constant rate \/ is_constant credit \/ is_constant unemp \/ is_constant gdp ->
  exists cai,
    Core.calculate self df rate_col credit_col unemp_col gdp_col = Returns cai
    /\ List.length cai = nrows df
    /\ all_nan cai.
Proof.
  intros Hwf Hw Hrate Hcredit Hunemp Hgdp Hconst.
  apply (cai_undefined_zscore Core.exact_stats self df _ _ _ _ rate credit unemp gdp);
    try assumption.
  destruct Hconst as [H | [H | [H | H]]]; apply exact_stats_constant in H; auto.
Qed.

(** Two months in which the policy rate does not move. *)
Definition macro_flat_rate : DataFrame :=
  mkDataFrame 2
    [("cash_rate"%string, [4.5; 4.5]);
     ("credit_growth_housing"%string, [8.0; 6.0]);
     ("unemployment_rate"%string, [4.0; 5.0]);
     ("gdp_growth"%string, [2.0; 3.0])].

Lemma macro_flat_rate_well_formed : well_formed macro_flat_rate.
Proof.
  intros c v. unfold macro_flat_rate; simpl.
  repeat (destruct (String.eqb c _);
          [intros H; injection H as <-; reflexivity |]).
  discriminate.
Qed.

Lemma default_cai_has_weights : has_weights Core.default_cai.
Proof.
  intros k [<- | [<- | [<- | [<- | []]]]]; simpl; discriminate.
Qed.

(** C6 (counterexample).  With a policy rate that is constant over the
    two months, the index is NaN at both of them. *)
Lemma C6_flat_rate_gives_nan :
  Core.calculate Core.default_cai macro_flat_rate
    "cash_rate" "credit_growth_housing" "unemployment_rate" "gdp_growth"
    = Returns [NaN; NaN].
Proof.
  destruct (cai_constant_column Core.default_cai macro_flat_rate
              "cash_rate" "credit_growth_housing" "unemployment_rate" "gdp_growth"
              [4.5; 4.5] [8.0; 6.0] [4.0; 5.0] [2.0; 3.0]
              macro_flat_rate_well_formed default_cai_has_weights
              eq_refl eq_refl eq_refl eq_refl)
    as [cai [Hcalc [Hlen Hnan]]].
  - left. exists 4.5. intros x [<- | [<- | []]]; reflexivity.
  - rewrite Hcalc. f_equal.
    destruct cai as [| z1 [| z2 [| z3 cai]]]; try discriminate.
    inversion Hnan as [| ? ? <- Hnan']. inversion Hnan' as [| ? ? <- _].
    reflexivity.
Qed.

(** In binary64 a constant column need not have zero deviations: the
    mean of [0.1, 0.1, 0.1], the cells added in order and the sum divided
    by 3, is not the double 0.1. *)
Example constant_column_mean_rounds :
  Binary64.mean3 (Binary64.literal 1 10) (Binary64.literal 1 10)
                 (Binary64.literal 1 10)
  <> Binary64.literal 1 10.
Proof. vm_compute. discriminate. Qed.

(** C6 (amended).  On a well-formed table that has the four columns, if
    for one of them the z-score has no value, because the standard
    deviation that pandas returns is zero with every cell equal to the
    mean that pandas returns (as for the column [4.5, 4.5]), or is missing
    (a single period), then [CreditAvailabilityIndex.calculate] returns
    one value per period and every value is NaN: the z-score 0/0 is not
    replaced and goes through the weighting, the scaling and the clip.
    The condition is on the statistics as pandas computes them, not on
    the column being constant. *)
Theorem C6_zero_deviation_nan (stats : Core.SeriesStats)
    (self : Core.CreditAvailabilityIndex)
    (df : DataFrame) (rate_col credit_col unemp_col gdp_col : string)
    (rate credit unemp gdp : list R) :
  well_formed df ->
  has_weights self ->
  lookup rate_col (columns df) = Some rate ->
  lookup credit_col (columns df) = Some credit ->
  lookup unemp_col (columns df) = Some unemp ->
  lookup gdp_col (columns df) = Some gdp ->
  zscore_undefined stats rate \/ zscore_undefined stats credit
  \/ zscore_undefined stats unemp \/ zscore_undefined stats gdp ->
  exists cai,
    Core.calculate_with stats self df rate_col credit_col unemp_col gdp_col
      = Returns cai
    /\ List.length cai = nrows df
    /\ Forall (fun z => z = NaN /\ ~ XReal.is_finite z) cai.
Proof.
  intros Hwf Hw H1 H2 H3 H4 Hc.
  destruct (cai_undefined_zscore stats self df _ _ _ _ _ _ _ _ Hwf Hw H1 H2 H3 H4 Hc)
    as [cai [Hcalc [Hlen Hnan]]].
  exists cai. split; [exact Hcalc |]. split; [exact Hlen |].
  revert Hnan. apply Forall_impl. intros z <-. split; [reflexivity |].
  simpl. tauto.
Qed.

Lemma C6_zero_deviation_nan_witness :
  exists cai,
    Core.calculate_with Core.exact_stats Core.default_cai macro_flat_rate
      "cash_rate" "credit_growth_housing" "unemployment_rate" "gdp_growth"
      = Returns cai
    /\ List.length cai = 2%nat
    /\ Forall (fun z => z = NaN /\ ~ XReal.is_finite z) cai.
Proof.
  apply (C6_zero_deviation_nan Core.exact_stats Core.default_cai macro_flat_rate
           "cash_rate" "credit_growth_housing" "unemployment_rate" "gdp_growth"
           [4.5; 4.5] [8.0; 6.0] [4.0; 5.0] [2.0; 3.0]).
  - exact macro_flat_rate_well_formed.
  - exact default_cai_has_weights.
  - reflexivity.
  - reflexivity.
  - reflexivity.
  - reflexivity.
  - left. apply exact_stats_constant. exists 4.5.
    intros x [<- | [<- | []]]; reflexivity.
Defined.

(** ** Risk-weighted assets *)

(** The formula as the specification (and the comment in the source)
    words it. *)
Definition irb_capital_spec (pd lgd correlation : R) : R :=
  lgd * Normal.cdf (sqrt (1 / (1 - correlation)) * Normal.ppf pd
                    + sqrt (correlation / (1 - correlation)) * Normal.ppf 0.999)
  - pd * lgd.

Definition maturity_adj_spec (pd : R) : R :=
  1 / (1 - 1.5 * (0.11852 - 0.05478 * ln pd) ^ 2).

Definition rwa_spec (ead pd lgd correlation : R) : R :=
  let pd := Core.np_clip pd 0.0001 0.9999 in
  ead * irb_capital_spec pd lgd correlation * maturity_adj_spec pd * 12.5.

(** The capital requirement that the source computes: the two square
    roots are [sqrt (1 - R)] and [sqrt R]. *)
Definition irb_capital_code (pd lgd correlation : R) : R :=
  lgd * Normal.cdf (sqrt (1 - correlation) * Normal.ppf pd
                    + sqrt correlation * Normal.ppf 0.999)
  - pd * lgd.

Lemma calculate_rwa_simple_unfold (ead pd lgd correlation : R) :
  Core.calculate_rwa_simple ead pd lgd correlation
    = ead * (irb_capital_code (Core.np_clip pd 0.0001 0.9999) lgd correlation
             * maturity_adj_spec (Core.np_clip pd 0.0001 0.9999)) * 12.5.
Proof.
  unfold Core.calculate_rwa_simple, irb_capital_code, maturity_adj_spec.
  cbv zeta. replace (2.5 - 2.5) with 0 by lra.
  rewrite Rmult_0_l, Rplus_0_r. reflexivity.
Qed.

Lemma np_clip_inside a lo hi : lo <= a <= hi -> Core.np_clip a lo hi = a.
Proof.
  intros [H1 H2]. unfold Core.np_clip.
  rewrite Rmax_left by exact H1. apply Rmin_left, H2.
Qed.

Lemma np_clip_below a lo hi : a <= lo -> lo <= hi -> Core.np_clip a lo hi = lo.
Proof.
  intros H1 H2. unfold Core.np_clip.
  rewrite Rmax_right by exact H1. apply Rmin_left, H2.
Qed.

(** Bounds on the logarithm. *)
Lemma ln_lower_bound (p x : R) : 0 < p -> exp x <= p -> x <= ln p.
Proof.
  intros Hp Hx. apply Rnot_lt_le. intros Hlt.
  apply exp_increasing in Hlt. rewrite exp_ln in Hlt by exact Hp. lra.
Qed.

Lemma ln_nonpos (p : R) : 0 < p <= 1 -> ln p <= 0.
Proof.
  intros [Hp [Hlt | ->]].
  - left. rewrite <- ln_1. apply ln_increasing; assumption.
  - rewrite ln_1. lra.
Qed.

Lemma exp_1_ge_2 : 2 <= exp 1.
Proof. pose proof (exp_ineq1_le 1). lra. Qed.

Lemma exp_12_ge : 10000 <= exp 12.
Proof.
  assert (Hh : 3 / 2 <= exp (/ 2)) by (pose proof (exp_ineq1_le (/ 2)); lra).
  assert (H1 : 9 / 4 <= exp 1).
  { replace 1 with (/ 2 + / 2) by lra. rewrite exp_plus. nra. }
  assert (H2 : 5 <= exp 2).
  { replace 2 with (1 + 1) by lra. rewrite exp_plus. nra. }
  assert (H4 : 25 <= exp 4).
  { replace 4 with (2 + 2) by lra. rewrite exp_plus. nra. }
  assert (H8 : 625 <= exp 8).
  { replace 8 with (4 + 4) by lra. rewrite exp_plus. nra. }
  replace 12 with (8 + 4) by lra. rewrite exp_plus. nra.
Qed.

Lemma ln_clipped_bounds (p : R) : 0.0001 <= p <= 1 -> -12 <= ln p <= 0.
Proof.
  intros [H1 H2]. split.
  - apply ln_lower_bound; [lra |].
    replace (-12) with (- (12)) by lra.
    rewrite exp_Ropp. pose proof exp_12_ge as H.
    apply Rle_trans with (/ 10000); [| lra].
    apply Rinv_le_contravar; lra.
  - apply ln_nonpos. lra.
Qed.

Lemma ln_upper_half_bounds (p : R) : / 2 <= p <= 1 -> -1 <= ln p <= 0.
Proof.
  intros [H1 H2]. split.
  - apply ln_lower_bound; [lra |].
    replace (-1) with (- (1)) by lra.
    rewrite exp_Ropp. pose proof exp_1_ge_2 as H.
    apply Rle_trans with (/ 2); [| lra].
    apply Rinv_le_contravar; lra.
  - apply ln_nonpos. lra.
Qed.

(** The maturity adjustment is well defined on the clipped range and is
    at least 1 there. *)
Lemma maturity_denominator_bounds (p : R) :
  0.0001 <= p <= 1 ->
  0 < 1 - 1.5 * (0.11852 - 0.05478 * ln p) ^ 2 <= 1.
Proof.
  intros Hp. pose proof (ln_clipped_bounds p Hp) as [Hl Hu].
  set (c := 0.11852 - 0.05478 * ln p).
  assert (Hc : 0 <= c <= 0.78) by (unfold c; lra).
  simpl. nra.
Qed.

Lemma maturity_adj_ge_1 (p : R) : 0.0001 <= p <= 1 -> 1 <= maturity_adj_spec p.
Proof.
  intros Hp. unfold maturity_adj_spec.
  pose proof (maturity_denominator_bounds p Hp) as [Hd1 Hd2].
  set (d := 1 - 1.5 * (0.11852 - 0.05478 * ln p) ^ 2) in *.
  apply Rmult_le_reg_r with d; [exact Hd1 |].
  unfold Rdiv. rewrite Rmult_assoc, Rinv_l by lra. lra.
Qed.

Lemma maturity_adj_le_2 (p : R) : / 2 <= p <= 1 -> maturity_adj_spec p <= 2.
Proof.
  intros Hp. unfold maturity_adj_spec.
  pose proof (ln_upper_half_bounds p Hp) as [Hl Hu].
  set (c := 0.11852 - 0.05478 * ln p).
  assert (Hc : 0 <= c <= 0.18) by (unfold c; lra).
  assert (Hd : / 2 <= 1 - 1.5 * c ^ 2) by (simpl; nra).
  set (d := 1 - 1.5 * c ^ 2) in *.
  apply Rmult_le_reg_r with d; [lra |].
  unfold Rdiv. rewrite Rmult_assoc, Rinv_l by lra. lra.
Qed.

Lemma ppf_999_pos : 0 < Normal.ppf 0.999.
Proof. apply Normal.ppf_pos. lra. Qed.

Lemma ppf_001 : Normal.ppf 0.001 = - Normal.ppf 0.999.
Proof.
  replace 0.001 with (1 - 0.999) by lra. apply Normal.ppf_symmetric. lra.
Qed.

Lemma ppf_05 : Normal.ppf 0.5 = 0.
Proof. replace 0.5 with (/ 2) by lra. apply Normal.ppf_half. Qed.

Lemma irb_capital_differs (lgd r : R) :
  lgd <> 0 -> 0 < r < 1 ->
  irb_capital_code 0.5 lgd r <> irb_capital_spec 0.5 lgd r.
Proof.
  intros Hlgd [Hr0 Hr1] Heq.
  unfold irb_capital_code, irb_capital_spec in Heq.
  rewrite ppf_05, !Rmult_0_r, !Rplus_0_l in Heq.
  assert (Hcdf : Normal.cdf (sqrt r * Normal.ppf 0.999)
                 = Normal.cdf (sqrt (r / (1 - r)) * Normal.ppf 0.999)).
  { apply Rmult_eq_reg_l with lgd; [lra | exact Hlgd]. }
  apply Normal.cdf_injective in Hcdf.
  apply Rmult_eq_reg_r in Hcdf; [| pose proof ppf_999_pos; lra].
  assert (Hq : 0 < r / (1 - r)).
  { apply Rdiv_lt_0_compat; lra. }
  apply sqrt_inj in Hcdf; [| lra | lra].
  assert (r * (1 - r) = r).
  { rewrite Hcdf at 1. field. lra. }
  nra.
Qed.

(** C1 (the code against the documented formula).  At PD = 0.5, for every
    correlation in (0,1) and non-zero EAD and LGD, the value returned by
    [calculate_rwa_simple] is not EAD * K * maturity_adj * 12.5 with the K
    of the specification: the source multiplies the inverse-CDF terms by
    sqrt(1-R) and sqrt(R) where the formula has sqrt(1/(1-R)) and
    sqrt(R/(1-R)). *)
Theorem C1_rwa_differs_from_documented_formula (ead lgd r : R) :
  ead <> 0 -> lgd <> 0 -> 0 < r < 1 ->
  Core.calculate_rwa_simple ead 0.5 lgd r
    = ead * (irb_capital_code 0.5 lgd r * maturity_adj_spec 0.5) * 12.5
  /\ Core.calculate_rwa_simple ead 0.5 lgd r <> rwa_spec ead 0.5 lgd r.
Proof.
  intros Head Hlgd Hr.
  assert (Hclip : Core.np_clip 0.5 0.0001 0.9999 = 0.5)
    by (apply np_clip_inside; lra).
  assert (Hcode : Core.calculate_rwa_simple ead 0.5 lgd r
                  = ead * (irb_capital_code 0.5 lgd r * maturity_adj_spec 0.5) * 12.5).
  { rewrite calculate_rwa_simple_unfold, Hclip. reflexivity. }
  split; [exact Hcode |].
  rewrite Hcode. unfold rwa_spec. cbv zeta. rewrite Hclip.
  intros Heq. apply (irb_capital_differs lgd r Hlgd Hr).
  pose proof (maturity_adj_ge_1 0.5 ltac:(lra)) as Hm.
  apply Rmult_eq_reg_l with (ead * 12.5 * maturity_adj_spec 0.5).
  - transitivity (ead * (irb_capital_code 0.5 lgd r * maturity_adj_spec 0.5) * 12.5);
      [ring | rewrite Heq; ring].
  - apply Rmult_integral_contrapositive_currified;
      [apply Rmult_integral_contrapositive_currified; [exact Head |] |];
      apply Rgt_not_eq; lra.
Qed.

Lemma C1_rwa_differs_from_documented_formula_witness :
  Core.calculate_rwa_simple 500000000 0.5 0.30 0.15
    = 500000000 * (irb_capital_code 0.5 0.30 0.15 * maturity_adj_spec 0.5) * 12.5
  /\ Core.calculate_rwa_simple 500000000 0.5 0.30 0.15
     <> rwa_spec 500000000 0.5 0.30 0.15.
Proof.
  apply (C1_rwa_differs_from_documented_formula 500000000 0.30 0.15); lra.
Defined.

(** *** Monotonicity in PD *)

Lemma rwa_at_001 :
  1 * (0.499 * 1) * 12.5 <= Core.calculate_rwa_simple 1 0.001 1 0.5.
Proof.
  rewrite calculate_rwa_simple_unfold.
  rewrite np_clip_inside by lra.
  unfold irb_capital_code.
  replace (1 - 0.5) with 0.5 by lra.
  rewrite ppf_001.
  replace (sqrt 0.5 * - Normal.ppf 0.999 + sqrt 0.5 * Normal.ppf 0.999)
    with 0 by ring.
  rewrite Normal.cdf_0.
  pose proof (maturity_adj_ge_1 0.001 ltac:(lra)) as Hm.
  nra.
Qed.

Lemma rwa_at_999 :
  Core.calculate_rwa_simple 1 0.999 1 0.5 <= 1 * (0.001 * 2) * 12.5.
Proof.
  rewrite calculate_rwa_simple_unfold.
  rewrite np_clip_inside by lra.
  unfold irb_capital_code.
  set (x := sqrt (1 - 0.5) * Normal.ppf 0.999 + sqrt 0.5 * Normal.ppf 0.999).
  pose proof (Normal.cdf_lt_1 x) as Hx.
  pose proof (maturity_adj_le_2 0.999 ltac:(lra)) as Hm2.
  pose proof (maturity_adj_ge_1 0.999 ltac:(lra)) as Hm1.
  assert (Hk : (1 * Normal.cdf x - 0.999 * 1) * maturity_adj_spec 0.999
               <= 0.001 * 2).
  { destruct (Rle_dec 0 (1 * Normal.cdf x - 0.999 * 1)) as [Hpos | Hneg].
    - apply Rmult_le_compat; lra.
    - assert ((1 * Normal.cdf x - 0.999 * 1) * maturity_adj_spec 0.999 <= 0)
        by nra.
      lra. }
  lra.
Qed.

(** C4 (counterexample).  With EAD = 1, LGD = 1 and correlation 0.5 the
    value at PD = 0.001 is above the value at PD = 0.999. *)
Lemma C4_rwa_not_monotone :
  0 < 0.001 /\ 0.001 < 0.999 /\ 0.999 <= 0.999
  /\ ~ (Core.calculate_rwa_simple 1 0.001 1 0.5
        <= Core.calculate_rwa_simple 1 0.999 1 0.5).
Proof.
  repeat (split; [lra |]).
  pose proof rwa_at_001. pose proof rwa_at_999. lra.
Qed.

(** C4 (amended).  With the other arguments fixed, [calculate_rwa_simple]
    is constant, hence non-decreasing, in PD over (0, 0.0001], the range
    that the clip sends to its lower bound. *)
Theorem C4_rwa_constant_below_clip (ead lgd r p1 p2 : R) :
  0 < p1 -> p1 < p2 -> p2 <= 0.0001 ->
  Core.calculate_rwa_simple ead p1 lgd r = Core.calculate_rwa_simple ead p2 lgd r
  /\ Core.calculate_rwa_simple ead p1 lgd r
     <= Core.calculate_rwa_simple ead p2 lgd r.
Proof.
  intros H0 H12 H2.
  assert (Heq : Core.calculate_rwa_simple ead p1 lgd r
                = Core.calculate_rwa_simple ead p2 lgd r).
  { rewrite !calculate_rwa_simple_unfold.
    rewrite !np_clip_below by lra. reflexivity. }
  split; [exact Heq | rewrite Heq; lra].
Qed.

Lemma C4_rwa_constant_below_clip_witness :
  Core.calculate_rwa_simple 500000000 0.00002 0.30 0.15
    = Core.calculate_rwa_simple 500000000 0.00008 0.30 0.15
  /\ Core.calculate_rwa_simple 500000000 0.00002 0.30 0.15
     <= Core.calculate_rwa_simple 500000000 0.00008 0.30 0.15.
Proof.
  apply (C4_rwa_constant_below_clip 500000000 0.30 0.15 0.00002 0.00008); lra.
Defined.

(** * Further functions of the three modules *)

Fixpoint map3 {A B C D : Type} (f : A -> B -> C -> D)
    (xs : list A) (ys : list B) (zs : list C) : list D :=
  match xs, ys, zs with
  | x :: xs', y :: ys', z :: zs' => f x y z :: map3 f xs' ys' zs'
  | _, _, _ => []
  end.

(** ** [core.py]: PDModel *)

Module PDModel.

Record PDModel : Type := { base_pd : R }.

(** [PDModel()] *)
Definition default : PDModel := {| base_pd := 0.015 |}.

(** One cell of [calculate_simple]. *)
Definition simple_cell (base_pd unemp rate gdp : R) : R :=
  let unemp_norm := (unemp - 5.0) / 2.0 in
  let rate_norm := (rate - 2.5) / 2.0 in
  let gdp_norm := (gdp - 2.0) / 2.0 in
  let beta_unemp := 0.4 in
  let beta_rate := 0.2 in
  let beta_gdp := -0.15 in
  let log_pd_adj :=
    beta_unemp * unemp_norm + beta_rate * rate_norm + beta_gdp * gdp_norm in
  let pd := base_pd * exp log_pd_adj in
  Core.np_clip pd 0.001 0.15.

(** [PDModel.calculate_simple]: the three columns are combined cell by
    cell. *)
Definition calculate_simple (self : PDModel) (df : DataFrame)
    (unemp_col rate_col gdp_col : string) : outcome (list R) :=
  unemp <- getitem df unemp_col ;;
  rate <- getitem df rate_col ;;
  gdp <- getitem df gdp_col ;;
  Returns (map3 (simple_cell (base_pd self)) unemp rate gdp).

(** [PDModel.calculate_merton] *)
Definition calculate_merton (asset_value debt_value volatility time_horizon : R)
  : R :=
  let leverage := asset_value / debt_value in
  let dd := (ln leverage - 0.5 * volatility ^ 2 * time_horizon)
            / (volatility * sqrt time_horizon) in
  Normal.cdf (- dd).

End PDModel.

(** ** [core.py]: LGDModel *)

Module LGDModel.

Record LGDModel : Type := { base_lgd : R }.

(** [LGDModel()] *)
Definition default : LGDModel := {| base_lgd := 0.45 |}.

(** [LGDModel.calculate_secured], on one loan-to-value ratio. *)
Definition calculate_secured (ltv_ratio recovery_rate : R) : R :=
  let lgd := Rmax 0 (ltv_ratio / recovery_rate - 1) in
  Core.np_clip lgd 0 1.

(** [LGDModel.calculate_downturn] on a Series (or array) of base LGDs
    and a price change that is a Python float, as in the example of the
    docstring.  The division is then the division of Python floats, which
    raises on a zero divisor; the product is a Series, which has the
    [clip] method that the last step calls (a base LGD that is itself a
    Python float has none, and is not an input of this definition). *)
Definition calculate_downturn (base_lgd : list R) (housing_price_change : R)
  : outcome (list R) :=
  if Req_dec_T (1.0 + housing_price_change / 100) 0 then Raises ZeroDivisionError
  else
    let adjustment := 1.0 / (1.0 + housing_price_change / 100) in
    let lgd_dt := map (fun b => b * adjustment) base_lgd in
    Returns (map (fun l => Core.np_clip l 0 1) lgd_dt).

Definition simple_cell (price : R) : R :=
  Core.np_clip (0.20 * (1.0 - price / 100 * 0.5)) 0.05 0.60.

(** [LGDModel.calculate_simple]: the price column is read only for
    housing collateral. *)
Definition calculate_simple (self : LGDModel) (df : DataFrame)
    (collateral_type price_col : string) : outcome (list R) :=
  if String.eqb collateral_type "housing" then
    price <- getitem df price_col ;;
    Returns (map simple_cell price)
  else
    Returns (repeat (base_lgd self) (nrows df)).

End LGDModel.

(** ** [core.py]: ECLCalculator *)

Module ECLCalculator.

(** [ECLCalculator.calculate_lifetime_ecl]: the loop over
    [range(1, maturity + 1)], which is empty when [maturity < 1]. *)
Definition calculate_lifetime_ecl (pd_lifetime lgd ead : R) (maturity : Z) : R :=
  let discount_rate := 0.05 in
  fold_left
    (fun ecl t =>
       let pd_t := pd_lifetime / IZR maturity in
       let df_t := 1 / (1 + discount_rate) ^ t in
       ecl + pd_t * lgd * ead * df_t)
    (seq 1 (Z.to_nat maturity)) 0.

(** The operand that a numpy array is in a product with a column of [n]
    cells: an array of [n] cells is taken cell by cell, an array of one
    cell is broadcast to every row, any other length is refused by
    pandas. *)
Definition broadcast (n : nat) (exposure : list R) : outcome (list R) :=
  if (List.length exposure =? n)%nat then Returns exposure
  else
    match exposure with
    | [e] => Returns (repeat e n)
    | _ => Raises ValueError
    end.

(** [ECLCalculator.calculate_portfolio_ecl] with the exposures given as
    a numpy array.  Both branches read the two columns before the
    exposures enter a product. *)
Definition calculate_portfolio_ecl (df : DataFrame) (exposure : list R)
    (stage : Z) : outcome (list R) :=
  pd <- getitem df "pd" ;;
  lgd <- getitem df "lgd" ;;
  ead <- broadcast (nrows df) exposure ;;
  if (stage =? 1)%Z then
    Returns (map3 (fun p l e => p * l * e) pd lgd ead)
  else
    Returns (map3 (fun p l e => calculate_lifetime_ecl p l e 5) pd lgd ead).

(** [ECLCalculator.stage_classification] *)
Definition stage_classification (current_pd origination_pd : R) (dpd : Z) : Z :=
  if (90 <? dpd)%Z then 3%Z
  else if Rlt_dec (2 * origination_pd) current_pd then 2%Z
  else 1%Z.

End ECLCalculator.

(** ** [portfolio.py]: risk-weighted assets and capital *)

Module PortfolioCapital.

Import Portfolio.

Definition set_rwa (v : option R) (r : Segment) : Segment :=
  mkSegment (segment r) (segment_type r) (n_loans r) (avg_exposure r)
            (total_ead r) (avg_pd r) (avg_lgd r) (correlation r)
            (ecl_12m r) (ecl_lifetime r) v.

(** The view [exposures[['segment', 'total_ead', 'rwa']]]. *)
Definition rwa_view (rows : list Segment) : list (string * R * option R) :=
  map (fun r => (segment r, total_ead r, rwa r)) rows.

Definition row_rwa (r : Segment) : R :=
  Core.calculate_rwa_simple (total_ead r) (avg_pd r) (avg_lgd r) (correlation r).

(** [Portfolio.calculate_rwa].  On the table without columns the loop
    does nothing, the empty column is stored and the selection of the
    view fails on the two columns that do not exist.  The failed call
    leaves that empty column on the object; a raised outcome carries no
    table, so the later life of such an object is not described by this
    definition. *)
Definition calculate_rwa (self : Portfolio)
  : outcome (Portfolio * list (string * R * option R)) :=
  match exposures self with
  | [] => Raises (KeyError "['segment', 'total_ead'] not in index")
  | rows =>
      let rows' := map (fun r => set_rwa (Some (row_rwa r)) r) rows in
      Returns (mkPortfolio (name self) rows', rwa_view rows')
  end.

(** ['rwa' in self.exposures.columns].  In the tables that the methods
    build by calls that return, the column exists exactly when the cell
    of some row is filled: [calculate_rwa] fills every row, [add_segment]
    appends rows with a missing cell.  (After a [calculate_rwa] that
    raised on the empty table the column exists without a filled cell;
    that state is not represented.) *)
Definition has_rwa_column (self : Portfolio) : bool :=
  existsb (fun r => match rwa r with Some _ => true | None => false end)
          (exposures self).

(** The dictionary returned by [calculate_capital]. *)
Record Capital : Type := mkCapital {
  total_rwa : R;
  cet1_required : R;
  tier1_required : R;
  total_capital_required : R
}.

(** [exposures['rwa'].sum()] *)
Definition total_rwa_of (rows : list Segment) : R := sum_cells (map rwa rows).

(** [Portfolio.calculate_capital] *)
Definition calculate_capital (self : Portfolio) (cet1_ratio tier1_ratio : R)
  : outcome (Portfolio * Capital) :=
  self <- (if has_rwa_column self then Returns self
           else r <- calculate_rwa self ;; Returns (fst r)) ;;
  let total_rwa := total_rwa_of (exposures self) in
  Returns (self,
           mkCapital total_rwa (total_rwa * cet1_ratio) (total_rwa * tier1_ratio)
                     (total_rwa * 0.125)).

End PortfolioCapital.

(** ** [scenarios.py]: comparison of scenarios *)

Module ScenarioComparison.

(** A row of the table returned by [compare_scenarios]. *)
Record Row : Type := mkRow {
  scenario_name : string;
  total_ecl : R;
  total_rwa : R;
  cet1_required : R;
  ecl_change_pct : R;
  rwa_change_pct : R
}.

(** [stressed['rwa_stressed'].sum()] *)
Definition total_rwa_stressed (rows : list Portfolio.StressedSegment) : R :=
  fold_right Rplus 0 (map Portfolio.rwa_stressed rows).

(** The body of the loop over the scenarios; a scenario is given with its
    [name] attribute. *)
Definition scenario_row (portfolio : Portfolio.Portfolio) (df_macro : DataFrame)
    (named : string * Scenarios.Scenario) : outcome Row :=
  r <- Scenarios.apply_scenario_to_portfolio portfolio (snd named) df_macro ;;
  let stressed := fst r in
  let ecl_stressed := Portfolio.total_ecl_stressed stressed in
  let rwa_stressed := total_rwa_stressed stressed in
  let capital_stressed := rwa_stressed * 0.105 in
  Returns
    (mkRow (fst named) ecl_stressed rwa_stressed capital_stressed
       ((ecl_stressed / Portfolio.total_ecl_12m (Portfolio.exposures portfolio) - 1)
        * 100)
       ((rwa_stressed / PortfolioCapital.total_rwa_of (Portfolio.exposures portfolio)
         - 1) * 100)).

Fixpoint scenario_rows (portfolio : Portfolio.Portfolio) (df_macro : DataFrame)
    (scenarios : list (string * Scenarios.Scenario)) : outcome (list Row) :=
  match scenarios with
  | [] => Returns []
  | named :: rest =>
      row <- scenario_row portfolio df_macro named ;;
      rows <- scenario_rows portfolio df_macro rest ;;
      Returns (row :: rows)
  end.

(** [compare_scenarios]: returns the portfolio, whose table now holds the
    baseline columns, and the rows of the comparison. *)
Definition compare_scenarios (portfolio : Portfolio.Portfolio)
    (scenarios : list (string * Scenarios.Scenario)) (df_macro : DataFrame)
  : outcome (Portfolio.Portfolio * list Row) :=
  r <- Portfolio.calculate_ecl portfolio ;;
  let portfolio := fst r in
  r <- PortfolioCapital.calculate_rwa portfolio ;;
  let portfolio := fst r in
  r <- PortfolioCapital.calculate_capital portfolio 0.105 0.085 ;;
  let portfolio := fst r in
  let capital_base := snd r in
  let baseline :=
    mkRow "Baseline"
          (Portfolio.total_ecl_12m (Portfolio.exposures portfolio))
          (PortfolioCapital.total_rwa_of (Portfolio.exposures portfolio))
          (PortfolioCapital.cet1_required capital_base) 0 0 in
  rows <- scenario_rows portfolio df_macro scenarios ;;
  Returns (portfolio, baseline :: rows).

End ScenarioComparison.

(** * Properties of the further functions *)

(** ** Cell-wise helpers *)

Lemma np_clip_bounds (a lo hi : R) : lo <= hi -> lo <= Core.np_clip a lo hi <= hi.
Proof.
  intros H. unfold Core.np_clip. split.
  - apply Rmin_glb; [apply Rmax_r | exact H].
  - apply Rmin_r.
Qed.

Lemma np_clip_monotone (a b lo hi : R) :
  a <= b -> Core.np_clip a lo hi <= Core.np_clip b lo hi.
Proof.
  intros H. unfold Core.np_clip.
  apply Rle_min_compat_r, Rle_max_compat_r, H.
Qed.

Lemma Forall_map3 {A B C D : Type} (P : D -> Prop) (f : A -> B -> C -> D) xs ys zs :
  (forall x y z, P (f x y z)) -> Forall P (map3 f xs ys zs).
Proof.
  intros H. revert ys zs.
  induction xs as [| x xs IH]; intros [| y ys] [| z zs]; simpl; constructor; auto.
Qed.

Lemma length_map3 {A B C D : Type} (f : A -> B -> C -> D) xs ys zs :
  List.length xs = List.length ys -> List.length ys = List.length zs ->
  List.length (map3 f xs ys zs) = List.length xs.
Proof.
  revert ys zs.
  induction xs as [| x xs IH]; intros [| y ys] [| z zs]; simpl; intros H1 H2;
    try discriminate; auto.
Qed.

Lemma Forall2_map3 {A B C D : Type} (Q : D -> D -> Prop) (f g : A -> B -> C -> D)
    xs1 xs2 ys zs (P : A -> A -> Prop) :
  (forall x1 x2 y z, P x1 x2 -> Q (f x1 y z) (g x2 y z)) ->
  Forall2 P xs1 xs2 ->
  Forall2 Q (map3 f xs1 ys zs) (map3 g xs2 ys zs).
Proof.
  intros H HP. revert ys zs.
  induction HP as [| x1 x2 xs1 xs2 Hx HP IH]; intros ys zs.
  - simpl. constructor.
  - destruct ys as [| y ys], zs as [| z zs]; simpl; constructor; auto.
Qed.

(** ** Probability of default *)

(** X1.  On a well-formed table without missing cells that has the three
    columns, [PDModel.calculate_simple] returns one PD per period, each
    within [0.001, 0.15], for every value of the cells and of the base
    PD.  (A missing cell is outside the statement: [Series.clip] leaves a
    NaN where an input is NaN.) *)
Theorem pd_simple_bounded (self : PDModel.PDModel) (df : DataFrame)
    (unemp_col rate_col gdp_col : string) :
  well_formed df ->
  has_col df unemp_col = true ->
  has_col df rate_col = true ->
  has_col df gdp_col = true ->
  exists pds,
    PDModel.calculate_simple self df unemp_col rate_col gdp_col = Returns pds
    /\ List.length pds = nrows df
    /\ Forall (fun p => 0.001 <= p <= 0.15) pds.
Proof.
  intros Hwf Hu Hr Hg. unfold PDModel.calculate_simple, getitem.
  unfold has_col in Hu, Hr, Hg.
  destruct (lookup unemp_col (columns df)) as [u |] eqn:Eu; [| discriminate].
  destruct (lookup rate_col (columns df)) as [r |] eqn:Er; [| discriminate].
  destruct (lookup gdp_col (columns df)) as [g |] eqn:Eg; [| discriminate].
  cbn [bind]. eexists. split; [reflexivity |]. split.
  - rewrite length_map3.
    + apply (Hwf _ _ Eu).
    + rewrite (Hwf _ _ Eu), (Hwf _ _ Er). reflexivity.
    + rewrite (Hwf _ _ Er), (Hwf _ _ Eg). reflexivity.
  - apply Forall_map3. intros x y z. unfold PDModel.simple_cell. cbv zeta.
    apply np_clip_bounds. lra.
Qed.

Definition macro_three_months : DataFrame :=
  mkDataFrame 3
    [("cash_rate"%string, [4.5; 4.0; 3.5]);
     ("unemployment_rate"%string, [4.0; 5.0; 9.0]);
     ("gdp_growth"%string, [2.0; 1.0; -3.0]);
     ("housing_price_growth"%string, [5.0; 0.0; -30.0])].

Lemma macro_three_months_well_formed : well_formed macro_three_months.
Proof.
  intros c v. unfold macro_three_months; simpl.
  repeat (destruct (String.eqb c _);
          [intros H; injection H as <-; reflexivity |]).
  discriminate.
Qed.

Lemma pd_simple_bounded_witness :
  exists pds,
    PDModel.calculate_simple PDModel.default macro_three_months
      "unemployment_rate" "cash_rate" "gdp_growth" = Returns pds
    /\ List.length pds = 3%nat
    /\ Forall (fun p => 0.001 <= p <= 0.15) pds.
Proof.
  apply (pd_simple_bounded PDModel.default macro_three_months).
  - exact macro_three_months_well_formed.
  - reflexivity.
  - reflexivity.
  - reflexivity.
Defined.

Lemma pd_simple_cell_monotone (base u1 u2 r g : R) :
  0 <= base -> u1 <= u2 ->
  PDModel.simple_cell base u1 r g <= PDModel.simple_cell base u2 r g.
Proof.
  intros Hb Hu. unfold PDModel.simple_cell. cbv zeta.
  apply np_clip_monotone, Rmult_le_compat_l; [exact Hb |].
  destruct Hu as [Hlt | ->]; [| lra].
  left. apply exp_increasing. lra.
Qed.

(** X2.  With a non-negative base PD, raising the unemployment column
    (cell by cell, the other two columns unchanged) never lowers a PD of
    [calculate_simple]. *)
Theorem pd_simple_monotone_in_unemployment (self : PDModel.PDModel)
    (df1 df2 : DataFrame) (unemp_col rate_col gdp_col : string)
    (u1 u2 r g : list R) :
  0 <= PDModel.base_pd self ->
  lookup unemp_col (columns df1) = Some u1 ->
  lookup unemp_col (columns df2) = Some u2 ->
  lookup rate_col (columns df1) = Some r ->
  lookup rate_col (columns df2) = Some r ->
  lookup gdp_col (columns df1) = Some g ->
  lookup gdp_col (columns df2) = Some g ->
  Forall2 Rle u1 u2 ->
  exists pds1 pds2,
    PDModel.calculate_simple self df1 unemp_col rate_col gdp_col = Returns pds1
    /\ PDModel.calculate_simple self df2 unemp_col rate_col gdp_col = Returns pds2
    /\ Forall2 Rle pds1 pds2.
Proof.
  intros Hb Hu1 Hu2 Hr1 Hr2 Hg1 Hg2 Hle.
  unfold PDModel.calculate_simple, getitem.
  rewrite Hu1, Hu2, Hr1, Hr2, Hg1, Hg2. cbn [bind].
  eexists _, _. split; [reflexivity |]. split; [reflexivity |].
  apply (Forall2_map3 Rle _ _ u1 u2 r g Rle); [| exact Hle].
  intros x1 x2 y z Hx. apply pd_simple_cell_monotone; assumption.
Qed.

Lemma pd_simple_monotone_in_unemployment_witness :
  exists pds1 pds2,
    PDModel.calculate_simple PDModel.default macro_three_months
      "unemployment_rate" "cash_rate" "gdp_growth" = Returns pds1
    /\ PDModel.calculate_simple PDModel.default
         (setitem macro_three_months "unemployment_rate" [4.5; 5.0; 11.0])
         "unemployment_rate" "cash_rate" "gdp_growth" = Returns pds2
    /\ Forall2 Rle pds1 pds2.
Proof.
  apply (pd_simple_monotone_in_unemployment PDModel.default macro_three_months
           (setitem macro_three_months "unemployment_rate" [4.5; 5.0; 11.0])
           "unemployment_rate" "cash_rate" "gdp_growth"
           [4.0; 5.0; 9.0] [4.5; 5.0; 11.0] [4.5; 4.0; 3.5] [2.0; 1.0; -3.0]);
    try reflexivity.
  - simpl. lra.
  - repeat constructor; lra.
Defined.

Lemma merton_distance_increasing (v1 v2 d sigma t : R) :
  0 < v1 -> v1 < v2 -> 0 < d -> 0 < sigma -> 0 < t ->
  (ln (v1 / d) - 0.5 * sigma ^ 2 * t) / (sigma * sqrt t)
  < (ln (v2 / d) - 0.5 * sigma ^ 2 * t) / (sigma * sqrt t).
Proof.
  intros Hv1 Hv Hd Hs Ht.
  assert (Hden : 0 < sigma * sqrt t).
  { apply Rmult_lt_0_compat; [exact Hs | apply sqrt_lt_R0, Ht]. }
  assert (Hln : ln (v1 / d) < ln (v2 / d)).
  { apply ln_increasing.
    - apply Rdiv_lt_0_compat; assumption.
    - unfold Rdiv. apply Rmult_lt_compat_r; [apply Rinv_0_lt_compat, Hd | exact Hv]. }
  unfold Rdiv. apply Rmult_lt_compat_r; [apply Rinv_0_lt_compat, Hden | lra].
Qed.

(** X3.  For positive asset values, debt, volatility and horizon the
    Merton PD lies in [0,1] and does not rise when the asset value
    rises.  (The orders are the weak ones: in binary64 the PD of a far
    solvent firm underflows to 0.) *)
Theorem merton_decreasing_in_assets (v1 v2 d sigma t : R) :
  0 < v1 -> v1 <= v2 -> 0 < d -> 0 < sigma -> 0 < t ->
  0 <= PDModel.calculate_merton v2 d sigma t
  /\ PDModel.calculate_merton v2 d sigma t <= PDModel.calculate_merton v1 d sigma t
  /\ PDModel.calculate_merton v1 d sigma t <= 1.
Proof.
  intros Hv1 Hv Hd Hs Ht. unfold PDModel.calculate_merton. cbv zeta.
  split; [left; apply Normal.cdf_pos |]. split; [| left; apply Normal.cdf_lt_1].
  destruct Hv as [Hlt | <-]; [| lra].
  left. apply Normal.cdf_increasing, Ropp_lt_contravar.
  apply merton_distance_increasing; assumption.
Qed.

Lemma merton_decreasing_in_assets_witness :
  0 <= PDModel.calculate_merton 150 100 0.3 1
  /\ PDModel.calculate_merton 150 100 0.3 1 <= PDModel.calculate_merton 120 100 0.3 1
  /\ PDModel.calculate_merton 120 100 0.3 1 <= 1.
Proof.
  apply (merton_decreasing_in_assets 120 150 100 0.3 1); lra.
Defined.

(** X4.  A firm whose assets do not exceed its debt has a Merton PD above
    one half. *)
Theorem merton_insolvent_above_half (v d sigma t : R) :
  0 < v -> v <= d -> 0 < sigma -> 0 < t ->
  / 2 < PDModel.calculate_merton v d sigma t.
Proof.
  intros Hv Hvd Hs Ht. unfold PDModel.calculate_merton. cbv zeta.
  rewrite <- Normal.cdf_0. apply Normal.cdf_increasing.
  assert (Hden : 0 < sigma * sqrt t).
  { apply Rmult_lt_0_compat; [exact Hs | apply sqrt_lt_R0, Ht]. }
  assert (Hln : ln (v / d) <= 0).
  { apply ln_nonpos. split.
    - apply Rdiv_lt_0_compat; lra.
    - apply Rmult_le_reg_r with d; [lra |].
      unfold Rdiv. rewrite Rmult_assoc, Rinv_l by lra. lra. }
  assert (Hnum : ln (v / d) - 0.5 * sigma ^ 2 * t < 0).
  { assert (0 < sigma ^ 2 * t).
    { apply Rmult_lt_0_compat; [| exact Ht]. simpl. nra. }
    lra. }
  assert (Hdd : (ln (v / d) - 0.5 * sigma ^ 2 * t) / (sigma * sqrt t) < 0).
  { unfold Rdiv. rewrite <- (Rmult_0_l (/ (sigma * sqrt t))).
    apply Rmult_lt_compat_r; [apply Rinv_0_lt_compat, Hden | exact Hnum]. }
  lra.
Qed.

Lemma merton_insolvent_above_half_witness :
  / 2 < PDModel.calculate_merton 90 100 0.3 1.
Proof. apply (merton_insolvent_above_half 90 100 0.3 1); lra. Defined.

(** ** Loss given default *)

(** X5.  For a positive recovery rate the secured LGD lies in [0,1], is
    zero exactly when the loan-to-value ratio does not exceed the
    recovery rate, and is LTV / recovery - 1 up to twice the recovery
    rate. *)
Theorem lgd_secured_shape (ltv recovery_rate : R) :
  0 < recovery_rate ->
  0 <= LGDModel.calculate_secured ltv recovery_rate <= 1
  /\ (LGDModel.calculate_secured ltv recovery_rate = 0 <-> ltv <= recovery_rate)
  /\ (recovery_rate <= ltv <= 2 * recovery_rate ->
      LGDModel.calculate_secured ltv recovery_rate = ltv / recovery_rate - 1).
Proof.
  intros Hr. unfold LGDModel.calculate_secured. cbv zeta.
  set (q := ltv / recovery_rate).
  assert (Hq : ltv = q * recovery_rate).
  { unfold q, Rdiv. rewrite Rmult_assoc, Rinv_l by lra. ring. }
  split; [apply np_clip_bounds; lra |]. split.
  - unfold Core.np_clip, Rmin, Rmax. split.
    + intros H. assert (q <= 1) by (repeat (destruct (Rle_dec _ _)); lra). nra.
    + intros Hle. assert (q <= 1) by nra.
      repeat (destruct (Rle_dec _ _)); lra.
  - intros [H1 H2]. assert (1 <= q <= 2) by nra.
    unfold Core.np_clip, Rmin, Rmax. repeat (destruct (Rle_dec _ _)); lra.
Qed.

Lemma lgd_secured_shape_witness :
  0 <= LGDModel.calculate_secured 0.9 0.8 <= 1
  /\ (LGDModel.calculate_secured 0.9 0.8 = 0 <-> 0.9 <= 0.8)
  /\ (0.8 <= 0.9 <= 2 * 0.8 -> LGDModel.calculate_secured 0.9 0.8 = 0.9 / 0.8 - 1).
Proof. apply (lgd_secured_shape 0.9 0.8). lra. Defined.

(** X6.  [calculate_downturn] on a Series of base LGDs in [0,1] and a
    price change given as a Python float.  For a change above -100
    percent it returns one downturn LGD per base LGD, each in [0,1]; when
    prices fall each is at least its base LGD, when they rise each is at
    most its base LGD.  At -100 percent the call raises
    [ZeroDivisionError]. *)
Theorem lgd_downturn_direction (base_lgd : list R) (change : R) :
  (Forall (fun b => 0 <= b <= 1) base_lgd -> -100 < change ->
   exists lgd_dt,
     LGDModel.calculate_downturn base_lgd change = Returns lgd_dt
     /\ Forall2 (fun b l => 0 <= l <= 1
                            /\ (change <= 0 -> b <= l)
                            /\ (0 <= change -> l <= b)) base_lgd lgd_dt)
  /\ (change = -100 ->
      LGDModel.calculate_downturn base_lgd change = Raises ZeroDivisionError).
Proof.
  unfold LGDModel.calculate_downturn. split.
  - intros Hb Hc. set (den := 1.0 + change / 100).
    assert (Hden : 0 < den) by (unfold den; lra).
    destruct (Req_dec_T den 0) as [H0 | _]; [lra |]. cbv zeta.
    eexists. split; [reflexivity |]. rewrite map_map.
    assert (Hinv : 0 < 1.0 / den) by (apply Rdiv_lt_0_compat; lra).
    induction Hb as [| b bs [Hb0 Hb1] _ IH]; simpl; constructor; [| exact IH].
    split; [apply np_clip_bounds; lra |]. split.
    + intros Hneg.
      assert (1 <= 1.0 / den).
      { apply Rmult_le_reg_r with den; [exact Hden |].
        unfold Rdiv. rewrite Rmult_assoc, Rinv_l by lra. unfold den. lra. }
      unfold Core.np_clip. apply Rmin_glb; [| lra].
      apply Rle_trans with (b * (1.0 / den)); [nra | apply Rmax_l].
    + intros Hpos.
      assert (1.0 / den <= 1).
      { apply Rmult_le_reg_r with den; [exact Hden |].
        unfold Rdiv. rewrite Rmult_assoc, Rinv_l by lra. unfold den. lra. }
      unfold Core.np_clip.
      apply Rle_trans with (Rmax (b * (1.0 / den)) 0); [apply Rmin_l |].
      apply Rmax_lub; nra.
  - intros ->. destruct (Req_dec_T (1.0 + -100 / 100) 0) as [_ | H0];
      [reflexivity | exfalso; apply H0; lra].
Qed.

Lemma lgd_downturn_direction_witness :
  exists lgd_dt,
    LGDModel.calculate_downturn [0.45; 0.20] (-20) = Returns lgd_dt
    /\ Forall2 (fun b l => 0 <= l <= 1
                           /\ (-20 <= 0 -> b <= l)
                           /\ (0 <= -20 -> l <= b)) [0.45; 0.20] lgd_dt.
Proof.
  apply (proj1 (lgd_downturn_direction [0.45; 0.20] (-20))).
  - repeat constructor; lra.
  - lra.
Defined.

(** X7.  [LGDModel.calculate_simple] for housing collateral: without the
    price column it raises [KeyError]; with a price column without
    missing cells it returns one LGD per cell, each within [0.05, 0.60],
    and a higher price growth never gives a higher LGD.  (A missing
    price cell is outside the statement: [Series.clip] leaves a NaN
    there.) *)
Theorem lgd_simple_housing (self : LGDModel.LGDModel) (df : DataFrame)
    (price_col : string) :
  (has_col df price_col = false ->
   LGDModel.calculate_simple self df "housing" price_col
     = Raises (KeyError price_col))
  /\ (forall prices,
        lookup price_col (columns df) = Some prices ->
        exists lgds,
          LGDModel.calculate_simple self df "housing" price_col = Returns lgds
          /\ List.length lgds = List.length prices
          /\ Forall (fun l => 0.05 <= l <= 0.60) lgds)
  /\ (forall p1 p2, p1 <= p2 -> LGDModel.simple_cell p2 <= LGDModel.simple_cell p1).
Proof.
  split; [| split].
  - intros H. unfold LGDModel.calculate_simple. simpl.
    rewrite (getitem_absent _ _ H). reflexivity.
  - intros prices H. unfold LGDModel.calculate_simple, getitem. simpl.
    rewrite H. cbn [bind]. eexists. split; [reflexivity |]. split.
    + apply length_map.
    + apply Forall_map, Forall_forall. intros x _.
      unfold LGDModel.simple_cell. apply np_clip_bounds. lra.
  - intros p1 p2 H. unfold LGDModel.simple_cell. apply np_clip_monotone. lra.
Qed.

(** For any collateral type other than housing the table is not
    read: [calculate_simple] returns the base LGD once per period, also
    when the price column is absent. *)
Lemma lgd_simple_unsecured (self : LGDModel.LGDModel) (df : DataFrame)
    (collateral_type price_col : string) :
  collateral_type <> "housing"%string ->
  exists lgds,
    LGDModel.calculate_simple self df collateral_type price_col = Returns lgds
    /\ List.length lgds = nrows df
    /\ Forall (eq (LGDModel.base_lgd self)) lgds.
Proof.
  intros Hne. unfold LGDModel.calculate_simple.
  apply String.eqb_neq in Hne. rewrite Hne.
  eexists. split; [reflexivity |]. split.
  - apply repeat_length.
  - apply Forall_forall. intros x Hx. symmetry. exact (repeat_spec _ _ _ Hx).
Qed.

Lemma lgd_simple_unsecured_witness :
  exists lgds,
    LGDModel.calculate_simple LGDModel.default macro_without_gdp
      "unsecured" "housing_price_growth" = Returns lgds
    /\ List.length lgds = 2%nat
    /\ Forall (eq 0.45) lgds.
Proof.
  apply (lgd_simple_unsecured LGDModel.default macro_without_gdp
           "unsecured" "housing_price_growth").
  discriminate.
Defined.

(** ** Exposure at default *)



(** ** Expected credit loss *)

Definition discount_sum (maturity : nat) : R :=
  fold_right Rplus 0 (map (fun t => 1 / (1 + 0.05) ^ t) (seq 1 maturity)).

Lemma fold_left_add_scaled (c : R) (g : nat -> R) (l : list nat) (a : R) :
  fold_left (fun ecl t => ecl + c * g t) l a
    = a + c * fold_right Rplus 0 (map g l).
Proof.
  revert a. induction l as [| t l IH]; intros a; simpl.
  - ring.
  - rewrite IH. ring.
Qed.

Lemma lifetime_ecl_as_sum (pd lgd ead : R) (maturity : Z) :
  ECLCalculator.calculate_lifetime_ecl pd lgd ead maturity
    = pd / IZR maturity * lgd * ead * discount_sum (Z.to_nat maturity).
Proof.
  unfold ECLCalculator.calculate_lifetime_ecl, discount_sum. cbv zeta.
  rewrite (fold_left_add_scaled (pd / IZR maturity * lgd * ead)
             (fun t => 1 / (1 + 0.05) ^ t)).
  ring.
Qed.

Lemma discount_sum_closed (m : nat) :
  discount_sum m = 20 * (1 - / 1.05 ^ m).
Proof.
  unfold discount_sum. induction m as [| m IH].
  - simpl. rewrite Rinv_1. ring.
  - rewrite seq_S, map_app. simpl seq. simpl map.
    assert (Hfold : forall l x, fold_right Rplus 0 (l ++ [x])
                                = fold_right Rplus 0 l + x).
    { induction l as [| y l IHl]; intros x; simpl; [ring | rewrite IHl; ring]. }
    rewrite Hfold, IH.
    replace (1 + 0.05) with 1.05 by lra.
    assert (Hp : 1.05 ^ m <> 0) by (apply pow_nonzero; lra).
    replace (1 + m)%nat with (S m) by lia.
    simpl pow. set (x := 1.05 ^ m) in *.
    replace 1.05 with (21 / 20) by lra. field. exact Hp.
Qed.

Lemma discount_sum_bounds (m : nat) : 0 <= discount_sum m <= INR m.
Proof.
  unfold discount_sum. generalize 1%nat as s.
  induction m as [| m IH]; intros s.
  - simpl. lra.
  - cbn [seq map fold_right]. rewrite S_INR.
    specialize (IH (S s)).
    assert (Hp : 1 <= (1 + 0.05) ^ s) by (apply pow_R1_Rle; lra).
    assert (Hq : 0 < 1 / (1 + 0.05) ^ s <= 1).
    { split.
      - apply Rdiv_lt_0_compat; lra.
      - apply Rmult_le_reg_r with ((1 + 0.05) ^ s); [lra |].
        unfold Rdiv. rewrite Rmult_assoc, Rinv_l by lra. lra. }
    lra.
Qed.

Lemma lifetime_ecl_facts (pd lgd ead : R) (maturity : Z) :
  ((maturity < 1)%Z ->
   ECLCalculator.calculate_lifetime_ecl pd lgd ead maturity = 0)
  /\ ((1 <= maturity)%Z ->
      ECLCalculator.calculate_lifetime_ecl pd lgd ead maturity
        = pd * lgd * ead * (20 * (1 - / 1.05 ^ Z.to_nat maturity)) / IZR maturity
      /\ (0 <= pd -> 0 <= lgd -> 0 <= ead ->
          0 <= ECLCalculator.calculate_lifetime_ecl pd lgd ead maturity
            <= Core.calculate_12m_ecl pd lgd ead)).
Proof.
  split.
  - intros H. rewrite lifetime_ecl_as_sum.
    replace (Z.to_nat maturity) with O by lia.
    unfold discount_sum. simpl. ring.
  - intros H.
    assert (HM : 1 <= IZR maturity) by (apply IZR_le in H; exact H).
    split.
    + rewrite lifetime_ecl_as_sum, discount_sum_closed.
      set (q := / 1.05 ^ Z.to_nat maturity). unfold Rdiv. ring.
    + intros Hpd Hlgd Head. rewrite lifetime_ecl_as_sum.
      pose proof (discount_sum_bounds (Z.to_nat maturity)) as [Hs0 Hs1].
      rewrite INR_IZR_INZ, Z2Nat.id in Hs1 by lia.
      unfold Core.calculate_12m_ecl.
      set (s := discount_sum (Z.to_nat maturity)) in *.
      assert (Hc : 0 <= pd * lgd * ead).
      { apply Rmult_le_pos; [apply Rmult_le_pos |]; assumption. }
      assert (Hr : 0 <= s / IZR maturity <= 1).
      { split.
        - apply Rmult_le_pos; [exact Hs0 | left; apply Rinv_0_lt_compat; lra].
        - apply Rmult_le_reg_r with (IZR maturity); [lra |].
          unfold Rdiv. rewrite Rmult_assoc, Rinv_l by lra. lra. }
      replace (pd / IZR maturity * lgd * ead * s)
        with (pd * lgd * ead * (s / IZR maturity)) by (field; lra).
      split; nra.
Qed.

(** X9.  [calculate_lifetime_ecl] is 0 for a maturity below 1.  For a
    maturity M >= 1 it equals PD * LGD * EAD * 20 * (1 - 1.05^-M) / M, and
    for non-negative inputs it lies between 0 and PD * LGD * EAD: fed the
    same PD, the lifetime figure never exceeds the 12-month figure. *)
Theorem lifetime_ecl_closed_form (pd lgd ead : R) (maturity : Z) :
  ((maturity < 1)%Z ->
   ECLCalculator.calculate_lifetime_ecl pd lgd ead maturity = 0)
  /\ ((1 <= maturity)%Z ->
      ECLCalculator.calculate_lifetime_ecl pd lgd ead maturity
        = pd * lgd * ead * (20 * (1 - / 1.05 ^ Z.to_nat maturity)) / IZR maturity
      /\ (0 <= pd -> 0 <= lgd -> 0 <= ead ->
          0 <= ECLCalculator.calculate_lifetime_ecl pd lgd ead maturity
            <= Core.calculate_12m_ecl pd lgd ead)).
Proof. apply lifetime_ecl_facts. Qed.

Lemma lifetime_ecl_closed_form_witness :
  ECLCalculator.calculate_lifetime_ecl 0.05 0.4 100000 5
    = 0.05 * 0.4 * 100000 * (20 * (1 - / 1.05 ^ Z.to_nat 5)) / IZR 5
  /\ (0 <= 0.05 -> 0 <= 0.4 -> 0 <= 100000 ->
      0 <= ECLCalculator.calculate_lifetime_ecl 0.05 0.4 100000 5
        <= Core.calculate_12m_ecl 0.05 0.4 100000).
Proof.
  apply (proj2 (lifetime_ecl_closed_form 0.05 0.4 100000 5)). lia.
Defined.

(** X10.  Staging is monotone: more days past due and a higher current
    PD (against the same origination PD) never give a lower stage; the
    stage is 3 exactly when more than 90 days are past due. *)
Theorem stage_classification_monotone (pd1 pd2 origination_pd : R) (dpd1 dpd2 : Z) :
  pd1 <= pd2 -> (dpd1 <= dpd2)%Z ->
  (ECLCalculator.stage_classification pd1 origination_pd dpd1
   <= ECLCalculator.stage_classification pd2 origination_pd dpd2)%Z
  /\ (ECLCalculator.stage_classification pd1 origination_pd dpd1 = 3%Z
      <-> (90 < dpd1)%Z).
Proof.
  intros Hpd Hdpd. unfold ECLCalculator.stage_classification. split.
  - destruct (Z.ltb_spec 90 dpd1), (Z.ltb_spec 90 dpd2); try lia;
      destruct (Rlt_dec (2 * origination_pd) pd1),
               (Rlt_dec (2 * origination_pd) pd2); try lia; lra.
  - destruct (Z.ltb_spec 90 dpd1).
    + split; [intros _; assumption | reflexivity].
    + destruct (Rlt_dec (2 * origination_pd) pd1); split; intros; try lia;
        discriminate.
Qed.

Lemma stage_classification_monotone_witness :
  (ECLCalculator.stage_classification 0.02 0.015 30
   <= ECLCalculator.stage_classification 0.04 0.015 95)%Z
  /\ (ECLCalculator.stage_classification 0.02 0.015 30 = 3%Z <-> (90 < 30)%Z).
Proof.
  apply (stage_classification_monotone 0.02 0.04 0.015 30 95); [lra | lia].
Defined.

Lemma Forall2_map3_same {A B C : Type} (Q : R -> R -> Prop)
    (f g : A -> B -> C -> R) (P : A -> B -> C -> Prop) xs ys zs :
  (forall x y z, P x y z -> Q (f x y z) (g x y z)) ->
  Forall (fun x => forall y z, In y ys -> In z zs -> P x y z) xs ->
  Forall2 Q (map3 f xs ys zs) (map3 g xs ys zs).
Proof.
  intros H HP. revert ys zs HP.
  induction xs as [| x xs IH]; intros ys zs HP; [constructor |].
  destruct ys as [| y ys], zs as [| z zs]; simpl; try constructor.
  - apply H. inversion HP as [| ? ? Hx _]; subst. apply Hx; left; reflexivity.
  - apply IH. inversion HP as [| ? ? _ Hxs]; subst.
    revert Hxs. apply Forall_impl. intros a Ha y' z' Hy Hz.
    apply Ha; right; assumption.
Qed.

Lemma broadcast_returns (n : nat) (exposure : list R) :
  List.length exposure = n \/ List.length exposure = 1%nat ->
  Forall (Rle 0) exposure ->
  exists ead,
    ECLCalculator.broadcast n exposure = Returns ead
    /\ List.length ead = n /\ Forall (Rle 0) ead.
Proof.
  intros Hlen Hpos. unfold ECLCalculator.broadcast.
  destruct (Nat.eqb_spec (List.length exposure) n) as [E | E].
  - exists exposure. auto.
  - destruct Hlen as [Hlen | Hlen]; [contradiction |].
    destruct exposure as [| e [| e' exposure]]; try discriminate.
    exists (repeat e n). split; [reflexivity |]. split; [apply repeat_length |].
    apply Forall_forall. intros x Hx. apply repeat_spec in Hx. subst x.
    inversion Hpos; assumption.
Qed.

Lemma broadcast_raises (n : nat) (exposure : list R) :
  List.length exposure <> n -> List.length exposure <> 1%nat ->
  ECLCalculator.broadcast n exposure = Raises ValueError.
Proof.
  intros Hn H1. unfold ECLCalculator.broadcast.
  destruct (Nat.eqb_spec (List.length exposure) n) as [E | _]; [contradiction |].
  destruct exposure as [| e [| e' exposure]]; try reflexivity.
  exfalso. apply H1. reflexivity.
Qed.

(** X11.  [calculate_portfolio_ecl] on a well-formed table and a numpy
    array of exposures.  Without the pd column it raises [KeyError].
    With the pd and lgd columns, an array whose length is neither the
    number of loans nor 1 makes it raise [ValueError]; an array with one
    exposure per loan, or a single exposure for all of them, gives one
    figure per loan, and on non-negative pd, lgd and exposure cells the
    lifetime figures (any stage other than 1) are cell by cell between 0
    and the 12-month figures (stage 1). *)
Theorem portfolio_ecl_stages (df : DataFrame) (exposure : list R) (stage : Z) :
  (has_col df "pd" = false ->
   ECLCalculator.calculate_portfolio_ecl df exposure stage = Raises (KeyError "pd"))
  /\ (has_col df "pd" = true -> has_col df "lgd" = true ->
      List.length exposure <> nrows df -> List.length exposure <> 1%nat ->
      ECLCalculator.calculate_portfolio_ecl df exposure stage = Raises ValueError)
  /\ (forall pd lgd,
        well_formed df ->
        lookup "pd" (columns df) = Some pd ->
        lookup "lgd" (columns df) = Some lgd ->
        List.length exposure = nrows df \/ List.length exposure = 1%nat ->
        Forall (Rle 0) pd -> Forall (Rle 0) lgd -> Forall (Rle 0) exposure ->
        stage <> 1%Z ->
        exists ecl_lifetime ecl_12m,
          ECLCalculator.calculate_portfolio_ecl df exposure stage
            = Returns ecl_lifetime
          /\ ECLCalculator.calculate_portfolio_ecl df exposure 1 = Returns ecl_12m
          /\ List.length ecl_12m = nrows df
          /\ Forall2 (fun l m => 0 <= l <= m) ecl_lifetime ecl_12m).
Proof.
  split; [| split].
  - intros H. unfold ECLCalculator.calculate_portfolio_ecl.
    rewrite (getitem_absent _ _ H). reflexivity.
  - intros Hpd Hlgd Hn H1. unfold ECLCalculator.calculate_portfolio_ecl.
    destruct (getitem_present _ _ Hpd) as [pd ->].
    destruct (getitem_present _ _ Hlgd) as [lgd ->]. cbn [bind].
    rewrite (broadcast_raises _ _ Hn H1). reflexivity.
  - intros pd lgd Hwf Hpd Hlgd Hlen Ppd Plgd Pexp Hstage.
    unfold ECLCalculator.calculate_portfolio_ecl, getitem.
    rewrite Hpd, Hlgd. cbn [bind].
    destruct (broadcast_returns (nrows df) exposure Hlen Pexp)
      as [ead [-> [Hlead Pead]]]. cbn [bind].
    apply Z.eqb_neq in Hstage. rewrite Hstage. simpl Z.eqb. cbv iota.
    eexists _, _. split; [reflexivity |]. split; [reflexivity |]. split.
    + rewrite length_map3.
      * apply (Hwf _ _ Hpd).
      * rewrite (Hwf _ _ Hpd), (Hwf _ _ Hlgd). reflexivity.
      * rewrite (Hwf _ _ Hlgd), Hlead. reflexivity.
    + apply (Forall2_map3_same _ _ _ (fun p l e => 0 <= p /\ 0 <= l /\ 0 <= e)).
      * intros p l e [Hp [Hl He]].
        apply (proj2 (lifetime_ecl_facts p l e 5) ltac:(lia)); assumption.
      * rewrite Forall_forall in *. intros p Hp l e Hl He.
        split; [apply Ppd, Hp |]. split; [apply Plgd, Hl | apply Pead, He].
Qed.

Definition loans_table : DataFrame :=
  mkDataFrame 2 [("pd"%string, [0.01; 0.05]); ("lgd"%string, [0.2; 0.45])].

Lemma loans_table_well_formed : well_formed loans_table.
Proof.
  intros c v. unfold loans_table; simpl.
  repeat (destruct (String.eqb c _);
          [intros H; injection H as <-; reflexivity |]).
  discriminate.
Qed.

Lemma portfolio_ecl_stages_witness :
  ECLCalculator.calculate_portfolio_ecl loans_table [100000; 250000; 50000] 2
    = Raises ValueError
  /\ exists ecl_lifetime ecl_12m,
       ECLCalculator.calculate_portfolio_ecl loans_table [100000; 250000] 2
         = Returns ecl_lifetime
       /\ ECLCalculator.calculate_portfolio_ecl loans_table [100000; 250000] 1
          = Returns ecl_12m
       /\ List.length ecl_12m = 2%nat
       /\ Forall2 (fun l m => 0 <= l <= m) ecl_lifetime ecl_12m.
Proof.
  split.
  - apply (proj1 (proj2 (portfolio_ecl_stages loans_table [100000; 250000; 50000] 2)));
      try reflexivity; simpl; lia.
  - apply (proj2 (proj2 (portfolio_ecl_stages loans_table [100000; 250000] 2))
             [0.01; 0.05] [0.2; 0.45]).
    + exact loans_table_well_formed.
    + reflexivity.
    + reflexivity.
    + left. reflexivity.
    + repeat constructor; lra.
    + repeat constructor; lra.
    + repeat constructor; lra.
    + discriminate.
Defined.

(** ** Risk-weighted assets: further properties *)

Lemma clipped_pd_range (pd : R) :
  0.0001 <= Core.np_clip pd 0.0001 0.9999 <= 0.9999.
Proof. apply np_clip_bounds. lra. Qed.

Lemma ppf_nonpos (p : R) : 0 < p <= / 2 -> Normal.ppf p <= 0.
Proof.
  intros [Hp [Hlt | ->]].
  - left. rewrite <- Normal.ppf_half. apply Normal.ppf_increasing; lra.
  - rewrite Normal.ppf_half. lra.
Qed.

Lemma sqrt_le_one (x : R) : 0 <= x <= 1 -> 0 <= sqrt x <= 1.
Proof.
  intros [H0 H1]. split; [apply sqrt_pos |].
  rewrite <- sqrt_1. apply sqrt_le_1; lra.
Qed.

(** X13.  For a PD of at most one half, a correlation in [0.01, 1] and
    non-negative EAD and LGD the value of [calculate_rwa_simple] is
    non-negative.  (The correlation is kept away from 0: there the
    capital requirement is the difference of two equal quantities, whose
    computed sign is an accident of rounding.) *)
Theorem rwa_nonnegative_low_pd (ead pd lgd r : R) :
  0 <= ead -> 0 <= lgd -> 0.01 <= r <= 1 -> pd <= 0.5 ->
  0 <= Core.calculate_rwa_simple ead pd lgd r.
Proof.
  intros Head Hlgd Hr Hpd.
  rewrite calculate_rwa_simple_unfold. unfold irb_capital_code.
  pose proof (clipped_pd_range pd) as Hp.
  assert (Hhalf : Core.np_clip pd 0.0001 0.9999 <= 0.5).
  { apply Rle_trans with (Core.np_clip 0.5 0.0001 0.9999).
    - apply np_clip_monotone, Hpd.
    - rewrite np_clip_inside; lra. }
  set (pc := Core.np_clip pd 0.0001 0.9999) in *.
  pose proof (maturity_adj_ge_1 pc ltac:(lra)) as Hm.
  assert (Ha : Normal.ppf pc <= 0) by (apply ppf_nonpos; lra).
  pose proof ppf_999_pos as Hb.
  pose proof (sqrt_le_one (1 - r) ltac:(lra)) as [Hs0 Hs1].
  pose proof (sqrt_pos r) as Hsr.
  assert (Harg : Normal.ppf pc
                 <= sqrt (1 - r) * Normal.ppf pc + sqrt r * Normal.ppf 0.999) by nra.
  assert (Hcdf : pc <= Normal.cdf (sqrt (1 - r) * Normal.ppf pc
                                   + sqrt r * Normal.ppf 0.999)).
  { rewrite <- (Normal.cdf_ppf pc) at 1 by lra.
    destruct Harg as [Hlt | Heq].
    - left. apply Normal.cdf_increasing, Hlt.
    - rewrite <- Heq. lra. }
  set (c := Normal.cdf _) in *.
  assert (0 <= lgd * c - pc * lgd) by nra.
  assert (0 <= (lgd * c - pc * lgd) * maturity_adj_spec pc) by nra.
  nra.
Qed.

Lemma rwa_nonnegative_low_pd_witness :
  0 <= Core.calculate_rwa_simple 500000000 0.01 0.30 0.15.
Proof. apply (rwa_nonnegative_low_pd 500000000 0.01 0.30 0.15); lra. Defined.

(** X15.  The result can be negative: with correlation 1, a PD above
    0.999 and positive EAD and LGD, [calculate_rwa_simple] is below 0. *)
Theorem rwa_negative_at_full_correlation (ead pd lgd : R) :
  0 < ead -> 0 < lgd -> 0.999 < pd ->
  Core.calculate_rwa_simple ead pd lgd 1 < 0.
Proof.
  intros Head Hlgd Hpd.
  rewrite calculate_rwa_simple_unfold. unfold irb_capital_code.
  pose proof (clipped_pd_range pd) as Hp.
  assert (Hhigh : 0.999 < Core.np_clip pd 0.0001 0.9999).
  { unfold Core.np_clip. apply Rmin_glb_lt; [| lra].
    apply Rlt_le_trans with pd; [exact Hpd | apply Rmax_l]. }
  set (pc := Core.np_clip pd 0.0001 0.9999) in *.
  pose proof (maturity_adj_ge_1 pc ltac:(lra)) as Hm.
  replace (1 - 1) with 0 by lra.
  rewrite sqrt_1, sqrt_0, Rmult_0_l, Rplus_0_l, Rmult_1_l.
  rewrite Normal.cdf_ppf by lra.
  assert (Hk : lgd * 0.999 - pc * lgd < 0) by nra.
  assert (Hka : (lgd * 0.999 - pc * lgd) * maturity_adj_spec pc < 0) by nra.
  nra.
Qed.

Lemma rwa_negative_at_full_correlation_witness :
  Core.calculate_rwa_simple 1000000 0.9995 0.45 1 < 0.
Proof. apply (rwa_negative_at_full_correlation 1000000 0.9995 0.45); lra. Defined.

(** ** Portfolio: recomputation and capital *)

Definition rwa_rows (rows : list Portfolio.Segment) : list Portfolio.Segment :=
  map (fun r => PortfolioCapital.set_rwa (Some (PortfolioCapital.row_rwa r)) r) rows.

Lemma calculate_rwa_returns (p : Portfolio.Portfolio) :
  Portfolio.exposures p <> [] ->
  PortfolioCapital.calculate_rwa p
    = Returns (Portfolio.mkPortfolio (Portfolio.name p)
                 (rwa_rows (Portfolio.exposures p)),
               PortfolioCapital.rwa_view (rwa_rows (Portfolio.exposures p))).
Proof.
  intros Hne. unfold PortfolioCapital.calculate_rwa.
  destruct (Portfolio.exposures p) as [| r rows]; [contradiction | reflexivity].
Qed.

Lemma ecl_rows_nonempty rows : rows <> [] -> ecl_rows rows <> [].
Proof. destruct rows; [contradiction | discriminate]. Qed.

Lemma rwa_rows_nonempty rows : rows <> [] -> rwa_rows rows <> [].
Proof. destruct rows; [contradiction | discriminate]. Qed.

Lemma ecl_rows_idempotent rows : ecl_rows (ecl_rows rows) = ecl_rows rows.
Proof.
  unfold ecl_rows. rewrite map_map. apply map_ext. intros r. reflexivity.
Qed.

Lemma rwa_rows_idempotent rows : rwa_rows (rwa_rows rows) = rwa_rows rows.
Proof.
  unfold rwa_rows. rewrite map_map. apply map_ext. intros r. reflexivity.
Qed.

Lemma ecl_rwa_rows_commute rows : ecl_rows (rwa_rows rows) = rwa_rows (ecl_rows rows).
Proof.
  unfold ecl_rows, rwa_rows. rewrite !map_map. apply map_ext. intros r. reflexivity.
Qed.

(** X16.  Recomputation overwrites: on a portfolio with a segment,
    [calculate_ecl] followed by [calculate_rwa] returns; running the pair
    a second time returns the same table and the same views, and running
    the two methods in the other order gives the same table. *)
Theorem ecl_rwa_recomputation (p : Portfolio.Portfolio) :
  Portfolio.exposures p <> [] ->
  exists p1 v1 p2 v2,
    Portfolio.calculate_ecl p = Returns (p1, v1)
    /\ PortfolioCapital.calculate_rwa p1 = Returns (p2, v2)
    /\ (exists p3, Portfolio.calculate_ecl p2 = Returns (p3, v1)
                   /\ PortfolioCapital.calculate_rwa p3 = Returns (p2, v2))
    /\ (exists q1 w1 w2, PortfolioCapital.calculate_rwa p = Returns (q1, w1)
                         /\ Portfolio.calculate_ecl q1 = Returns (p2, w2)).
Proof.
  intros Hne.
  eexists _, _, _, _.
  split; [apply calculate_ecl_returns, Hne |].
  split; [apply calculate_rwa_returns; simpl; apply ecl_rows_nonempty, Hne |].
  simpl. split.
  - eexists. split.
    + rewrite calculate_ecl_returns
        by (simpl; apply rwa_rows_nonempty, ecl_rows_nonempty, Hne).
      simpl. rewrite ecl_rwa_rows_commute, ecl_rows_idempotent.
      f_equal. f_equal.
      unfold Portfolio.ecl_view, rwa_rows, ecl_rows. rewrite !map_map.
      apply map_ext. intros r. reflexivity.
    + rewrite calculate_rwa_returns
        by (simpl; apply rwa_rows_nonempty, ecl_rows_nonempty, Hne).
      simpl. rewrite rwa_rows_idempotent. reflexivity.
  - eexists _, _, _. split; [apply calculate_rwa_returns, Hne |].
    rewrite calculate_ecl_returns by (simpl; apply rwa_rows_nonempty, Hne).
    simpl. rewrite ecl_rwa_rows_commute. reflexivity.
Qed.

Definition two_segments : Portfolio.Portfolio :=
  Portfolio.add_segment
    (Portfolio.add_segment (Portfolio.init "AU") "Residential Mortgages" 50000
       500000 0.005 0.20 0.15 "retail")
    "Personal Loans" 20000 25000 0.03 0.45 0.15 "retail".

Lemma ecl_rwa_recomputation_witness :
  exists p1 v1 p2 v2,
    Portfolio.calculate_ecl two_segments = Returns (p1, v1)
    /\ PortfolioCapital.calculate_rwa p1 = Returns (p2, v2)
    /\ (exists p3, Portfolio.calculate_ecl p2 = Returns (p3, v1)
                   /\ PortfolioCapital.calculate_rwa p3 = Returns (p2, v2))
    /\ (exists q1 w1 w2, PortfolioCapital.calculate_rwa two_segments = Returns (q1, w1)
                         /\ Portfolio.calculate_ecl q1 = Returns (p2, w2)).
Proof.
  apply (ecl_rwa_recomputation two_segments). simpl. discriminate.
Defined.

Lemma has_rwa_column_rwa_rows name rows :
  rows <> [] ->
  PortfolioCapital.has_rwa_column (Portfolio.mkPortfolio name (rwa_rows rows)) = true.
Proof.
  destruct rows as [| r rows]; [contradiction | reflexivity].
Qed.

Lemma sum_cells_rwa_rows rows :
  PortfolioCapital.total_rwa_of (rwa_rows rows)
    = fold_right Rplus 0 (map PortfolioCapital.row_rwa rows).
Proof.
  unfold PortfolioCapital.total_rwa_of, rwa_rows.
  induction rows as [| r rows IH]; simpl; [reflexivity |].
  rewrite IH. reflexivity.
Qed.

Lemma sum_cells_app_none cells :
  Portfolio.sum_cells (cells ++ [None]) = Portfolio.sum_cells cells.
Proof.
  unfold Portfolio.sum_cells.
  induction cells as [| c cells IH]; simpl; [reflexivity |].
  rewrite IH. reflexivity.
Qed.

Lemma has_rwa_column_app name rows extra :
  PortfolioCapital.has_rwa_column (Portfolio.mkPortfolio name rows) = true ->
  PortfolioCapital.has_rwa_column (Portfolio.mkPortfolio name (rows ++ extra)) = true.
Proof.
  unfold PortfolioCapital.has_rwa_column. simpl.
  rewrite existsb_app. intros ->. reflexivity.
Qed.

(** X18.  The RWA column is not refreshed when a segment is added: after
    [calculate_rwa], [add_segment] followed by [calculate_capital] returns
    the capital figures of the portfolio without the new segment (its RWA
    cell is missing and the sum skips it) and leaves the table as it is. *)
Theorem calculate_capital_stale_after_add (p : Portfolio.Portfolio)
    (segment_name : string) (n_loans : Z)
    (avg_exposure avg_pd avg_lgd correlation : R) (segment_type : string)
    (cet1_ratio tier1_ratio : R) :
  Portfolio.exposures p <> [] ->
  exists p1 view capital,
    PortfolioCapital.calculate_rwa p = Returns (p1, view)
    /\ PortfolioCapital.calculate_capital p1 cet1_ratio tier1_ratio
       = Returns (p1, capital)
    /\ PortfolioCapital.calculate_capital
         (Portfolio.add_segment p1 segment_name n_loans avg_exposure avg_pd
            avg_lgd correlation segment_type)
         cet1_ratio tier1_ratio
       = Returns (Portfolio.add_segment p1 segment_name n_loans avg_exposure
                    avg_pd avg_lgd correlation segment_type,
                  capital)
    /\ PortfolioCapital.total_rwa capital
       = fold_right Rplus 0
           (map PortfolioCapital.row_rwa (Portfolio.exposures p)).
Proof.
  intros Hne. eexists _, _, _.
  split; [apply calculate_rwa_returns, Hne |].
  unfold PortfolioCapital.calculate_capital, Portfolio.add_segment.
  cbn [Portfolio.exposures Portfolio.name].
  rewrite has_rwa_column_app by (apply has_rwa_column_rwa_rows, Hne).
  rewrite has_rwa_column_rwa_rows by exact Hne.
  cbn [bind Portfolio.exposures].
  split; [reflexivity |]. split.
  - f_equal. f_equal.
    assert (Hsum : PortfolioCapital.total_rwa_of
                     (rwa_rows (Portfolio.exposures p)
                      ++ [Portfolio.mkSegment segment_name segment_type n_loans
                            avg_exposure (IZR n_loans * avg_exposure) avg_pd
                            avg_lgd correlation None None None])
                   = PortfolioCapital.total_rwa_of (rwa_rows (Portfolio.exposures p))).
    { unfold PortfolioCapital.total_rwa_of. rewrite map_app. simpl map at 2.
      apply sum_cells_app_none. }
    rewrite Hsum. reflexivity.
  - cbn [PortfolioCapital.total_rwa]. apply sum_cells_rwa_rows.
Qed.

Lemma calculate_capital_stale_after_add_witness :
  exists p1 view capital,
    PortfolioCapital.calculate_rwa two_segments = Returns (p1, view)
    /\ PortfolioCapital.calculate_capital p1 0.105 0.085 = Returns (p1, capital)
    /\ PortfolioCapital.calculate_capital
         (Portfolio.add_segment p1 "SME Lending" 5000 200000 0.02 0.40 0.20
            "corporate")
         0.105 0.085
       = Returns (Portfolio.add_segment p1 "SME Lending" 5000 200000 0.02 0.40
                    0.20 "corporate",
                  capital)
    /\ PortfolioCapital.total_rwa capital
       = fold_right Rplus 0
           (map PortfolioCapital.row_rwa (Portfolio.exposures two_segments)).
Proof.
  apply (calculate_capital_stale_after_add two_segments "SME Lending" 5000
           200000 0.02 0.40 0.20 "corporate" 0.105 0.085).
  simpl. discriminate.
Defined.

(** ** Stressed portfolio *)

Lemma stress_portfolio_returns (p : Portfolio.Portfolio) (ps ls es : R) :
  Portfolio.exposures p <> [] ->
  Portfolio.stress_portfolio p ps ls es
    = Returns (map (Portfolio.stress_row ps ls es) (Portfolio.exposures p)).
Proof.
  intros Hne. unfold Portfolio.stress_portfolio.
  destruct (Portfolio.exposures p); [contradiction | reflexivity].
Qed.

(** X19.  [stress_portfolio] on a portfolio with a segment returns one
    row per segment, in the order of the table and carrying the original
    row; every stressed LGD is at most 1 whatever the shock; and with the
    three shocks equal to 1 a row whose LGD is at most 1 keeps its PD, LGD
    and EAD, its stressed ECL is avg_pd * avg_lgd * total_ead and its
    stressed RWA is the RWA of the unstressed row. *)
Theorem stress_portfolio_rows (p : Portfolio.Portfolio) (pd_shock lgd_shock ead_shock : R) :
  Portfolio.exposures p <> [] ->
  exists stressed,
    Portfolio.stress_portfolio p pd_shock lgd_shock ead_shock = Returns stressed
    /\ map Portfolio.base stressed = Portfolio.exposures p
    /\ Forall (fun s => Portfolio.avg_lgd_stressed s <= 1) stressed
    /\ (pd_shock = 1 -> lgd_shock = 1 -> ead_shock = 1 ->
        Forall (fun s =>
                  Portfolio.avg_lgd (Portfolio.base s) <= 1 ->
                  Portfolio.avg_pd_stressed s = Portfolio.avg_pd (Portfolio.base s)
                  /\ Portfolio.avg_lgd_stressed s = Portfolio.avg_lgd (Portfolio.base s)
                  /\ Portfolio.total_ead_stressed s
                     = Portfolio.total_ead (Portfolio.base s)
                  /\ Portfolio.ecl_stressed s
                     = Portfolio.avg_pd (Portfolio.base s)
                       * Portfolio.avg_lgd (Portfolio.base s)
                       * Portfolio.total_ead (Portfolio.base s)
                  /\ Portfolio.rwa_stressed s
                     = PortfolioCapital.row_rwa (Portfolio.base s))
               stressed).
Proof.
  intros Hne. eexists. split; [apply stress_portfolio_returns, Hne |].
  split; [| split].
  - rewrite map_map. simpl. apply map_id.
  - apply Forall_map, Forall_forall. intros r _. simpl. apply Rmin_r.
  - intros -> -> ->. apply Forall_map, Forall_forall. intros r _ Hl.
    unfold PortfolioCapital.row_rwa. simpl in *.
    rewrite !Rmult_1_r, Rmin_left by lra.
    repeat split; reflexivity.
Qed.

Lemma stress_portfolio_rows_witness :
  exists stressed,
    Portfolio.stress_portfolio two_segments 1.5 6 1.1 = Returns stressed
    /\ map Portfolio.base stressed = Portfolio.exposures two_segments
    /\ Forall (fun s => Portfolio.avg_lgd_stressed s <= 1) stressed
    /\ (1.5 = 1 -> 6 = 1 -> 1.1 = 1 ->
        Forall (fun s =>
                  Portfolio.avg_lgd (Portfolio.base s) <= 1 ->
                  Portfolio.avg_pd_stressed s = Portfolio.avg_pd (Portfolio.base s)
                  /\ Portfolio.avg_lgd_stressed s = Portfolio.avg_lgd (Portfolio.base s)
                  /\ Portfolio.total_ead_stressed s
                     = Portfolio.total_ead (Portfolio.base s)
                  /\ Portfolio.ecl_stressed s
                     = Portfolio.avg_pd (Portfolio.base s)
                       * Portfolio.avg_lgd (Portfolio.base s)
                       * Portfolio.total_ead (Portfolio.base s)
                  /\ Portfolio.rwa_stressed s
                     = PortfolioCapital.row_rwa (Portfolio.base s))
               stressed).
Proof.
  apply (stress_portfolio_rows two_segments 1.5 6 1.1). simpl. discriminate.
Defined.

Lemma lgd_simple_housing_witness :
  exists lgds,
    LGDModel.calculate_simple LGDModel.default macro_three_months
      "housing" "housing_price_growth" = Returns lgds
    /\ List.length lgds = List.length [5.0; 0.0; -30.0]
    /\ Forall (fun l => 0.05 <= l <= 0.60) lgds.
Proof.
  apply (proj1 (proj2 (lgd_simple_housing LGDModel.default macro_three_months
                         "housing_price_growth"))).
  reflexivity.
Defined.

(** ** Scenario transforms keep the table well formed *)

Lemma lookup_assoc_set_inv {A : Type} (k k0 : string) (v v0 : A) l :
  lookup k0 (assoc_set k v l) = Some v0 ->
  (k0 = k /\ v0 = v) \/ (k0 <> k /\ lookup k0 l = Some v0).
Proof.
  destruct (string_dec k0 k) as [-> | Hne].
  - rewrite lookup_assoc_set_same. intros H. injection H as <-. left. auto.
  - rewrite lookup_assoc_set_other by exact Hne. intros H. right. auto.
Qed.

Lemma well_formed_setitem df c v :
  well_formed df -> List.length v = nrows df -> well_formed (setitem df c v).
Proof.
  intros Hwf Hlen c0 v0 H. unfold setitem in H. simpl in H.
  apply lookup_assoc_set_inv in H. destruct H as [[_ ->] | [_ H]].
  - exact Hlen.
  - apply (Hwf _ _ H).
Qed.

Definition keeps_length (f : list R -> list R) (n : nat) : Prop :=
  forall v, List.length v = n -> List.length (f v) = n.

Lemma well_formed_update_col df c f :
  well_formed df -> keeps_length f (nrows df) ->
  well_formed (Scenarios.update_col df c f).
Proof.
  intros Hwf Hf. unfold Scenarios.update_col.
  destruct (lookup c (columns df)) as [v |] eqn:E; [| exact Hwf].
  apply well_formed_setitem; [exact Hwf |]. apply Hf, (Hwf _ _ E).
Qed.

Lemma keeps_length_map (g : R -> R) n : keeps_length (map g) n.
Proof. intros v H. rewrite length_map. exact H. Qed.

Lemma keeps_length_add_path path n :
  List.length path = n -> keeps_length (Scenarios.add_path path) n.
Proof.
  intros Hp v Hv. unfold Scenarios.add_path.
  rewrite length_map2, Hp, Hv. apply Nat.min_id.
Qed.

(** The invariant carried through a transform: same periods, well
    formed, no column lost. *)
Definition transform_invariant (df dfs : DataFrame) : Prop :=
  nrows dfs = nrows df
  /\ well_formed dfs
  /\ forall c, has_col df c = true -> has_col dfs c = true.

Lemma transform_invariant_refl df : well_formed df -> transform_invariant df df.
Proof. intros H. split; [reflexivity |]. split; [exact H | auto]. Qed.

Lemma transform_invariant_update df dfs c f :
  transform_invariant df dfs -> keeps_length f (nrows df) ->
  transform_invariant df (Scenarios.update_col dfs c f).
Proof.
  intros [Hn [Hwf Hc]] Hf. split; [| split].
  - rewrite nrows_update_col. exact Hn.
  - apply well_formed_update_col; [exact Hwf |]. rewrite Hn. exact Hf.
  - intros c0 H. rewrite has_col_update_col. apply Hc, H.
Qed.

Lemma transform_invariant_setitem df dfs c v :
  transform_invariant df dfs -> List.length v = nrows df ->
  transform_invariant df (setitem dfs c v).
Proof.
  intros [Hn [Hwf Hc]] Hv. split; [| split].
  - simpl. exact Hn.
  - apply well_formed_setitem; [exact Hwf |]. rewrite Hn. exact Hv.
  - intros c0 H. destruct (string_dec c0 c) as [-> | Hne].
    + unfold has_col, setitem. simpl. rewrite lookup_assoc_set_same. reflexivity.
    + rewrite has_col_setitem_other by exact Hne. apply Hc, H.
Qed.

Ltac keep_length :=
  first [ apply keeps_length_map
        | apply keeps_length_add_path, length_ramp_path
        | intros ? ?; rewrite ?length_map; assumption ].

Lemma transform_invariant_custom shocks df dfs :
  transform_invariant df dfs ->
  transform_invariant df (Scenarios.custom_apply shocks dfs).
Proof.
  unfold Scenarios.custom_apply. revert dfs.
  induction shocks as [| [var s] shocks IH]; intros dfs H; simpl; [exact H |].
  apply IH. destruct (has_col dfs var); [| exact H].
  apply transform_invariant_update; [exact H | keep_length].
Qed.

Lemma transform_invariant_base shocks df dfs :
  transform_invariant df dfs ->
  transform_invariant df (Scenarios.base_apply shocks dfs).
Proof.
  unfold Scenarios.base_apply. revert dfs.
  induction shocks as [| [var s] shocks IH]; intros dfs H; simpl; [exact H |].
  apply IH. unfold Scenarios.apply_shock. simpl.
  destruct (has_col dfs var); [| exact H].
  destruct s as [entries | value].
  - destruct (lookup "instant" entries);
      [apply transform_invariant_update; [exact H | keep_length] |].
    destruct (lookup "growth" entries);
      [apply transform_invariant_update; [exact H | keep_length] | exact H].
  - apply transform_invariant_update; [exact H | keep_length].
Qed.

Lemma transform_invariant_apply scenario df dfs :
  well_formed df ->
  Scenarios.apply scenario df = Returns dfs -> transform_invariant df dfs.
Proof.
  intros Hwf.
  pose proof (transform_invariant_refl df Hwf) as H0.
  destruct scenario as [shocks | r u h | r u h | s c | | shocks]; simpl; intros H.
  - injection H as <-. apply transform_invariant_base, H0.
  - injection H as <-. unfold Scenarios.tightening_apply. cbv zeta.
    repeat (apply transform_invariant_update; [| keep_length]).
    match goal with |- context [if ?b then _ else _] => destruct b end;
      repeat (apply transform_invariant_update;
              [| first [keep_length
                       | rewrite ?nrows_update_col; keep_length]]);
      exact H0.
  - injection H as <-. unfold Scenarios.soft_landing_apply. cbv zeta.
    repeat (apply transform_invariant_update; [| keep_length]). exact H0.
  - unfold Scenarios.funding_shock_apply in H.
    destruct (has_col df "bbsw_spread").
    + simpl in H.
      destruct (getitem _ "cash_rate") as [cash | e] eqn:Ecash; [| discriminate].
      simpl in H.
      destruct (getitem _ "bbsw_spread") as [spread | e] eqn:Espread;
        [| discriminate].
      simpl in H. injection H as <-.
      assert (H1 : transform_invariant df
                     (Scenarios.update_col df "bbsw_spread" (Scenarios.add_scalar s))).
      { apply transform_invariant_update; [exact H0 | keep_length]. }
      repeat (apply transform_invariant_update; [| keep_length]).
      apply transform_invariant_setitem; [exact H1 |].
      destruct H1 as [Hn [Hwf1 _]].
      unfold getitem in Ecash, Espread.
      destruct (lookup "cash_rate" _) as [v1 |] eqn:E1; [| discriminate].
      destruct (lookup "bbsw_spread" _) as [v2 |] eqn:E2; [| discriminate].
      injection Ecash as <-. injection Espread as <-.
      rewrite length_map2, (Hwf1 _ _ E1), (Hwf1 _ _ E2), Hn. apply Nat.min_id.
    + simpl in H. injection H as <-.
      repeat (apply transform_invariant_update; [| keep_length]). exact H0.
  - injection H as <-. unfold Scenarios.severe_recession_apply. cbv zeta.
    repeat (apply transform_invariant_update;
            [| first [keep_length
                     | intros v Hv; apply length_ramp_path
                     | intros v Hv; rewrite length_map;
                       apply (keeps_length_add_path _ _ (length_ramp_path _ _ _)), Hv]]).
    exact H0.
  - injection H as <-. apply transform_invariant_custom, H0.
Qed.

(** X20.  Every scenario transform that returns keeps the series well
    formed: the stressed series has the same number of periods, one cell
    per period in every column, every column of the input, and no new
    column except possibly bbsw_rate. *)
Theorem scenario_keeps_well_formed (scenario : Scenarios.Scenario)
    (df dfs : DataFrame) :
  well_formed df ->
  Scenarios.apply scenario df = Returns dfs ->
  nrows dfs = nrows df
  /\ well_formed dfs
  /\ (forall c, has_col df c = true -> has_col dfs c = true)
  /\ (forall c, c <> "bbsw_rate"%string -> has_col dfs c = has_col df c).
Proof.
  intros Hwf H.
  destruct (transform_invariant_apply _ _ _ Hwf H) as [Hn [Hwf' Hc]].
  destruct (same_shape_apply _ _ _ H) as [_ Hs].
  repeat split; assumption.
Qed.

Lemma sample_macro_well_formed : well_formed sample_macro.
Proof.
  intros c v. unfold sample_macro; simpl.
  repeat (destruct (String.eqb c _);
          [intros H; injection H as <-; reflexivity |]).
  discriminate.
Qed.

Lemma scenario_keeps_well_formed_witness :
  nrows (Scenarios.severe_recession_apply sample_macro) = nrows sample_macro
  /\ well_formed (Scenarios.severe_recession_apply sample_macro)
  /\ (forall c, has_col sample_macro c = true ->
                has_col (Scenarios.severe_recession_apply sample_macro) c = true)
  /\ (forall c, c <> "bbsw_rate"%string ->
                has_col (Scenarios.severe_recession_apply sample_macro) c
                = has_col sample_macro c).
Proof.
  apply (scenario_keeps_well_formed Scenarios.SevereRecessionScenario sample_macro).
  - exact sample_macro_well_formed.
  - reflexivity.
Defined.

(** X21.  [FundingShockScenario.apply] reads cash_rate without a guard:
    when the series has bbsw_spread but no cash_rate it raises
    [KeyError]; in every other case it returns, and when both columns
    exist the stressed series has the column bbsw_rate = cash_rate +
    (bbsw_spread + spread_shock). *)
Theorem funding_shock_needs_cash_rate (spread_shock credit_shock : R) (df : DataFrame) :
  (has_col df "bbsw_spread" = true -> has_col df "cash_rate" = false ->
   Scenarios.apply (Scenarios.FundingShockScenario spread_shock credit_shock) df
     = Raises (KeyError "cash_rate"))
  /\ (has_col df "bbsw_spread" = false ->
      exists dfs,
        Scenarios.apply (Scenarios.FundingShockScenario spread_shock credit_shock) df
          = Returns dfs)
  /\ (forall cash spread,
        lookup "cash_rate" (columns df) = Some cash ->
        lookup "bbsw_spread" (columns df) = Some spread ->
        exists dfs,
          Scenarios.apply (Scenarios.FundingShockScenario spread_shock credit_shock) df
            = Returns dfs
          /\ getitem dfs "bbsw_rate"
             = Returns (map2 Rplus cash (map (fun x => x + spread_shock) spread))).
Proof.
  split; [| split].
  - intros Hs Hc. simpl. unfold Scenarios.funding_shock_apply. rewrite Hs.
    unfold getitem at 1.
    rewrite lookup_update_col_other by discriminate.
    unfold has_col in Hc.
    destruct (lookup "cash_rate" (columns df)); [discriminate | reflexivity].
  - intros Hs. simpl. unfold Scenarios.funding_shock_apply. rewrite Hs.
    eexists. reflexivity.
  - intros cash spread Hcash Hspread. simpl.
    unfold Scenarios.funding_shock_apply.
    assert (Hs : has_col df "bbsw_spread" = true)
      by (unfold has_col; rewrite Hspread; reflexivity).
    rewrite Hs. unfold getitem at 1 2.
    rewrite lookup_update_col_other by discriminate.
    rewrite lookup_update_col_same, Hcash, Hspread. cbn [bind option_map].
    eexists. split; [reflexivity |].
    unfold getitem.
    repeat (rewrite lookup_update_col_other by discriminate).
    unfold setitem. simpl columns. rewrite lookup_assoc_set_same. reflexivity.
Qed.

Lemma funding_shock_needs_cash_rate_witness :
  Scenarios.apply (Scenarios.FundingShockScenario 0.75 (-15))
    (mkDataFrame 2 [("bbsw_spread"%string, [0.5; 0.6])])
  = Raises (KeyError "cash_rate").
Proof.
  apply (proj1 (funding_shock_needs_cash_rate 0.75 (-15)
                  (mkDataFrame 2 [("bbsw_spread"%string, [0.5; 0.6])])));
    reflexivity.
Defined.

(** ** The ramp *)

Lemma ramp_path_tail (target : R) (periods n i : nat) :
  (2 <= periods)%nat -> (2 <= n)%nat ->
  (Nat.min periods n - 1 <= i)%nat -> (i < n)%nat ->
  nth i (Scenarios.ramp_path target periods n) 0 = target.
Proof.
  intros Hp Hn Hi Hin. rewrite nth_ramp_path by exact Hin. cbv zeta.
  set (m := Nat.min periods n) in *.
  assert (Hm : (2 <= m)%nat) by (unfold m; lia).
  destruct (Nat.ltb_spec i m) as [Hlt | Hge]; [| reflexivity].
  destruct (Nat.eqb_spec m 1) as [H1 | H1]; [lia |].
  assert (i = (m - 1)%nat) by lia. subst i.
  assert (INR (m - 1) <> 0) by (apply not_0_INR; lia).
  field. assumption.
Qed.

Lemma ramp_path_head (target : R) (periods n : nat) :
  (1 <= periods)%nat -> (1 <= n)%nat ->
  nth 0 (Scenarios.ramp_path target periods n) 0 = 0.
Proof.
  intros Hp Hn. rewrite nth_ramp_path by lia. cbv zeta.
  destruct (Nat.ltb_spec 0 (Nat.min periods n)) as [_ | H]; [| lia].
  destruct (Nat.min periods n =? 1)%nat; [reflexivity |]. simpl. ring.
Qed.

Lemma INR_ratio_bounds (i k : nat) :
  (i <= k)%nat -> (1 <= k)%nat -> 0 <= INR i / INR k <= 1.
Proof.
  intros Hik Hk.
  assert (Hk' : 0 < INR k) by (apply lt_0_INR; lia).
  assert (Hi : 0 <= INR i <= INR k) by (split; [apply pos_INR | apply le_INR, Hik]).
  split.
  - apply Rmult_le_pos; [lra | left; apply Rinv_0_lt_compat, Hk'].
  - apply Rmult_le_reg_r with (INR k); [exact Hk' |].
    unfold Rdiv. rewrite Rmult_assoc, Rinv_l by lra. lra.
Qed.

Lemma ramp_path_between (target : R) (periods n i : nat) :
  (i < n)%nat ->
  Rmin 0 target <= nth i (Scenarios.ramp_path target periods n) 0 <= Rmax 0 target.
Proof.
  intros Hin. rewrite nth_ramp_path by exact Hin. cbv zeta.
  set (m := Nat.min periods n).
  pose proof (Rmin_l 0 target) as Hmin0. pose proof (Rmin_r 0 target) as Hmint.
  pose proof (Rmax_l 0 target) as Hmax0. pose proof (Rmax_r 0 target) as Hmaxt.
  destruct (Nat.ltb_spec i m) as [Hlt | Hge]; [| lra].
  destruct (Nat.eqb_spec m 1) as [Hm1 | Hm1]; [lra |].
  pose proof (INR_ratio_bounds i (m - 1) ltac:(lia) ltac:(lia)) as Hr.
  replace (0 + INR i * ((target - 0) / INR (m - 1)))
    with (INR i / INR (m - 1) * target) by (unfold Rdiv; ring).
  set (q := INR i / INR (m - 1)) in *.
  destruct (Rle_dec 0 target); split; nra.
Qed.

(** X22.  The path that the tightening and recession scenarios add has
    one cell per period, starts at 0, reaches the target at the end of
    the ramp (period min(periods, n), as soon as there are two periods)
    and keeps it, and stays between 0 and the target throughout; on a
    series of a single period it is the single value 0. *)
Theorem ramp_path_shape (target : R) (periods n : nat) :
  (2 <= periods)%nat ->
  List.length (Scenarios.ramp_path target periods n) = n
  /\ ((1 <= n)%nat -> nth 0 (Scenarios.ramp_path target periods n) 0 = 0)
  /\ ((2 <= n)%nat ->
      forall i, (Nat.min periods n - 1 <= i)%nat -> (i < n)%nat ->
                nth i (Scenarios.ramp_path target periods n) 0 = target)
  /\ (forall i, (i < n)%nat ->
        Rmin 0 target <= nth i (Scenarios.ramp_path target periods n) 0
          <= Rmax 0 target)
  /\ Scenarios.ramp_path target periods 1 = [0].
Proof.
  intros Hp. split; [apply length_ramp_path |].
  split; [intros Hn; apply ramp_path_head; lia |].
  split; [intros Hn i Hi Hin; apply ramp_path_tail; assumption |].
  split; [intros i Hi; apply ramp_path_between, Hi |].
  unfold Scenarios.ramp_path.
  replace (Nat.min periods 1) with 1%nat by lia. reflexivity.
Qed.

Lemma ramp_path_shape_witness :
  List.length (Scenarios.ramp_path (-10) 24 36) = 36%nat
  /\ ((1 <= 36)%nat -> nth 0 (Scenarios.ramp_path (-10) 24 36) 0 = 0)
  /\ ((2 <= 36)%nat ->
      forall i, (Nat.min 24 36 - 1 <= i)%nat -> (i < 36)%nat ->
                nth i (Scenarios.ramp_path (-10) 24 36) 0 = -10)
  /\ (forall i, (i < 36)%nat ->
        Rmin 0 (-10) <= nth i (Scenarios.ramp_path (-10) 24 36) 0 <= Rmax 0 (-10))
  /\ Scenarios.ramp_path (-10) 24 1 = [0].
Proof. apply (ramp_path_shape (-10) 24 36). lia. Defined.

(** ** The latest period after a tightening *)

Lemma last_as_nth {A : Type} (l : list A) (d : A) :
  last l d = nth (List.length l - 1) l d.
Proof.
  induction l as [| x [| y l] IH]; try reflexivity.
  change (last (x :: y :: l) d) with (last (y :: l) d). rewrite IH.
  simpl. rewrite Nat.sub_0_r. reflexivity.
Qed.

Lemma last_map2_plus (col path : list R) :
  List.length col = List.length path ->
  last (map2 Rplus col path) 0 = last col 0 + last path 0.
Proof.
  revert path. induction col as [| x col IH]; intros [| y path] Hlen;
    simpl in Hlen; try discriminate.
  - simpl. ring.
  - injection Hlen as Hlen. specialize (IH path Hlen).
    destruct col as [| x' col], path as [| y' path]; simpl in Hlen;
      try discriminate.
    + reflexivity.
    + exact IH.
Qed.

Lemma last_ramp_path (target : R) (periods n : nat) :
  (2 <= periods)%nat -> (1 <= n)%nat ->
  last (Scenarios.ramp_path target periods n) 0
    = if (n =? 1)%nat then 0 else target.
Proof.
  intros Hp Hn. rewrite last_as_nth, length_ramp_path.
  destruct (Nat.eqb_spec n 1) as [-> | Hne].
  - apply ramp_path_head; lia.
  - apply ramp_path_tail; lia.
Qed.

Lemma apply_scenario_unfold (portfolio : Portfolio.Portfolio)
    (scenario : Scenarios.Scenario) (df_macro df_stressed : DataFrame) :
  Scenarios.apply scenario df_macro = Returns df_stressed ->
  nrows df_macro <> O ->
  Scenarios.apply_scenario_to_portfolio portfolio scenario df_macro
    = (stressed_results <-
         Portfolio.stress_portfolio portfolio
           (match latest df_stressed "unemployment_rate",
                  latest df_macro "unemployment_rate" with
            | Some stressed_u, Some base_u =>
                pd_multiplier_spec (stressed_u - base_u)
            | _, _ => 1
            end)
           (match latest df_stressed "housing_price_growth",
                  latest df_macro "housing_price_growth" with
            | Some stressed_h, Some base_h =>
                lgd_multiplier_spec (stressed_h - base_h)
            | _, _ => 1
            end)
           1.05 ;;
       Returns (stressed_results, df_stressed)).
Proof.
  intros Happly Hn.
  pose proof (same_shape_apply _ _ _ Happly) as Hshape.
  assert (Hn' : nrows df_stressed <> O) by (rewrite (proj1 Hshape); exact Hn).
  unfold Scenarios.apply_scenario_to_portfolio.
  rewrite Happly. cbn [bind].
  rewrite (iloc_last_returns _ Hn'). cbn [bind].
  rewrite !lookup_map_last, (iloc_last_returns _ Hn).
  change (option_map (fun v => last v 0)
            (lookup "unemployment_rate" (columns df_stressed)))
    with (latest df_stressed "unemployment_rate").
  change (option_map (fun v => last v 0)
            (lookup "housing_price_growth" (columns df_stressed)))
    with (latest df_stressed "housing_price_growth").
  pose proof (latest_none_iff _ _ "unemployment_rate" Hshape
                ltac:(discriminate)) as Hu.
  pose proof (latest_none_iff _ _ "housing_price_growth" Hshape
                ltac:(discriminate)) as Hh.
  assert (Hbu : latest df_macro "unemployment_rate"
                = option_map (fun v => last v 0)
                    (lookup "unemployment_rate" (columns df_macro)))
    by reflexivity.
  assert (Hbh : latest df_macro "housing_price_growth"
                = option_map (fun v => last v 0)
                    (lookup "housing_price_growth" (columns df_macro)))
    by reflexivity.
  destruct (latest df_stressed "unemployment_rate") as [su |];
    destruct (latest df_macro "unemployment_rate") as [bu |];
    try (exfalso; destruct Hu as [Hu1 Hu2];
         (discriminate (Hu1 eq_refl) || discriminate (Hu2 eq_refl)));
    destruct (latest df_stressed "housing_price_growth") as [sh |];
    destruct (latest df_macro "housing_price_growth") as [bh |];
    try (exfalso; destruct Hh as [Hh1 Hh2];
         (discriminate (Hh1 eq_refl) || discriminate (Hh2 eq_refl)));
    cbn [bind]; unfold Scenarios.row_getitem, Scenarios.row_get;
    rewrite ?lookup_map_last, <- ?Hbu, <- ?Hbh; cbn [bind];
    unfold pd_multiplier_spec, lgd_multiplier_spec;
    replace 2.0 with 2 by lra; replace 1.0 with 1 by lra; reflexivity.
Qed.

(** The shock that has reached the latest of [n] periods. *)
Definition shock_at_latest (n : nat) (shock : R) : R :=
  if (n =? 1)%nat then 0 else shock.

Lemma tightening_latest_unemployment (r us hs : R) (df : DataFrame) (col : list R) :
  well_formed df -> (1 <= nrows df)%nat ->
  lookup "unemployment_rate" (columns df) = Some col ->
  latest (Scenarios.tightening_apply r us hs df) "unemployment_rate"
    = Some (last col 0 + shock_at_latest (nrows df) us).
Proof.
  intros Hwf Hn Hcol. unfold latest, Scenarios.tightening_apply. cbv zeta.
  repeat (rewrite lookup_update_col_other by discriminate).
  match goal with
  | |- context [if ?b then _ else _] => destruct b
  end;
    repeat (rewrite lookup_update_col_other by discriminate);
    rewrite lookup_update_col_same;
    repeat (rewrite lookup_update_col_other by discriminate);
    rewrite Hcol; simpl option_map; rewrite !nrows_update_col;
    unfold Scenarios.add_path;
    rewrite last_map2_plus
      by (rewrite length_ramp_path; apply (Hwf _ _ Hcol));
    rewrite last_ramp_path by lia; reflexivity.
Qed.

Lemma tightening_latest_housing (r us hs : R) (df : DataFrame) (col : list R) :
  well_formed df -> (1 <= nrows df)%nat ->
  lookup "housing_price_growth" (columns df) = Some col ->
  latest (Scenarios.tightening_apply r us hs df) "housing_price_growth"
    = Some (last col 0 + shock_at_latest (nrows df) hs).
Proof.
  intros Hwf Hn Hcol.
  pose proof (tightening_housing_additive r us hs df col Hcol) as H.
  unfold getitem in H. unfold latest.
  destruct (lookup "housing_price_growth"
              (columns (Scenarios.tightening_apply r us hs df))) as [v |];
    [| discriminate].
  injection H as ->. simpl option_map.
  rewrite last_map2_plus by (rewrite length_ramp_path; apply (Hwf _ _ Hcol)).
  rewrite last_ramp_path by lia. reflexivity.
Qed.

Lemma tightening_latest_absent (r us hs : R) (df : DataFrame) (c : string) :
  lookup c (columns df) = None ->
  latest (Scenarios.tightening_apply r us hs df) c = None.
Proof.
  intros Hc.
  assert (H : has_col (Scenarios.tightening_apply r us hs df) c = has_col df c).
  { unfold Scenarios.tightening_apply. cbv zeta.
    rewrite !has_col_update_col.
    match goal with |- context [if ?b then _ else _] => destruct b end;
      rewrite ?has_col_update_col; reflexivity. }
  unfold has_col in H. rewrite Hc in H. unfold latest.
  destruct (lookup c (columns (Scenarios.tightening_apply r us hs df)));
    [discriminate | reflexivity].
Qed.

Lemma tightening_to_portfolio (portfolio : Portfolio.Portfolio) (r us hs : R)
    (df : DataFrame) :
  well_formed df -> (1 <= nrows df)%nat ->
  Scenarios.apply_scenario_to_portfolio portfolio
    (Scenarios.TighteningScenario r us hs) df
  = (stressed <-
       Portfolio.stress_portfolio portfolio
         (if has_col df "unemployment_rate"
          then pd_multiplier_spec (shock_at_latest (nrows df) us) else 1)
         (if has_col df "housing_price_growth"
          then lgd_multiplier_spec (shock_at_latest (nrows df) hs) else 1)
         1.05 ;;
     Returns (stressed, Scenarios.tightening_apply r us hs df)).
Proof.
  intros Hwf Hn.
  rewrite (apply_scenario_unfold portfolio
             (Scenarios.TighteningScenario r us hs) df
             (Scenarios.tightening_apply r us hs df) eq_refl) by lia.
  unfold has_col.
  destruct (lookup "unemployment_rate" (columns df)) as [cu |] eqn:Eu;
    destruct (lookup "housing_price_growth" (columns df)) as [ch |] eqn:Eh;
    rewrite ?(tightening_latest_unemployment r us hs df _ Hwf Hn Eu),
            ?(tightening_latest_housing r us hs df _ Hwf Hn Eh),
            ?(tightening_latest_absent r us hs df _ Eu),
            ?(tightening_latest_absent r us hs df _ Eh);
    unfold latest; rewrite ?Eu, ?Eh; simpl option_map; cbv beta iota;
    try replace (last cu 0 + shock_at_latest (nrows df) us - last cu 0)
      with (shock_at_latest (nrows df) us) by ring;
    try replace (last ch 0 + shock_at_latest (nrows df) hs - last ch 0)
      with (shock_at_latest (nrows df) hs) by ring;
    reflexivity.
Qed.





(** X24.  End to end: for a portfolio with a segment whose rows have
    avg_pd >= 0, avg_lgd in [0,1] and total_ead >= 0, a tightening with a
    non-negative unemployment shock and a non-positive housing shock on a
    well-formed, non-empty series without missing cells returns, and the
    total stressed ECL is at least the total baseline ECL stored by
    [calculate_ecl].  (A missing cell in the latest period is outside the
    statement: it makes the multipliers NaN.) *)
Theorem tightening_raises_ecl (p : Portfolio.Portfolio) (r us hs : R)
    (df : DataFrame) :
  Portfolio.exposures p <> [] ->
  Forall segment_in_domain (Portfolio.exposures p) ->
  well_formed df -> (1 <= nrows df)%nat ->
  0 <= us -> hs <= 0 ->
  exists p' view stressed,
    Portfolio.calculate_ecl p = Returns (p', view)
    /\ Scenarios.apply_scenario_to_portfolio p'
         (Scenarios.TighteningScenario r us hs) df
       = Returns (stressed, Scenarios.tightening_apply r us hs df)
    /\ Portfolio.total_ecl_12m (Portfolio.exposures p')
       <= Portfolio.total_ecl_stressed stressed.
Proof.
  intros Hne Hdom Hwf Hn Hus Hhs.
  eexists _, _, _. split; [apply calculate_ecl_returns, Hne |].
  rewrite tightening_to_portfolio by assumption.
  rewrite stress_portfolio_returns by (simpl; apply ecl_rows_nonempty, Hne).
  cbn [bind Portfolio.exposures]. split; [reflexivity |].
  apply stress_rows_ordered; try assumption; try lra.
  - destruct (has_col df "unemployment_rate"); [| lra].
    unfold pd_multiplier_spec, shock_at_latest.
    destruct (nrows df =? 1)%nat; lra.
  - destruct (has_col df "housing_price_growth"); [| lra].
    unfold lgd_multiplier_spec, shock_at_latest, Core.np_clip.
    apply Rmin_glb; [| lra].
    apply Rle_trans with (1 - (if (nrows df =? 1)%nat then 0 else hs) / 10 * 0.1);
      [| apply Rmax_l].
    destruct (nrows df =? 1)%nat; lra.
Qed.

Lemma two_segments_in_domain :
  Forall segment_in_domain (Portfolio.exposures two_segments).
Proof.
  simpl. repeat constructor; unfold segment_in_domain; simpl; lra.
Qed.

Lemma tightening_raises_ecl_witness :
  exists p' view stressed,
    Portfolio.calculate_ecl two_segments = Returns (p', view)
    /\ Scenarios.apply_scenario_to_portfolio p'
         (Scenarios.TighteningScenario 2.0 2.0 (-10.0)) sample_macro
       = Returns (stressed, Scenarios.tightening_apply 2.0 2.0 (-10.0) sample_macro)
    /\ Portfolio.total_ecl_12m (Portfolio.exposures p')
       <= Portfolio.total_ecl_stressed stressed.
Proof.
  apply (tightening_raises_ecl two_segments 2.0 2.0 (-10.0) sample_macro).
  - simpl. discriminate.
  - exact two_segments_in_domain.
  - exact sample_macro_well_formed.
  - simpl. lia.
  - lra.
  - lra.
Defined.

(** ** Severe recession: caps and floors *)

(** X25.  In the series stressed by [SevereRecessionScenario.apply], for
    every baseline without missing cells, every unemployment cell is at
    most 12, every cash_rate and fed_funds_rate cell is at least 0.1, and
    every housing_price_growth cell lies between -25 and 0.  (A missing
    baseline cell is outside the statement: [np.minimum] and
    [np.maximum] keep a NaN.) *)
Theorem severe_recession_bounds (df : DataFrame) :
  (has_col df "unemployment_rate" = true ->
   exists col,
     getitem (Scenarios.severe_recession_apply df) "unemployment_rate" = Returns col
     /\ Forall (fun x => x <= 12) col)
  /\ (has_col df "cash_rate" = true ->
      exists col,
        getitem (Scenarios.severe_recession_apply df) "cash_rate" = Returns col
        /\ Forall (fun x => 0.1 <= x) col)
  /\ (has_col df "fed_funds_rate" = true ->
      exists col,
        getitem (Scenarios.severe_recession_apply df) "fed_funds_rate" = Returns col
        /\ Forall (fun x => 0.1 <= x) col)
  /\ (has_col df "housing_price_growth" = true ->
      exists col,
        getitem (Scenarios.severe_recession_apply df) "housing_price_growth"
          = Returns col
        /\ Forall (fun x => -25 <= x <= 0) col).
Proof.
  unfold has_col.
  split; [| split; [| split]]; intros H;
    unfold getitem, Scenarios.severe_recession_apply; cbv zeta;
    repeat (rewrite lookup_update_col_other by discriminate);
    rewrite lookup_update_col_same;
    repeat (rewrite lookup_update_col_other by discriminate).
  - destruct (lookup "unemployment_rate" (columns df)) as [col |]; [| discriminate].
    eexists. split; [reflexivity |].
    apply Forall_map, Forall_forall. intros x _. apply Rmin_r.
  - destruct (lookup "cash_rate" (columns df)) as [col |]; [| discriminate].
    eexists. split; [reflexivity |].
    apply Forall_map, Forall_forall. intros x _. apply Rmax_r.
  - destruct (lookup "fed_funds_rate" (columns df)) as [col |]; [| discriminate].
    eexists. split; [reflexivity |].
    apply Forall_map, Forall_forall. intros x _. apply Rmax_r.
  - destruct (lookup "housing_price_growth" (columns df)) as [col |];
      [| discriminate].
    eexists. split; [reflexivity |].
    apply Forall_forall. intros x Hx.
    destruct (In_nth _ _ 0 Hx) as [i [Hi <-]].
    rewrite length_ramp_path in Hi.
    pose proof (ramp_path_between (-25) 18 (nrows df) i Hi) as Hb.
    rewrite Rmin_right, Rmax_left in Hb by lra. exact Hb.
Qed.

Lemma severe_recession_bounds_witness :
  exists col,
    getitem (Scenarios.severe_recession_apply sample_macro) "unemployment_rate"
      = Returns col
    /\ Forall (fun x => x <= 12) col.
Proof.
  apply (proj1 (severe_recession_bounds sample_macro)). reflexivity.
Defined.

(** ** Custom shocks: the zero shock *)

Lemma assoc_set_same_value {A : Type} (k : string) (v : A) l :
  lookup k l = Some v -> assoc_set k v l = l.
Proof.
  induction l as [| [k' v'] t IH]; simpl; [discriminate |].
  destruct (String.eqb k k') eqn:E.
  - intros H. injection H as ->. apply String.eqb_eq in E. subst. reflexivity.
  - intros H. rewrite IH by exact H. reflexivity.
Qed.

Lemma update_col_identity df c f :
  (forall v, f v = v) -> Scenarios.update_col df c f = df.
Proof.
  intros Hf. unfold Scenarios.update_col.
  destruct (lookup c (columns df)) as [v |] eqn:E; [| reflexivity].
  unfold setitem. rewrite Hf, assoc_set_same_value by exact E.
  destruct df. reflexivity.
Qed.

(** X26.  The zero shock is neutral: a custom scenario whose shocks are
    all 0 returns the series it was given, whether or not the series has
    the fields. *)
Theorem custom_zero_shocks_neutral (df : DataFrame)
    (shocks : list (string * R)) :
  Forall (fun vs => snd vs = 0) shocks ->
  Scenarios.apply (Scenarios.CustomScenario shocks) df = Returns df.
Proof.
  intros Hz. simpl. f_equal. unfold Scenarios.custom_apply.
  induction Hz as [| [c s] shocks Hs _ IH]; simpl; [reflexivity |].
  simpl in Hs. subst s.
  assert (Hid : Scenarios.update_col df c (Scenarios.add_scalar 0) = df).
  { apply update_col_identity. intros v. unfold Scenarios.add_scalar.
    rewrite <- (map_id v) at 2. apply map_ext. intros x. ring. }
  rewrite Hid. destruct (has_col df c); exact IH.
Qed.

Lemma custom_zero_shocks_neutral_witness :
  Scenarios.apply
    (Scenarios.CustomScenario [("cash_rate"%string, 0);
                               ("unemployment_rate"%string, 0);
                               ("no_such_field"%string, 0)])
    sample_macro
  = Returns sample_macro.
Proof.
  apply (custom_zero_shocks_neutral sample_macro).
  repeat constructor.
Defined.

(** ** Outcomes of the propagation *)

Lemma apply_scenario_returns (p : Portfolio.Portfolio) (scenario : Scenarios.Scenario)
    (df dfs : DataFrame) :
  Scenarios.apply scenario df = Returns dfs ->
  nrows df <> O -> Portfolio.exposures p <> [] ->
  exists stressed,
    Scenarios.apply_scenario_to_portfolio p scenario df = Returns (stressed, dfs)
    /\ map Portfolio.base stressed = Portfolio.exposures p.
Proof.
  intros Happly Hn Hne.
  rewrite (apply_scenario_unfold p scenario df dfs Happly Hn).
  rewrite stress_portfolio_returns by exact Hne. cbn [bind].
  eexists. split; [reflexivity |].
  rewrite map_map. simpl. apply map_id.
Qed.

(** X27.  The outcomes of [apply_scenario_to_portfolio]: an exception of
    the scenario transform propagates; on a series without periods it
    raises [IndexError]; on a series with periods and a portfolio without
    segments it raises [KeyError] for avg_pd; otherwise it returns the
    stressed series of the transform and one stressed row per segment, in
    the order of the portfolio. *)
Theorem apply_scenario_outcomes (p : Portfolio.Portfolio)
    (scenario : Scenarios.Scenario) (df : DataFrame) :
  (forall e, Scenarios.apply scenario df = Raises e ->
             Scenarios.apply_scenario_to_portfolio p scenario df = Raises e)
  /\ (forall dfs, Scenarios.apply scenario df = Returns dfs ->
        (nrows df = O ->
         Scenarios.apply_scenario_to_portfolio p scenario df = Raises IndexError)
        /\ (nrows df <> O -> Portfolio.exposures p = [] ->
            Scenarios.apply_scenario_to_portfolio p scenario df
              = Raises (KeyError "avg_pd"))
        /\ (nrows df <> O -> Portfolio.exposures p <> [] ->
            exists stressed,
              Scenarios.apply_scenario_to_portfolio p scenario df
                = Returns (stressed, dfs)
              /\ map Portfolio.base stressed = Portfolio.exposures p)).
Proof.
  split.
  - intros e H. unfold Scenarios.apply_scenario_to_portfolio. rewrite H. reflexivity.
  - intros dfs H. split; [| split].
    + intros Hn. unfold Scenarios.apply_scenario_to_portfolio. rewrite H.
      cbn [bind]. unfold Scenarios.iloc_last.
      rewrite (proj1 (same_shape_apply _ _ _ H)), Hn. reflexivity.
    + intros Hn He. rewrite (apply_scenario_unfold p scenario df dfs H Hn).
      unfold Portfolio.stress_portfolio. rewrite He. reflexivity.
    + intros Hn Hne. apply apply_scenario_returns; assumption.
Qed.

Lemma apply_scenario_outcomes_witness :
  Scenarios.apply_scenario_to_portfolio (Portfolio.init "Empty")
    Scenarios.SevereRecessionScenario sample_macro
  = Raises (KeyError "avg_pd").
Proof.
  apply (proj1 (proj2 (proj2 (apply_scenario_outcomes (Portfolio.init "Empty")
                                Scenarios.SevereRecessionScenario sample_macro)
                         (Scenarios.severe_recession_apply sample_macro) eq_refl))).
  - simpl. discriminate.
  - reflexivity.
Defined.

(** ** Comparison of scenarios *)

Definition scenario_returns (df : DataFrame) (named : string * Scenarios.Scenario)
  : Prop :=
  exists dfs, Scenarios.apply (snd named) df = Returns dfs.

Lemma scenario_rows_returns (p : Portfolio.Portfolio) (df : DataFrame) scenarios :
  Portfolio.exposures p <> [] -> nrows df <> O ->
  Forall (scenario_returns df) scenarios ->
  exists rows,
    ScenarioComparison.scenario_rows p df scenarios = Returns rows
    /\ map ScenarioComparison.scenario_name rows = map fst scenarios
    /\ Forall (fun row => ScenarioComparison.cet1_required row
                          = ScenarioComparison.total_rwa row * 0.105) rows.
Proof.
  intros Hne Hn. induction 1 as [| named scenarios [dfs Hd] _ [rows [IH1 [IH2 IH3]]]].
  - exists []. repeat split; constructor.
  - destruct (apply_scenario_returns p (snd named) df dfs Hd Hn Hne)
      as [stressed [Hs _]].
    cbn [ScenarioComparison.scenario_rows].
    unfold ScenarioComparison.scenario_row. rewrite Hs. cbn [bind fst].
    rewrite IH1. cbn [bind]. eexists. split; [reflexivity |]. split.
    + simpl. rewrite IH2. reflexivity.
    + constructor; [reflexivity | exact IH3].
Qed.

(** X28.  [compare_scenarios] on a portfolio without segments raises
    [KeyError].  On a portfolio with a segment and a non-empty series,
    when every scenario transform returns, it returns the portfolio with
    the ECL and RWA columns computed and one row per scenario after the
    baseline row, in the order given and under the scenario names; the
    baseline row has zero changes, and in every row the CET1 requirement
    is 10.5 percent of the total RWA. *)
Theorem compare_scenarios_rows (p : Portfolio.Portfolio)
    (scenarios : list (string * Scenarios.Scenario)) (df : DataFrame) :
  (Portfolio.exposures p = [] ->
   ScenarioComparison.compare_scenarios p scenarios df = Raises (KeyError "avg_pd"))
  /\ (Portfolio.exposures p <> [] -> nrows df <> O ->
      Forall (scenario_returns df) scenarios ->
      exists p' baseline rows,
        ScenarioComparison.compare_scenarios p scenarios df
          = Returns (p', baseline :: rows)
        /\ Portfolio.exposures p' = rwa_rows (ecl_rows (Portfolio.exposures p))
        /\ ScenarioComparison.scenario_name baseline = "Baseline"%string
        /\ ScenarioComparison.ecl_change_pct baseline = 0
        /\ ScenarioComparison.rwa_change_pct baseline = 0
        /\ map ScenarioComparison.scenario_name rows = map fst scenarios
        /\ Forall (fun row => ScenarioComparison.cet1_required row
                              = ScenarioComparison.total_rwa row * 0.105)
                  (baseline :: rows)).
Proof.
  split.
  - intros He. unfold ScenarioComparison.compare_scenarios, Portfolio.calculate_ecl.
    rewrite He. reflexivity.
  - intros Hne Hn Hs.
    assert (Hne1 : ecl_rows (Portfolio.exposures p) <> [])
      by (apply ecl_rows_nonempty, Hne).
    assert (Hne2 : rwa_rows (ecl_rows (Portfolio.exposures p)) <> [])
      by (apply rwa_rows_nonempty, Hne1).
    set (p2 := Portfolio.mkPortfolio (Portfolio.name p)
                 (rwa_rows (ecl_rows (Portfolio.exposures p)))).
    destruct (scenario_rows_returns p2 df scenarios Hne2 Hn Hs)
      as [rows [Hrows [Hnames Hcet]]].
    unfold ScenarioComparison.compare_scenarios.
    rewrite (calculate_ecl_returns p Hne). cbn [bind fst].
    rewrite calculate_rwa_returns by exact Hne1.
    cbn [bind fst Portfolio.name Portfolio.exposures]. fold p2.
    unfold PortfolioCapital.calculate_capital.
    assert (Hcol : PortfolioCapital.has_rwa_column p2 = true)
      by (apply has_rwa_column_rwa_rows, Hne1).
    rewrite Hcol. cbn [bind fst snd]. rewrite Hrows. cbn [bind].
    eexists _, _, _. split; [reflexivity |].
    split; [reflexivity |]. repeat (split; [reflexivity |]).
    split; [exact Hnames |].
    constructor; [reflexivity | exact Hcet].
Qed.

Lemma compare_scenarios_rows_witness :
  exists p' baseline rows,
    ScenarioComparison.compare_scenarios two_segments
      [("Monetary Tightening"%string, Scenarios.TighteningScenario 2.0 2.0 (-10.0));
       ("Severe Recession"%string, Scenarios.SevereRecessionScenario)]
      sample_macro
      = Returns (p', baseline :: rows)
    /\ Portfolio.exposures p'
       = rwa_rows (ecl_rows (Portfolio.exposures two_segments))
    /\ ScenarioComparison.scenario_name baseline = "Baseline"%string
    /\ ScenarioComparison.ecl_change_pct baseline = 0
    /\ ScenarioComparison.rwa_change_pct baseline = 0
    /\ map ScenarioComparison.scenario_name rows
       = map fst
           [("Monetary Tightening"%string,
             Scenarios.TighteningScenario 2.0 2.0 (-10.0));
            ("Severe Recession"%string, Scenarios.SevereRecessionScenario)]
    /\ Forall (fun row => ScenarioComparison.cet1_required row
                          = ScenarioComparison.total_rwa row * 0.105)
              (baseline :: rows).
Proof.
  apply (proj2 (compare_scenarios_rows two_segments
                  [("Monetary Tightening"%string,
                    Scenarios.TighteningScenario 2.0 2.0 (-10.0));
                   ("Severe Recession"%string, Scenarios.SevereRecessionScenario)]
                  sample_macro)).
  - simpl. discriminate.
  - simpl. discriminate.
  - repeat constructor; eexists; reflexivity.
Defined.
